(** * Macdonald polynomial bases of [sage/combinat/sf/macdonald.py]

    A shallow embedding of the structural scalars [c1], [c2], the
    basis constructors, the specialised and generic qt-Hall scalar
    products, the [nabla] and [omega_qt] operators, the determinantal
    creation operator and the change-of-basis caches of the six
    Macdonald bases P, Q, J, H, Ht and S.

    Coefficients live in an arbitrary field with decidable equality
    (class [ScalarField]), the field of symbolic scalars in which the
    fraction field QQ(q,t) and the base rings of the specialised
    bases lie; the substitution of values for the two parameters is a
    partial map of that field (class [Substitution]).  Elements of a
    basis are finite maps from partitions to non-zero coefficients,
    as the dictionaries [_monomial_coefficients] of the source. *)

From Stdlib Require Import ZArith QArith Qcanon Field Ring Lia List String.
From stdpp Require Import base option gmap list fin_maps strings.

Set Default Proof Using "Type".

(* ================================================================== *)
(** ** Exceptions *)

Inductive exn : Type :=
| ValueError
| TypeError
| NameError
| KeyError
| IndexError
| ZeroDivisionError.

Inductive result (A : Type) : Type :=
| Ok (a : A)
| Raise (e : exn).
Arguments Ok {A} a.
Arguments Raise {A} e.

Definition rbind {A B : Type} (r : result A) (k : A -> result B) : result B :=
  match r with
  | Ok a => k a
  | Raise e => Raise e
  end.

Notation "'do' x <- r ; k" := (rbind r (fun x => k))
  (at level 10, x name, r at level 100, k at level 200).

(** Computations that read and write a state of type [S] and may
    raise; what was written before an exception stays written. *)
Definition ST (S A : Type) : Type := S -> result A * S.

Definition ret {S A : Type} (a : A) : ST S A := fun g => (Ok a, g).

Definition raise {S A : Type} (e : exn) : ST S A := fun g => (Raise e, g).

Definition bind {S A B : Type} (m : ST S A) (k : A -> ST S B) : ST S B :=
  fun g =>
    match m g with
    | (Ok a, g') => k a g'
    | (Raise e, g') => (Raise e, g')
    end.

Definition lift {S A : Type} (r : result A) : ST S A := fun g => (r, g).

Notation "'run' x <- m ; k" := (bind m (fun x => k))
  (at level 10, x name, m at level 100, k at level 200).

(* ================================================================== *)
(** ** The field of scalars *)

Class ScalarField := {
  F : Type;
  fzero : F;
  fone : F;
  fadd : F -> F -> F;
  fmul : F -> F -> F;
  fsub : F -> F -> F;
  fopp : F -> F;
  fdiv : F -> F -> F;
  finv : F -> F;
  F_theory : field_theory fzero fone fadd fmul fsub fopp fdiv finv (@eq F);
  F_eq_dec : forall x y : F, {x = y} + {x <> y}
}.

Declare Scope F_scope.
Delimit Scope F_scope with F.
Bind Scope F_scope with F.
Notation "0" := fzero : F_scope.
Notation "1" := fone : F_scope.
Infix "+" := fadd : F_scope.
Infix "*" := fmul : F_scope.
Infix "-" := fsub : F_scope.
Infix "/" := fdiv : F_scope.
Notation "- x" := (fopp x) : F_scope.

#[export] Instance F_eq_decision `{ScalarField} : EqDecision F := F_eq_dec.

(** [x ** n] of the source, for a natural exponent. *)
Fixpoint fpow `{ScalarField} (x : F) (n : nat) : F :=
  match n with
  | O => 1%F
  | S n' => (x * fpow x n')%F
  end.
Infix "^" := fpow : F_scope.

(** The image of a natural number in the field. *)
Fixpoint of_nat `{ScalarField} (n : nat) : F :=
  match n with
  | O => 0%F
  | S n' => (1 + of_nat n')%F
  end.

(** Product of a list of scalars ([prod] of [sage.misc.misc]). *)
Definition fprod `{ScalarField} (l : list F) : F :=
  fold_left fmul l 1%F.

(** The rationals, with canonical representatives, are an instance. *)
#[export] Instance Qc_field : ScalarField := {|
  F := Qc;
  fzero := 0%Qc;
  fone := 1%Qc;
  fadd := Qcplus;
  fmul := Qcmult;
  fsub := Qcminus;
  fopp := Qcopp;
  fdiv := Qcdiv;
  finv := Qcinv;
  F_theory := Qcft;
  F_eq_dec := Qc_eq_dec
|}.

Definition Qc_of_Z (z : Z) : Qc := Q2Qc (inject_Z z).

(** Modelled from the spec: the field of symbolic scalars supports
    the substitution of named parameters.  [QQqt_q] and [QQqt_t] are
    the generators [QQqt.gens()] of the fraction field and
    [subs a b c] is [c.subs(q = a, t = b)]: the two parameters are
    replaced in the numerator and in the denominator of [c], and the
    division raises when the denominator becomes zero.  Where it is
    defined a substitution respects sums, opposites, products and
    inverses, and replacing the generators by themselves changes
    nothing. *)
Class Substitution `{ScalarField} := {
  QQqt_q : F;
  QQqt_t : F;
  subs : F -> F -> F -> result F;
  subs_gens : forall c : F, subs QQqt_q QQqt_t c = Ok c;
  subs_zero : forall a b : F, subs a b 0%F = Ok 0%F;
  subs_one : forall a b : F, subs a b 1%F = Ok 1%F;
  subs_add : forall a b x y x' y' : F,
    subs a b x = Ok x' -> subs a b y = Ok y' ->
    subs a b (x + y)%F = Ok (x' + y')%F;
  subs_opp : forall a b x x' : F,
    subs a b x = Ok x' -> subs a b (- x)%F = Ok (- x')%F;
  subs_mul : forall a b x y x' y' : F,
    subs a b x = Ok x' -> subs a b y = Ok y' ->
    subs a b (x * y)%F = Ok (x' * y')%F;
  subs_inv : forall a b x x' : F,
    subs a b x = Ok x' -> x' <> 0%F -> subs a b (finv x) = Ok (finv x')
}.

(** In the rationals nothing depends on a parameter: a substitution
    leaves every scalar as it is.  The numbers 2 and 3 stand for the
    two generators. *)
#[export, refine] Instance Qc_substitution : @Substitution Qc_field := {|
  QQqt_q := Qc_of_Z 2;
  QQqt_t := Qc_of_Z 3;
  subs := fun _ _ c => Ok c
|}.
Proof.
- reflexivity.
- reflexivity.
- reflexivity.
- intros a b x y x' y' [= <-] [= <-]. reflexivity.
- intros a b x x' [= <-]. reflexivity.
- intros a b x y x' y' [= <-] [= <-]. reflexivity.
- intros a b x x' [= <-] _. reflexivity.
Defined.

(* ================================================================== *)
(** ** Partitions *)

Module Partition.

(** A partition is the list of its parts, as [Partition_class._list]. *)
Abbreviation partition := (list nat).

Definition size (p : partition) : nat := list_sum p.

(** Modelled from the spec: [Partition.conjugate] is part of the
    partition library, which is not in this file; the conjugate has
    one part per column of the diagram, the number of rows meeting
    that column. *)
Definition conjugate (p : partition) : partition :=
  map (fun j => length (List.filter (fun x => j <? x) p)) (seq 0 (hd 0 p)).

(** Modelled from the spec: [Partition.arm_lengths], the tableau of
    arm lengths; the arm of a cell is the number of cells strictly to
    its right in the same row. *)
Definition arm (p : partition) (i j : nat) : nat := nth i p 0 - (j + 1).

Definition arm_lengths (p : partition) : list (list nat) :=
  imap (fun i pi => map (fun j => arm p i j) (seq 0 pi)) p.

(** Modelled from the spec: [Partition.leg_lengths], the tableau of
    leg lengths; the leg of a cell is the number of cells strictly
    below it in the same column. *)
Definition leg (p : partition) (i j : nat) : nat :=
  length (List.filter (fun x => j <? x) (drop (S i) p)).

Definition leg_lengths (p : partition) : list (list nat) :=
  imap (fun i pi => map (fun j => leg p i j) (seq 0 pi)) p.

(** The cells of the diagram, row by row. *)
Definition cells (p : partition) : list (nat * nat) :=
  concat (imap (fun i pi => map (fun j => (i, j)) (seq 0 pi)) p).

(** Modelled from the spec: [Partition.weighted_size],
    n(p) = sum over i of (i-1) p_i with rows numbered from 1. *)
Definition weighted_size (p : partition) : nat :=
  list_sum (imap (fun i pi => i * pi) p).

(** Partitions of [n] with all parts at most [m], largest first; the
    recursion is on the fuel [k], and [k = n] always suffices. *)
Fixpoint parts_le (k n m : nat) : list partition :=
  match k with
  | O => match n with O => [[]] | S _ => [] end
  | S k' =>
      match n with
      | O => [[]]
      | S _ =>
          flat_map
            (fun j => map (cons j) (parts_le k' (n - j) j))
            (rev (seq 1 (Nat.min n m)))
      end
  end.

(** Modelled from the spec: [Partitions(n)], the partitions of
    weight [n], in the order in which the partition library lists
    them. *)
Definition Partitions (n : nat) : list partition := parts_le n n n.


(** The parts are weakly decreasing. *)
Fixpoint weakly_decreasing (p : partition) : bool :=
  match p with
  | a :: rest =>
      match rest with
      | b :: _ => (b <=? a) && weakly_decreasing rest
      | [] => true
      end
  | [] => true
  end.

End Partition.
Import Partition.

(* ================================================================== *)
(** ** The structural scalars [c1] and [c2] *)

Section Scalars.
Context `{ScalarField}.

(** [sum(l, [])] of the source: the rows of a tableau, flattened. *)
Definition flatten (l : list (list nat)) : list nat := concat l.

(** [c1(part, q, t)]: the loop runs over [range(part.size())] and
    reads the [i]-th entries of the flattened arm and leg tableaux. *)
Definition c1 (part : partition) (q t : F) : F :=
  fold_left
    (fun res i =>
       let a := nth i (flatten (arm_lengths part)) 0 in
       let l := nth i (flatten (leg_lengths part)) 0 in
       (res * (1 - q ^ (a + 1)%nat * t ^ l))%F)
    (seq 0 (size part)) 1%F.

(** [c2(part, q, t)]. *)
Definition c2 (part : partition) (q t : F) : F :=
  fold_left
    (fun res i =>
       let a := nth i (flatten (arm_lengths part)) 0 in
       let l := nth i (flatten (leg_lengths part)) 0 in
       (res * (1 - q ^ a * t ^ (l + 1)%nat))%F)
    (seq 0 (size part)) 1%F.

(** The parameters are generic when no monomial [q^a * t^b] other
    than the trivial one is 1, as for the generators [q] and [t] of
    the fraction field. *)
Definition generic_parameters (q t : F) : Prop :=
  forall a b : nat, 0 < a + b -> (q ^ a * t ^ b)%F <> 1%F.

End Scalars.

(* ================================================================== *)
(** ** Elements of a basis *)

(** The tags of the bases: the six Macdonald classes of the file and
    the classical bases of [sfa] they are coerced to and from. *)
Inductive basis : Type :=
| McdP | McdQ | McdJ | McdH | McdHt | McdS
| SFASchur | SFAPower | SFAHomogeneous.

#[export] Instance basis_eq_dec : EqDecision basis.
Proof. solve_decision. Defined.

(** [_monomial_coefficients]: a dictionary from partitions to
    coefficients, none of them zero. *)
Abbreviation coeffs_t := (gmap partition F).

Section Elements.
Context `{ScalarField}.

(** [x.coefficient(m)]. *)
Definition coefficient (x : coeffs_t) (m : partition) : F :=
  default 0%F (x !! m).

(** [_from_dict(d)]: zero coefficients are removed. *)
Definition from_dict (d : coeffs_t) : coeffs_t :=
  omap (fun c => if decide (c = 0%F) then None else Some c) d.

(** [B(part)], the basis element indexed by [part]. *)
Definition basis_elt (m : partition) : coeffs_t := {[ m := 1%F ]}.

(** [c * B(part)]: the dictionary is empty when [c] is zero. *)
Definition term (m : partition) (c : F) : coeffs_t :=
  if decide (c = 0%F) then ∅ else {[ m := c ]}.

(** Addition of elements. *)
Definition elt_add (x y : coeffs_t) : coeffs_t :=
  union_with
    (fun a b => if decide ((a + b)%F = 0%F) then None else Some (a + b)%F)
    x y.

(** [c * x] for a scalar [c]. *)
Definition elt_scal (c : F) (x : coeffs_t) : coeffs_t :=
  omap (fun a => if decide ((c * a)%F = 0%F) then None else Some (c * a)%F) x.

(** [sum(l)] of elements, starting from zero. *)
Definition elt_sum (l : list coeffs_t) : coeffs_t :=
  fold_left elt_add l ∅.

(** The invariant of the dictionaries: no zero coefficient is kept. *)
Definition canonical (x : coeffs_t) : Prop :=
  forall m, x !! m <> Some 0%F.

(** Every partition that the element has a term for has the
    property [Q]. *)
Definition supported (Q : partition -> Prop) (x : coeffs_t) : Prop :=
  forall m c, x !! m = Some c -> Q m.

(** The sum of [g m c] over the terms [c * B(m)] of an element. *)
Definition msum (g : partition -> F -> F) (x : coeffs_t) : F :=
  map_fold (fun m c acc => (acc + g m c)%F) 0%F x.

(** The pairing that is [fv] on equal indices and zero on different
    ones, as a sum over the terms of the first element. *)
Definition gram (fv : partition -> F) (x y : coeffs_t) : F :=
  msum (fun m c => (c * coefficient y m * fv m)%F) x.

(** [x.map_coefficients(f)]. *)
Definition map_coefficients (f : F -> F) (x : coeffs_t) : coeffs_t :=
  from_dict (f <$> x).

(** Modelled from the spec: [_apply_module_morphism(x, f)] of [sfa],
    the linear extension of a map [f] given on the basis:
    [res = 0; for m, c in x: res += c*f(m)]. *)
Definition apply_module_morphism (x : coeffs_t) (f : partition -> coeffs_t)
  : coeffs_t :=
  map_fold (fun m c res => elt_add res (elt_scal c (f m))) ∅ x.

(** The same loop when [f] may raise: the first exception ends it. *)
Definition apply_module_morphism_r
    (x : coeffs_t) (f : partition -> result coeffs_t) : result coeffs_t :=
  map_fold
    (fun m c res =>
       do r <- res;
       do y <- f m;
       Ok (elt_add r (elt_scal c y)))
    (Ok ∅) x.

(** Modelled from the spec: [_apply_multi_module_morphism(x, y, f,
    orthogonal=True)] of [sfa], the bilinear pairing that is [f] on
    equal basis indices and zero on different ones:
    [res = 0; for mx, cx in x: if mx in y: res += cx*y[mx]*f(mx, mx)]. *)
Definition apply_multi_module_morphism
    (x y : coeffs_t) (f : partition -> partition -> result F) : result F :=
  map_fold
    (fun mx cx res =>
       match y !! mx with
       | None => res
       | Some cy =>
           do r <- res;
           do v <- f mx mx;
           Ok (r + cx * cy * v)%F
       end)
    (Ok 0%F) x.

(** [a / b] of the source: division by zero raises. *)
Definition div_r (a b : F) : result F :=
  if decide (b = 0%F) then Raise ZeroDivisionError else Ok (a / b)%F.

(** A parent: the class of the basis and the parameters [self.q] and
    [self.t] it was built with. *)
Record parent_t : Type := Parent {
  tag : basis;
  param_q : F;
  param_t : F
}.

(** An element knows its parent. *)
Record element : Type := Element {
  parent : parent_t;
  coeffs : coeffs_t
}.

(** [isinstance(x, MacdonaldPolynomials_b.Element)]. *)
Definition isinstance (x : element) (b : basis) : bool :=
  bool_decide (tag (parent x) = b).

(** Modelled from the spec: [Partition.centralizer_size(t=t, q=q)],
    the size of the centraliser of a permutation of cycle type [p],
    the product over part sizes [i] of [i^(m_i) * m_i!], scaled by
    [(1 - q^k)/(1 - t^k)] for every part [k]. *)
Definition zee (p : partition) : nat :=
  fold_left Nat.mul
    (map (fun i => i ^ count_occ Nat.eq_dec p i * fact (count_occ Nat.eq_dec p i))
         (seq 1 (hd 0 p)))
    1.

Definition centralizer_size (p : partition) (t q : F) : result F :=
  fold_left
    (fun res k => do r <- res;
                  do v <- div_r (1 - q ^ k)%F (1 - t ^ k)%F;
                  Ok (r * v)%F)
    p (Ok (of_nat (zee p))).

End Elements.

(* ================================================================== *)
(** ** The qt-Hall scalar product *)

Section ScalarProduct.
Context `{ScalarField}.

(** [p(x)] for [p = sfa.SFAPower(base_ring)]: the coercion of an
    element of any basis into the power sums is found by the coercion
    framework; it is a parameter here. *)
Variable to_power : element -> result coeffs_t.

(** [MacdonaldPolynomials_generic.Element.scalar_qt]. *)
Definition scalar_qt_generic (self x : element) : result F :=
  let P := parent self in
  do p_self <- to_power self;
  do p_x <- to_power x;
  let f := fun part1 (part2 : partition) =>
             centralizer_size part1 (param_t P) (param_q P) in
  apply_multi_module_morphism p_self p_x f.

(** [MacdonaldPolynomials_p.scalar_qt_basis(part1, part2)]. *)
Definition scalar_qt_basis (P : parent_t) (part1 : partition)
    (part2 : option partition) : result F :=
  match part2 with
  | Some p2 =>
      if negb (bool_decide (part1 = p2)) then Ok 0%F
      else div_r (c1 part1 (param_q P) (param_t P))
                 (c2 part1 (param_q P) (param_t P))
  | None =>
      div_r (c1 part1 (param_q P) (param_t P))
            (c2 part1 (param_q P) (param_t P))
  end.

(** [MacdonaldPolynomials_q.Element.scalar_qt]. *)
Definition scalar_qt_q (self x : element) : result F :=
  if isinstance x McdP then
    let f := fun (part1 part2 : partition) => Ok 1%F in
    apply_multi_module_morphism (coeffs self) (coeffs x) f
  else scalar_qt_generic self x.

(** [MacdonaldPolynomials_p.Element.scalar_qt].  In the last branch
    the source evaluates [super(Element, self)]; the name [Element]
    is bound in the class body only, not in the scope of the method,
    so the lookup raises [NameError] before anything is computed. *)
Definition scalar_qt_p (self x : element) : result F :=
  if isinstance x McdP then
    let P := parent self in
    apply_multi_module_morphism (coeffs self) (coeffs x)
      (fun part1 part2 => scalar_qt_basis P part1 (Some part2))
  else if isinstance x McdQ then
    scalar_qt_q x self
  else Raise NameError.

(** [MacdonaldPolynomials_j.Element.scalar_qt].  In the last branch
    the source calls the bound method
    [super(MacdonaldPolynomials_j.Element, self).scalar_qt] with the
    two arguments [(self, x)]; the method takes one argument besides
    [self], so the call raises [TypeError]. *)
Definition scalar_qt_j (self x : element) : result F :=
  if isinstance x McdJ then
    let J := parent self in
    let f := fun part1 part2 =>
               Ok (c1 part1 (param_q J) (param_t J)
                   * c2 part2 (param_q J) (param_t J))%F in
    apply_multi_module_morphism (coeffs self) (coeffs x) f
  else Raise TypeError.

(** [self.scalar_qt(x)]: the method of the class of [self]. *)
Definition scalar_qt (self x : element) : result F :=
  match tag (parent self) with
  | McdP => scalar_qt_p self x
  | McdQ => scalar_qt_q self x
  | McdJ => scalar_qt_j self x
  | _ => scalar_qt_generic self x
  end.

End ScalarProduct.

(* ================================================================== *)
(** ** The nabla operator on the Ht basis *)

Section Nabla.
Context `{ScalarField}.

(** [MacdonaldPolynomials_ht.Element.nabla], for an element of the
    Ht basis with parameters [q] and [t]. *)
Definition nabla_ht (q t : F) (self : coeffs_t) : coeffs_t :=
  let f := fun part =>
             elt_scal (t ^ weighted_size part
                       * q ^ weighted_size (conjugate part))%F
                      (basis_elt part) in
  apply_module_morphism self f.

End Nabla.

(* ================================================================== *)
(** ** Construction of the bases *)

(** Rings and the values offered for [q] and [t] belong to the
    surrounding system; only membership, coercion and the extension by
    new variables are used by the constructors. *)
Class RingLibrary := {
  ring : Type;
  val : Type;
  ring_eq_dec : EqDecision ring;
  val_eq_dec : EqDecision val;
  (** [v in R]. *)
  contains : ring -> val -> bool;
  (** [R(v)]. *)
  coerce : ring -> val -> val;
  (** [R['q,t'].fraction_field()], [R['q'].fraction_field()] and
      [R['t'].fraction_field()]. *)
  frac_qt : ring -> ring;
  frac_q : ring -> ring;
  frac_t : ring -> ring;
  (** The generators called [q] and [t] of such a field. *)
  gen_q : ring -> val;
  gen_t : ring -> val;
  (** [str(v)], as used by ["%s" % v]. *)
  repr : val -> string;
  (** The rational field. *)
  QQ : ring;
  (** The generators of a field belong to it, the image of a value in
      a ring belongs to the ring, and a ring is contained in its
      extensions. *)
  contains_gen_q_qt : forall R, contains (frac_qt R) (gen_q (frac_qt R)) = true;
  contains_gen_t_qt : forall R, contains (frac_qt R) (gen_t (frac_qt R)) = true;
  contains_gen_q : forall R, contains (frac_q R) (gen_q (frac_q R)) = true;
  contains_gen_t : forall R, contains (frac_t R) (gen_t (frac_t R)) = true;
  contains_coerce : forall R v, contains R v = true -> contains R (coerce R v) = true;
  contains_frac_q : forall R v, contains R v = true -> contains (frac_q R) v = true;
  contains_frac_t : forall R v, contains R v = true -> contains (frac_t R) v = true
}.

#[export] Existing Instance ring_eq_dec.
#[export] Existing Instance val_eq_dec.

(** A small library for examples: the ring [n] holds the values up to
    [n], every extension is the next ring and its generator is its
    largest value. *)
Definition small_rings : RingLibrary := {|
  ring := nat;
  val := nat;
  ring_eq_dec := Nat.eq_dec;
  val_eq_dec := Nat.eq_dec;
  contains := fun R v => v <=? R;
  coerce := fun R v => v;
  frac_qt := S;
  frac_q := S;
  frac_t := S;
  gen_q := fun R => R;
  gen_t := fun R => R;
  repr := fun v => "n"%string;
  QQ := 0;
  contains_gen_q_qt := fun R => Nat.leb_refl (S R);
  contains_gen_t_qt := fun R => Nat.leb_refl (S R);
  contains_gen_q := fun R => Nat.leb_refl (S R);
  contains_gen_t := fun R => Nat.leb_refl (S R);
  contains_coerce := fun R v Hv => Hv;
  contains_frac_q := fun R v Hv =>
    proj2 (Nat.leb_le v (S R)) (Nat.le_le_succ_r v R (proj1 (Nat.leb_le v R) Hv));
  contains_frac_t := fun R v Hv =>
    proj2 (Nat.leb_le v (S R)) (Nat.le_le_succ_r v R (proj1 (Nat.leb_le v R) Hv))
|}.

Section Constructors.
Context `{RingLibrary}.

(** The structure-constant tables held in the module-level
    dictionaries [j_to_s_cache], [s_to_j_cache], ... *)
Variable table_store : Type.

(** A constructed basis. *)
Record instance : Type := Instance {
  i_tag : basis;
  i_name : string;
  i_prefix : string;
  i_base_ring : ring;
  i_q : val;
  i_t : val
}.

(** The key of an entry of a [Cache]: the arguments of the call. *)
Definition key : Type := (ring * option val * option val)%type.

(** The module-level state: the tables and the six instance caches
    [cache_p], ..., [cache_s]. *)
Record globals : Type := Globals {
  tables : table_store;
  instance_cache : basis -> list (key * instance)
}.

(** Computations on the module-level state. *)
Abbreviation M := (ST globals).

Fixpoint assoc (k : key) (l : list (key * instance)) : option instance :=
  match l with
  | [] => None
  | (k', x) :: l' => if decide (k = k') then Some x else assoc k l'
  end.

(** [c[k] = x] for the instance cache [c] of the basis [b]. *)
Definition cache_set (b : basis) (k : key) (x : instance) : M unit :=
  fun g =>
    (Ok tt,
     Globals (tables g)
       (fun b' => if decide (b' = b) then (k, x) :: instance_cache g b'
                  else instance_cache g b')).

(** Modelled from the spec: a call [c(R, q, t)] of a [Cache] of
    [sage.misc.cache], one object per set of parameters: a stored
    instance is returned, otherwise the factory is run and its
    result stored. *)
Definition cache_call (b : basis)
    (factory : ring -> option val -> option val -> M instance)
    (R : ring) (q t : option val) : M instance :=
  fun g =>
    match assoc (R, q, t) (instance_cache g b) with
    | Some x => (Ok x, g)
    | None => (run x <- factory R q t ;
               run u <- cache_set b (R, q, t) x ;
               ret x) g
    end.

(** [_set_cache(c, self)]: the other ways of naming the same basis
    all lead to the key made of its base ring and its [q] and [t]. *)
Definition _set_cache (b : basis) (self : instance) : M unit :=
  cache_set b (i_base_ring self, Some (i_q self), Some (i_t self)) self.

(** [MacdonaldPolynomials_generic.__init__(self, R, q, t)], for a
    [self] whose [_name] and [_prefix] are already set. *)
Definition generic_init (b : basis) (name prefix : string)
    (R : ring) (q t : option val) : M instance :=
  match q, t with
  | None, None =>
      let R' := frac_qt R in
      ret (Instance b name prefix R' (gen_q R') (gen_t R'))
  | None, Some t =>
      if negb (contains R t) then raise ValueError
      else
        let self_t := coerce R t in
        let name' := (name ++ " with t=" ++ repr self_t)%string in
        let R' := frac_q R in
        ret (Instance b name' prefix R' (gen_q R') self_t)
  | Some q, None =>
      if negb (contains R q) then raise ValueError
      else
        let self_q := coerce R q in
        let name' := (name ++ " with q=" ++ repr self_q)%string in
        let R' := frac_t R in
        ret (Instance b name' prefix R' self_q (gen_t R'))
  | Some q, Some t =>
      if negb (contains R t) || negb (contains R q) then raise ValueError
      else
        let self_q := coerce R q in
        let self_t := coerce R t in
        let name' := (name ++ " with q=" ++ repr self_q
                           ++ " and t=" ++ repr self_t)%string in
        ret (Instance b name' prefix R self_q self_t)
  end.

(** [MacdonaldPolynomials_s.__init__]. *)
Definition MacdonaldPolynomials_s (R : ring) (q t : option val) : M instance :=
  run self <- generic_init McdS "Macdonald polynomials in the S basis" "McdS" R q t ;
  run u <- _set_cache McdS self ;
  ret self.

Definition MacdonaldPolynomialsS := cache_call McdS MacdonaldPolynomials_s.

(** [MacdonaldPolynomials_j.__init__]. *)
Definition MacdonaldPolynomials_j (R : ring) (q t : option val) : M instance :=
  run self <- generic_init McdJ "Macdonald polynomials in the J basis" "McdJ" R q t ;
  run _S <- MacdonaldPolynomialsS QQ None None ;
  run u <- _set_cache McdJ self ;
  ret self.

Definition MacdonaldPolynomialsJ := cache_call McdJ MacdonaldPolynomials_j.

(** [MacdonaldPolynomials_p.__init__]. *)
Definition MacdonaldPolynomials_p (R : ring) (q t : option val) : M instance :=
  run self <- generic_init McdP "Macdonald polynomials in the P basis" "McdP" R q t ;
  run u <- _set_cache McdP self ;
  run _J <- MacdonaldPolynomialsJ R q t ;
  ret self.

Definition MacdonaldPolynomialsP := cache_call McdP MacdonaldPolynomials_p.

(** [MacdonaldPolynomials_q.__init__]. *)
Definition MacdonaldPolynomials_q (R : ring) (q t : option val) : M instance :=
  run self <- generic_init McdQ "Macdonald polynomials in the Q basis" "McdQ" R q t ;
  run _J <- MacdonaldPolynomialsJ (i_base_ring self) (Some (i_q self)) (Some (i_t self)) ;
  run _P <- MacdonaldPolynomialsP (i_base_ring self) (Some (i_q self)) (Some (i_t self)) ;
  run u <- _set_cache McdQ self ;
  ret self.

Definition MacdonaldPolynomialsQ := cache_call McdQ MacdonaldPolynomials_q.

(** [MacdonaldPolynomials_ht.__init__]. *)
Definition MacdonaldPolynomials_ht (R : ring) (q t : option val) : M instance :=
  run self <- generic_init McdHt "Macdonald polynomials in the Ht basis" "McdHt" R q t ;
  run _J <- MacdonaldPolynomialsJ (i_base_ring self) (Some (i_q self)) (Some (i_t self)) ;
  run u <- _set_cache McdHt self ;
  ret self.

Definition MacdonaldPolynomialsHt := cache_call McdHt MacdonaldPolynomials_ht.

(** [MacdonaldPolynomials_h.__init__]. *)
Definition MacdonaldPolynomials_h (R : ring) (q t : option val) : M instance :=
  run self <- generic_init McdH "Macdonald polynomials in the H basis" "McdH" R q t ;
  run _Ht <- MacdonaldPolynomialsHt QQ None None ;
  run u <- _set_cache McdH self ;
  ret self.

Definition MacdonaldPolynomialsH := cache_call McdH MacdonaldPolynomials_h.

(** The class constructor of each of the six Macdonald bases. *)
Definition constructor (b : basis) : ring -> option val -> option val -> M instance :=
  match b with
  | McdP => MacdonaldPolynomials_p
  | McdQ => MacdonaldPolynomials_q
  | McdJ => MacdonaldPolynomials_j
  | McdH => MacdonaldPolynomials_h
  | McdHt => MacdonaldPolynomials_ht
  | _ => MacdonaldPolynomials_s
  end.

Definition is_macdonald (b : basis) : bool :=
  match b with
  | McdP | McdQ | McdJ | McdH | McdHt | McdS => true
  | _ => false
  end.

(** Every value offered for [q] or [t] lies in [R]. *)
Definition supplied_in (R : ring) (q t : option val) : bool :=
  from_option (contains R) true q && from_option (contains R) true t.

(** [self.q] and [self.t] are the images in [R] of the values
    offered. *)
Definition specialised (R : ring) (q t : option val) (self : instance) : Prop :=
  (forall v, q = Some v -> i_q self = coerce R v)
  /\ (forall v, t = Some v -> i_t self = coerce R v).

(** The public function of each of the six Macdonald bases: the call
    of the instance cache of its class. *)
Definition cached_constructor (b : basis)
  : ring -> option val -> option val -> M instance :=
  match b with
  | McdP => MacdonaldPolynomialsP
  | McdQ => MacdonaldPolynomialsQ
  | McdJ => MacdonaldPolynomialsJ
  | McdH => MacdonaldPolynomialsH
  | McdHt => MacdonaldPolynomialsHt
  | _ => MacdonaldPolynomialsS
  end.

(** The bases that the construction of [b] constructs: [b] itself
    and the ones its [__init__] asks for, and theirs. *)
Definition built_with (b : basis) : list basis :=
  match b with
  | McdP => [McdP; McdJ; McdS]
  | McdQ => [McdQ; McdJ; McdP; McdS]
  | McdJ => [McdJ; McdS]
  | McdH => [McdH; McdHt; McdJ; McdS]
  | McdHt => [McdHt; McdJ; McdS]
  | _ => [McdS]
  end.

(** The computation, whether it returns or raises, leaves the tables
    as they are and writes no instance cache but those of the bases
    in [bs]. *)
Definition writes_only {A : Type} (bs : list basis) (m : M A) : Prop :=
  forall g r g',
    m g = (r, g') ->
    tables g' = tables g
    /\ forall b, b ∉ bs -> instance_cache g' b = instance_cache g b.

(** The state in which the computation returns holds, in the
    instance cache of [b], the basis it returns under the key made
    of the base ring, the [q] and the [t] of that basis. *)
Definition sets_alias (b : basis) (m : M instance) : Prop :=
  forall g self g1,
    m g = (Ok self, g1) ->
    assoc (i_base_ring self, Some (i_q self), Some (i_t self))
          (instance_cache g1 b) = Some self
    /\ i_tag self = b.

(** The computation returns, whatever the state, a value with the
    property [P], and leaves the tables as they are. *)
Definition returns {A : Type} (m : M A) (P : A -> Prop) : Prop :=
  forall g, exists a g', m g = (Ok a, g') /\ tables g' = tables g /\ P a.

End Constructors.

(* ================================================================== *)
(** ** The classical bases: power sums, Schur and homogeneous functions *)

Section Classical.
Context `{ScalarField}.

(** The image of an integer in the field. *)
Definition of_Z (z : Z) : F :=
  match z with
  | Z0 => 0%F
  | Zpos p => of_nat (Pos.to_nat p)
  | Zneg p => (- of_nat (Pos.to_nat p))%F
  end.

(** The element [sum of c * B(m)] over a list of terms [(m, c)]. *)
Definition sum_of_terms (l : list (partition * F)) : coeffs_t :=
  fold_left (fun acc mc => elt_add acc (elt_scal mc.2 (basis_elt mc.1))) l ∅.

(** [x.map_item(f)] for an [f] that keeps the index and changes the
    coefficient. *)
Definition map_item (f : partition -> F -> F) (x : coeffs_t) : coeffs_t :=
  from_dict (map_imap (fun m c => Some (f m c)) x).

(** Insertion into a list sorted in decreasing order. *)
Fixpoint insert_desc (x : nat) (l : list nat) : list nat :=
  match l with
  | [] => [x]
  | y :: l' => if y <? x then x :: l else y :: insert_desc x l'
  end.

(** The first-column hook lengths of a partition. *)
Definition beta (lam : partition) : list nat :=
  imap (fun i x => x + (length lam - 1 - i)) lam.

(** The ways of removing a border strip of [r] cells, with the sign
    of each: a first-column hook length [b] is moved to the free
    place [b - r], passing over the ones in between. *)
Definition remove_hooks (r : nat) (B : list nat) : list (Z * list nat) :=
  flat_map
    (fun b =>
       if (r <=? b) && negb (existsb (Nat.eqb (b - r)) B)
       then
         let passed := length (List.filter (fun c => (b - r <? c) && (c <? b)) B) in
         [ (((-1) ^ Z.of_nat passed)%Z,
            insert_desc (b - r) (List.filter (fun c => negb (c =? b)) B)) ]
       else [])
    B.

Fixpoint chi_beta (B : list nat) (mu : partition) : Z :=
  match mu with
  | [] => if decide (B = rev (seq 0 (length B))) then 1%Z else 0%Z
  | r :: mu' =>
      fold_left Z.add
        (map (fun sb => (sb.1 * chi_beta sb.2 mu')%Z) (remove_hooks r B)) 0%Z
  end.

(** Modelled from the spec: the change of basis between the Schur
    functions and the power sums is supplied by [sfa]; its entries
    are the values of the irreducible characters of the symmetric
    group, computed here by removing border strips. *)
Definition character (lam mu : partition) : Z := chi_beta (beta lam) mu.

(** [p(s(lam))]. *)
Definition s_to_p_basis (lam : partition) : coeffs_t :=
  sum_of_terms
    (map (fun mu => (mu, (of_Z (character lam mu) / of_nat (zee mu))%F))
         (Partitions (size lam))).

(** [s(p(mu))]. *)
Definition p_to_s_basis (mu : partition) : coeffs_t :=
  sum_of_terms
    (map (fun lam => (lam, of_Z (character lam mu))) (Partitions (size mu))).

Definition s_to_p (x : coeffs_t) : coeffs_t :=
  apply_module_morphism x s_to_p_basis.

Definition p_to_s (x : coeffs_t) : coeffs_t :=
  apply_module_morphism x p_to_s_basis.

(** The product of the homogeneous functions: [h(a) * h(b)] is the
    [h] of the parts of [a] and [b] together. *)
Definition merge_parts (a b : partition) : partition :=
  fold_right insert_desc b a.

Definition h_mul (x y : coeffs_t) : coeffs_t :=
  apply_module_morphism x
    (fun a => apply_module_morphism y (fun b => basis_elt (merge_parts a b))).

Definition remove_nth {A : Type} (j : nat) (l : list A) : list A :=
  take j l ++ drop (S j) l.

(** Modelled from the spec: [M.det()] for a square matrix [M] over
    the homogeneous symmetric functions, by expansion along the
    first row. *)
Fixpoint det_h (n : nat) (M : list (list coeffs_t)) : coeffs_t :=
  match n, M with
  | S n', row :: rows =>
      elt_sum
        (imap (fun j a =>
                 elt_scal (if Nat.even j then 1%F else (- (1))%F)
                          (h_mul a (det_h n' (map (remove_nth j) rows))))
              row)
  | _, _ => basis_elt []
  end.

(** The partitions obtained from [lam] by adding a horizontal strip
    of [k] cells; [bound] is the length of the row above in [lam]. *)
Fixpoint hstrips (bound : option nat) (lam : partition) (k : nat)
  : list partition :=
  match lam with
  | [] =>
      match k with
      | O => [[]]
      | S _ => if from_option (fun b => k <=? b) true bound then [[k]] else []
      end
  | x :: rest =>
      flat_map
        (fun a =>
           if from_option (fun b => x + a <=? b) true bound
           then map (cons (x + a)) (hstrips (Some x) rest (k - a))
           else [])
        (seq 0 (S k))
  end.

(** [s(lam) * h([k])], by the Pieri rule. *)
Definition pieri (x : coeffs_t) (k : nat) : coeffs_t :=
  apply_module_morphism x
    (fun lam => elt_sum (map basis_elt (hstrips None lam k))).

(** Modelled from the spec: the change of basis from the
    homogeneous functions to the Schur functions is supplied by
    [sfa]; [h(mu)] is the product of the [h([k])] for the parts [k]
    of [mu]. *)
Definition h_to_s (x : coeffs_t) : coeffs_t :=
  apply_module_morphism x (fun mu => fold_left pieri mu (basis_elt [])).

End Classical.

(* ================================================================== *)
(** ** Inversion of a change of basis *)

Abbreviation matrix := (list (list F)).

(** A structure-constant table of one degree: for each partition the
    expansion of its basis element in the other basis. *)
Abbreviation table := (gmap partition coeffs_t).

Section Inversion.
Context `{ScalarField}.

Definition lsum (l : list F) : F := fold_right fadd 0%F l.

Definition dot (u v : list F) : F := lsum (zip_with fmul u v).

Definition column (k : nat) (B : matrix) : list F :=
  map (fun row => nth k row 0%F) B.

Definition mat_mul (n : nat) (A B : matrix) : matrix :=
  map (fun row => map (fun k => dot row (column k B)) (seq 0 n)) A.

Definition identity (n : nat) : matrix :=
  map (fun i => map (fun j => if decide (i = j) then 1%F else 0%F) (seq 0 n))
      (seq 0 n).

Definition scale_row (c : F) (r : list F) : list F := map (fmul c) r.

(** [r - c * p]. *)
Definition sub_row (r p : list F) (c : F) : list F :=
  zip_with (fun a b => (a - c * b)%F) r p.

(** The first row with a non-zero entry in column [c], and the
    other rows. *)
Fixpoint find_pivot (c : nat) (rows : matrix) : option (list F * matrix) :=
  match rows with
  | [] => None
  | r :: rs =>
      if decide (nth c r 0%F = 0%F) then
        match find_pivot c rs with
        | Some (p, rest) => Some (p, r :: rest)
        | None => None
        end
      else Some (r, rs)
  end.

(** Gauss-Jordan elimination on the rows that are not reduced yet. *)
Fixpoint gauss_jordan (cols : list nat) (reduced todo : matrix)
  : option matrix :=
  match cols with
  | [] => Some reduced
  | c :: cs =>
      match find_pivot c todo with
      | None => None
      | Some (p, rest) =>
          let p' := scale_row (1 / nth c p 0)%F p in
          let elim := fun r => sub_row r p' (nth c r 0%F) in
          gauss_jordan cs (map elim reduced ++ [p']) (map elim rest)
      end
  end.

(** Modelled from the spec: [~M], the inverse of a square matrix
    over the field, supplied by the matrix library; it exists or the
    inversion fails.  The candidate found by elimination on
    [(M | 1)] is multiplied back with [M] before it is returned. *)
Definition matrix_inverse (A : matrix) : option matrix :=
  let n := length A in
  match gauss_jordan (seq 0 n) [] (zip_with app A (identity n)) with
  | None => None
  | Some rows =>
      let B := map (drop n) rows in
      if decide (mat_mul n A B = identity n /\ mat_mul n B A = identity n)
      then Some B else None
  end.

(** The dictionary of the non-zero entries of a row. *)
Definition sparse_row (pn : list partition) (row : list F) : coeffs_t :=
  list_to_map (List.filter (fun mc => negb (bool_decide (mc.2 = 0%F))) (zip pn row)).

(** The cache of one degree: a dictionary of sparse rows. *)
Definition table_of_matrix (pn : list partition) (M : matrix) : table :=
  list_to_map (zip pn (map (sparse_row pn) M)).

(** The entry of a table in the row of [lam] and the column of [mu]. *)
Definition entry (T : table) (lam mu : partition) : F :=
  coefficient (default ∅ (T !! lam)) mu.

(** [x] is homogeneous of degree [n]: its terms are partitions of [n]. *)
Definition homogeneous (n : nat) (x : coeffs_t) : Prop :=
  forall m c, x !! m = Some c -> In m (Partitions n).



(** The two module-level dictionaries of a basis,
    [self._self_to_s_cache] and [self._s_to_self_cache], by degree. *)
Record caches : Type := Caches {
  self_to_s_cache : gmap nat table;
  s_to_self_cache : gmap nat table
}.

Fixpoint mapM_r {A B : Type} (f : A -> result B) (l : list A) : result (list B) :=
  match l with
  | [] => Ok []
  | a :: l' => do b <- f a; do bs <- mapM_r f l'; Ok (b :: bs)
  end.

(** Modelled from the spec: [_invert_morphism(n, base_ring,
    self_to_other_cache, other_to_self_cache, to_other_function)] of
    [sfa], without a triangularity flag: the table of degree [n] of
    the known direction is filled from [to_other_function], its
    matrix is inverted and the inverse fills the table of the other
    direction.  Nothing is done when both tables are there. *)
Definition _invert_morphism (n : nat)
    (to_other_function : partition -> result (partition -> F))
    (c : caches) : result caches :=
  if decide (is_Some (self_to_s_cache c !! n)
             /\ is_Some (s_to_self_cache c !! n))
  then Ok c
  else
    let pn := Partitions n in
    do known_matrix_n <-
      mapM_r (fun pi => do f <- to_other_function pi; Ok (map f pn)) pn;
    match matrix_inverse known_matrix_n with
    | None => Raise ZeroDivisionError
    | Some inverse =>
        Ok (Caches
              (<[n := table_of_matrix pn known_matrix_n]> (self_to_s_cache c))
              (<[n := table_of_matrix pn inverse]> (s_to_self_cache c)))
    end.

(** Modelled from the spec: [_from_cache(element, cache_function,
    cache_dict, q = .., t = ..)] of [sfa]: every term of the element
    is expanded by its row of the table of its degree, which
    [cache_function] computes when it is missing, and every entry
    [c2] of the row is read through the substitution [subs_dict] of
    the two keyword arguments, as [c2.subs(q = .., t = ..)]. *)
Definition _from_cache (element : coeffs_t)
    (cache_function : nat -> ST caches unit)
    (cache_dict : caches -> gmap nat table)
    (subs_dict : F -> result F) : ST caches coeffs_t :=
  run z_elt <-
    map_fold
      (fun part c acc =>
         run z <- acc;
         run u <- (fun st =>
                     if decide (is_Some (cache_dict st !! size part))
                     then (Ok tt, st)
                     else cache_function (size part) st);
         run row <- (fun st =>
                       (match cache_dict st !! size part with
                        | Some tbl =>
                            match tbl !! part with
                            | Some row => Ok row
                            | None => Raise KeyError
                            end
                        | None => Raise KeyError
                        end, st));
         lift (map_fold
                 (fun part2 c2 res =>
                    do z' <- res;
                    do c3 <- subs_dict c2;
                    Ok (<[part2 := (default 0 (z' !! part2) + c * c3)%F]> z'))
                 (Ok z) row))
      (ret ∅) element;
  ret (from_dict z_elt).

(** The bases defined by an expansion rule [_to_s] into the Schur
    functions. *)
Section WithToS.
Context `{!Substitution}.
Variable _to_s : partition -> result (partition -> F).

(** [self._s_cache(n)]. *)
Definition _s_cache (n : nat) : ST caches unit :=
  fun c =>
    match _invert_morphism n _to_s c with
    | Ok c' => (Ok tt, c')
    | Raise e => (Raise e, c)
    end.

(** The table holds a row for each partition of [n], and every row
    holds the values of the expansion rule on the partitions of [n]. *)
Definition table_of_rule (n : nat) (T : table) : Prop :=
  (forall lam, lam ∈ Partitions n -> is_Some (T !! lam))
  /\ (forall lam row,
         T !! lam = Some row ->
         exists f, _to_s lam = Ok f
                   /\ forall mu, mu ∈ Partitions n -> coefficient row mu = f mu).

(** [self._self_to_s(x)], for a basis with the parameters
    [self.q = q] and [self.t = t]. *)
Definition _self_to_s (q t : F) (x : coeffs_t) : ST caches coeffs_t :=
  _from_cache x _s_cache self_to_s_cache (subs q t).

(** [self._s_to_self(x)]. *)
Definition _s_to_self (q t : F) (x : coeffs_t) : ST caches coeffs_t :=
  _from_cache x _s_cache s_to_self_cache (subs q t).

(** [[(1-q**i)/(1-t**i) for i in part]] and its product. *)
Definition omega_factor (q t : F) (part : partition) : result F :=
  fold_left
    (fun res i => do r <- res;
                  do v <- div_r (1 - q ^ i)%F (1 - t ^ i)%F;
                  Ok (r * v)%F)
    part (Ok 1%F).

(** [MacdonaldPolynomials_generic.Element.omega_qt], for an element
    of a basis that is coerced to the power sums through the Schur
    functions. *)
Definition omega_qt_generic (q t : F) (self : coeffs_t) : ST caches coeffs_t :=
  run s_self <- _self_to_s q t self;
  let p_self := s_to_p s_self in
  let f := fun part =>
             do c <- omega_factor q t part;
             Ok (elt_scal ((- (1)) ^ (size part - length part) * c)%F
                          (basis_elt part)) in
  run image <- lift (apply_module_morphism_r p_self f);
  _s_to_self q t (p_to_s image).

End WithToS.

End Inversion.

(* ================================================================== *)
(** ** The S basis and its creation operators; the J basis *)

Section SBasis.
Context `{ScalarField} `{!Substitution}.

(** [MacdonaldPolynomials_s._to_s(part)]. *)
Definition S_to_s (t : F) (part : partition) : result (partition -> F) :=
  let p_x := s_to_p (basis_elt part) in
  let f := fun m c => (c * fprod (map (fun k => 1 - t ^ k) m))%F in
  let res := p_to_s (map_item f p_x) in
  Ok (coefficient res).

(** The caches of the S basis with parameter [t] once the tables of
    degree 1 are computed. *)
Definition S_caches_degree_one (t : F) : caches :=
  Caches (<[1 := table_of_matrix (Partitions 1) [[(1 - t)%F]]]> ∅)
         (<[1 := table_of_matrix (Partitions 1) [[(1 / (1 - t) * 1)%F]]]> ∅).

(** [MacdonaldPolynomials_s.Element._omega_qt_in_schurs]. *)
Definition _omega_qt_in_schurs (self : coeffs_t) : coeffs_t :=
  apply_module_morphism self (fun part => basis_elt (conjugate part)).

(** [MacdonaldPolynomials_s.Element.omega_qt], for an element of
    the S basis with the parameters [q] and [t]. *)
Definition omega_qt_s (q t : F) (self : coeffs_t) : ST caches coeffs_t :=
  _s_to_self (S_to_s t) q t (_omega_qt_in_schurs self).

(** The row [i] of the matrix [m] of
    [_creation_by_determinant_helper], where [part[i]] is [pi]. *)
Definition creation_row (q t : F) (k i pi : nat) : list coeffs_t :=
  let pi := Z.of_nat pi in
  let lo := Z.to_nat (Z.max 0 (Z.of_nat i + 1 - 2 - pi)) in
  replicate lo ∅ ++
  map (fun j =>
         let value := (pi + Z.of_nat j - Z.of_nat i + 1)%Z in
         let p := if (0 <? value)%Z then [Z.to_nat value] else [] in
         elt_scal (1 - q ^ Z.to_nat value * t ^ (k - (j + 1)))%F
                  (basis_elt p))
      (seq lo (k - lo)).

(** The matrix [m] of [_creation_by_determinant_helper]: the loop
    [for i in range(k)] reads [part[i]], and reading past the end of
    the list raises [IndexError]. *)
Definition creation_matrix (q t : F) (k : nat) (part : list nat)
  : result (list (list coeffs_t)) :=
  mapM_r (fun i =>
            match part !! i with
            | Some pi => Ok (creation_row q t k i pi)
            | None => Raise IndexError
            end)
         (seq 0 k).

(** [MacdonaldPolynomials_s.Element._creation_by_determinant_helper(k, part)].
    The determinant is converted to the Schur functions and its
    coefficients are read in the S basis. *)
Definition _creation_by_determinant_helper (q t : F) (k : nat)
    (part : list nat) : result coeffs_t :=
  let part := part ++ replicate (k - length part) 0 in
  if k <? length part then Raise ValueError
  else
    do m <- creation_matrix q t k part;
    let res := det_h k m in
    let res := h_to_s res in
    Ok res.

(** [MacdonaldPolynomials_s.Element._creation_by_determinant(k)]. *)
Definition _creation_by_determinant (q t : F) (self : coeffs_t) (k : nat)
  : result coeffs_t :=
  apply_module_morphism_r self (_creation_by_determinant_helper q t k).

(** [part] padded with zeros up to the length [k]. *)
Definition padded (k : nat) (part : list nat) : list nat :=
  part ++ replicate (k - length part) 0.

(** Some partition of the support of [x] has more than [k] parts. *)
Definition too_long (k : nat) (x : coeffs_t) : bool :=
  bool_decide (map_Exists (fun part _ => k < length part) x).

(** [MacdonaldPolynomials_s.Element.creation(k)]. *)
Definition creation (q t : F) (self : coeffs_t) (k : nat) : result coeffs_t :=
  _creation_by_determinant q t self k.

(** [MacdonaldPolynomials_j._to_s(part)].  The creation operators
    are applied in the generic S basis and the coefficients [c] of
    the result are replaced by [c(t, q)]: they are the coefficients
    computed with the two parameters exchanged. *)
Definition J_to_s (q t : F) (part : partition) : result (partition -> F) :=
  do res <- fold_left (fun res k => do r <- res; creation t q r k)
                      (rev part) (Ok (basis_elt []));
  let res := _omega_qt_in_schurs res in
  Ok (coefficient res).

End SBasis.

(* ================================================================== *)
(** ** The proportional bases P, Q and J *)

Section Proportional.
Context `{ScalarField}.

(** Modelled from the spec: [module_morphism(diagonal = d)], the
    module map that multiplies the basis element of each partition
    by the scalar [d] of that partition. *)
Definition module_morphism_diagonal (d : partition -> result F)
    (x : coeffs_t) : result coeffs_t :=
  apply_module_morphism_r x
    (fun m => do c <- d m; Ok (elt_scal c (basis_elt m))).

(** The element with every coefficient multiplied by the scalar [d]
    of its partition. *)
Definition scale_by (d : partition -> F) (x : coeffs_t) : coeffs_t :=
  apply_module_morphism x (fun m => elt_scal (d m) (basis_elt m)).

(** [~phi] for such a map: the diagonal is inverted pointwise. *)
Definition pointwise_inverse (d : partition -> result F)
  : partition -> result F :=
  fun m => do c <- d m; div_r 1%F c.

(** [phi] of [MacdonaldPolynomials_p.__init__], from J to P, and
    its inverse, registered as the coercion from P to J. *)
Definition J_to_P (q t : F) : coeffs_t -> result coeffs_t :=
  module_morphism_diagonal (fun m => Ok (c2 m q t)).

Definition P_to_J (q t : F) : coeffs_t -> result coeffs_t :=
  module_morphism_diagonal (pointwise_inverse (fun m => Ok (c2 m q t))).

(** [phi] of [MacdonaldPolynomials_q.__init__], from P to Q, with
    diagonal [P.scalar_qt_basis], and its inverse. *)
Definition P_to_Q (q t : F) : coeffs_t -> result coeffs_t :=
  module_morphism_diagonal
    (fun m => scalar_qt_basis (Parent McdP q t) m None).

Definition Q_to_P (q t : F) : coeffs_t -> result coeffs_t :=
  module_morphism_diagonal
    (pointwise_inverse (fun m => scalar_qt_basis (Parent McdP q t) m None)).

(** The coercions between Q and J are found through P. *)
Definition J_to_Q (q t : F) (x : coeffs_t) : result coeffs_t :=
  do y <- J_to_P q t x; P_to_Q q t y.

Definition Q_to_J (q t : F) (x : coeffs_t) : result coeffs_t :=
  do y <- Q_to_P q t x; P_to_J q t y.

End Proportional.

(* ================================================================== *)
(** ** The qt-Kostka polynomials *)

Section Kostka.
Context `{ScalarField} `{!Substitution} `{RingLibrary}.

Variable table_store : Type.

(** [Partition(l)] of the partition library: the partition with the
    parts [l], or an exception when [l] is not one. *)
Variable Partition_of : list nat -> result partition.

(** The expansion rule [_to_s] of the H basis. *)
Variable H_to_s : partition -> result (partition -> F).

(** [c.numerator()] for a coefficient [c], read in the polynomial
    ring [R = QQ['q,t']]. *)
Variable numerator : F -> F.

(** The module-level state that [qt_kostka] reads and writes: the
    instance caches, the two tables of the H basis, and the
    dictionary [_qt_kostka_cache]. *)
Record kostka_state : Type := KostkaState {
  k_globals : globals table_store;
  k_caches : caches;
  _qt_kostka_cache : gmap (partition * partition) F
}.

Definition on_globals {A : Type} (m : ST (globals table_store) A)
  : ST kostka_state A :=
  fun st =>
    let (r, g) := m (k_globals st) in
    (r, KostkaState g (k_caches st) (_qt_kostka_cache st)).

Definition on_caches {A : Type} (m : ST caches A) : ST kostka_state A :=
  fun st =>
    let (r, c) := m (k_caches st) in
    (r, KostkaState (k_globals st) c (_qt_kostka_cache st)).

(** The inner loop: [for p1 in parts: _qt_kostka_cache[(p1,p2)] =
    R(res.coefficient(p1).numerator())]. *)
Definition kostka_store (parts : list partition) (p2 : partition)
    (res : coeffs_t) : ST kostka_state unit :=
  fun st =>
    (Ok tt,
     KostkaState (k_globals st) (k_caches st)
       (fold_left
          (fun c p1 => <[(p1, p2) := numerator (coefficient res p1)]> c)
          parts (_qt_kostka_cache st))).

(** The outer loop: [for p2 in parts: res = s(H(p2)); ...]. *)
Fixpoint kostka_fill (parts todo : list partition) : ST kostka_state unit :=
  match todo with
  | [] => ret tt
  | p2 :: todo' =>
      run res <- on_caches (_self_to_s H_to_s QQqt_q QQqt_t (basis_elt p2));
      run u <- kostka_store parts p2 res;
      kostka_fill parts todo'
  end.

(** [_qt_kostka_cache[(lam,mu)]]. *)
Definition kostka_lookup (lam mu : partition) : ST kostka_state F :=
  fun st =>
    match _qt_kostka_cache st !! (lam, mu) with
    | Some v => (Ok v, st)
    | None => (Raise KeyError, st)
    end.

(** [qt_kostka(lam, mu)]. *)
Definition qt_kostka (lam mu : list nat) : ST kostka_state F :=
  run lam <- lift (Partition_of lam);
  run mu <- lift (Partition_of mu);
  if negb (size lam =? size mu) then ret 0%F
  else
    fun st =>
      if decide (is_Some (_qt_kostka_cache st !! (lam, mu)))
      then kostka_lookup lam mu st
      else
        (run _H <- on_globals (MacdonaldPolynomialsH table_store QQ None None);
         let parts := Partitions (size mu) in
         run u <- kostka_fill parts parts;
         kostka_lookup lam mu) st.

End Kostka.

(* ================================================================== *)
(** ** The nabla operator on the other bases *)

Section GenericNabla.
Context `{ScalarField} `{!Substitution}.

(** The expansion rule of the basis of the element, and the one of
    the Ht basis. *)
Variable _to_s : partition -> result (partition -> F).
Variable Ht_to_s : partition -> result (partition -> F).

(** The tables of the basis of the element and the tables of the Ht
    basis. *)
Record nabla_state : Type := NablaState {
  own_caches : caches;
  ht_caches : caches
}.

Definition on_own {A : Type} (m : ST caches A) : ST nabla_state A :=
  fun st =>
    let (r, c) := m (own_caches st) in (r, NablaState c (ht_caches st)).

Definition on_ht {A : Type} (m : ST caches A) : ST nabla_state A :=
  fun st =>
    let (r, c) := m (ht_caches st) in (r, NablaState (own_caches st) c).

(** [Ht(x)] for an element [x] of the basis, and [parent(y)] for an
    element [y] of the Ht basis: the coercions go through the Schur
    functions.  The two bases have the same parameters [q] and [t]. *)
Definition to_Ht (q t : F) (x : coeffs_t) : ST nabla_state coeffs_t :=
  run s_x <- on_own (_self_to_s _to_s q t x);
  on_ht (_s_to_self Ht_to_s q t s_x).

Definition from_Ht (q t : F) (y : coeffs_t) : ST nabla_state coeffs_t :=
  run s_y <- on_ht (_self_to_s Ht_to_s q t y);
  on_own (_s_to_self _to_s q t s_y).

(** [MacdonaldPolynomials_generic.Element.nabla], for a basis with
    an expansion rule into the Schur functions.  The Ht basis that
    the method builds has the parameters of the parent; building it
    writes the instance caches only, which this state leaves out. *)
Definition nabla_generic (q t : F) (self : coeffs_t) : ST nabla_state coeffs_t :=
  run ht_self <- to_Ht q t self;
  from_Ht q t (nabla_ht q t ht_self).

End GenericNabla.

(* ================================================================== *)
(** * Properties *)

(** ** Arithmetic in the field of scalars *)

Section FieldFacts.
Context `{ScalarField}.

Add Field scalar_field : F_theory.

Lemma fone_neq_fzero : (1 <> 0 :> F)%F.
Proof. exact (F_1_neq_0 F_theory). Qed.

Lemma fmul_eq_zero (x y : F) : (x * y = 0)%F -> x = 0%F \/ y = 0%F.
Proof.
  intros Hxy. destruct (decide (x = 0%F)) as [Hx|Hx]; [by left|right].
  assert (Hy : (y = (1 / x) * (x * y))%F) by (field; exact Hx).
  rewrite Hy, Hxy. ring.
Qed.

Lemma fmul_neq_zero (x y : F) : x <> 0%F -> y <> 0%F -> (x * y)%F <> 0%F.
Proof. intros Hx Hy Hxy. destruct (fmul_eq_zero _ _ Hxy); contradiction. Qed.

Lemma fpow_add (x : F) (a b : nat) : (x ^ (a + b)%nat = x ^ a * x ^ b)%F.
Proof. induction a as [|a IH]; simpl; [ring|rewrite IH; ring]. Qed.

Lemma fpow_neq_zero (x : F) (n : nat) : x <> 0%F -> (x ^ n)%F <> 0%F.
Proof.
  intros Hx. induction n as [|n IH]; simpl.
  - apply fone_neq_fzero.
  - by apply fmul_neq_zero.
Qed.

Lemma fprod_fold (A : Type) (g : A -> F) (l : list A) (acc : F) :
  fold_left fmul (map g l) acc = fold_left (fun res a => (res * g a)%F) l acc.
Proof. revert acc. induction l as [|a l IH]; intros acc; simpl; [done|apply IH]. Qed.

Lemma fold_left_fmul_acc (l : list F) (acc : F) :
  fold_left fmul l acc = (acc * fold_left fmul l 1)%F.
Proof.
  revert acc. induction l as [|a l IH]; intros acc; simpl.
  - ring.
  - rewrite (IH (acc * a)%F), (IH (1 * a)%F). ring.
Qed.

End FieldFacts.

(** ** The structural scalars *)

Section ScalarFacts.
Context `{ScalarField}.

Add Field scalar_field_c : F_theory.

Lemma flatten_arm_lengths (p : partition) :
  flatten (arm_lengths p) = map (fun c => arm p c.1 c.2) (cells p).
Proof.
  unfold flatten, arm_lengths, cells.
  rewrite concat_map. f_equal.
  change (@map (list (nat * nat)) (list nat)) with (@fmap list _ (list (nat * nat)) (list nat)).
  rewrite fmap_imap. apply imap_ext. intros i x _. simpl.
  by rewrite map_map.
Qed.

Lemma flatten_leg_lengths (p : partition) :
  flatten (leg_lengths p) = map (fun c => leg p c.1 c.2) (cells p).
Proof.
  unfold flatten, leg_lengths, cells.
  rewrite concat_map. f_equal.
  change (@map (list (nat * nat)) (list nat)) with (@fmap list _ (list (nat * nat)) (list nat)).
  rewrite fmap_imap. apply imap_ext. intros i x _. simpl.
  by rewrite map_map.
Qed.

Lemma length_concat_rows (A : Type) (g : nat -> nat -> A) (p : partition) :
  length (concat (imap (fun i pi => map (g i) (seq 0 pi)) p)) = list_sum p.
Proof.
  revert g. induction p as [|x p IH]; intros g; [done|].
  rewrite imap_cons. simpl. rewrite length_app, length_map, length_seq.
  f_equal. apply (IH (fun i => g (S i))).
Qed.

Lemma length_cells (p : partition) : length (cells p) = size p.
Proof. apply (length_concat_rows _ (fun i j => (i, j))). Qed.

(** A loop over the indices of a list of cells reads the same
    entries as a loop over the cells. *)
Lemma fold_indices_cells (g : nat -> nat -> F) (fa fl : nat * nat -> nat)
    (pre cs : list (nat * nat)) (acc : F) :
  fold_left
    (fun res i =>
       fmul res (g (nth i (map fa (pre ++ cs)) 0) (nth i (map fl (pre ++ cs)) 0)))
    (seq (length pre) (length cs)) acc
  = fold_left (fun res c => (res * g (fa c) (fl c))%F) cs acc.
Proof.
  revert pre acc. induction cs as [|c cs IH]; intros pre acc; [done|].
  simpl.
  assert (Hnth : forall f : nat * nat -> nat,
             nth (length pre) (map f (pre ++ c :: cs)) 0 = f c).
  { intros f. rewrite map_app, app_nth2 by (rewrite length_map; lia).
    by rewrite length_map, Nat.sub_diag. }
  rewrite !Hnth.
  specialize (IH (pre ++ [c]) (acc * g (fa c) (fl c))%F).
  rewrite <- app_assoc in IH. simpl in IH.
  rewrite length_app in IH. simpl in IH.
  replace (length pre + 1) with (S (length pre)) in IH by lia.
  exact IH.
Qed.

Lemma c1_cells (p : partition) (q t : F) :
  c1 p q t
  = fprod (map (fun c => (1 - q ^ (arm p c.1 c.2 + 1)%nat * t ^ leg p c.1 c.2)%F)
               (cells p)).
Proof.
  unfold c1, fprod. rewrite fprod_fold.
  rewrite flatten_arm_lengths, flatten_leg_lengths, <- length_cells.
  apply (fold_indices_cells
           (fun a l => (1 - q ^ (a + 1)%nat * t ^ l)%F)
           (fun c => arm p c.1 c.2) (fun c => leg p c.1 c.2) []).
Qed.

Lemma c2_cells (p : partition) (q t : F) :
  c2 p q t
  = fprod (map (fun c => (1 - q ^ arm p c.1 c.2 * t ^ (leg p c.1 c.2 + 1)%nat)%F)
               (cells p)).
Proof.
  unfold c2, fprod. rewrite fprod_fold.
  rewrite flatten_arm_lengths, flatten_leg_lengths, <- length_cells.
  apply (fold_indices_cells
           (fun a l => (1 - q ^ a * t ^ (l + 1)%nat)%F)
           (fun c => arm p c.1 c.2) (fun c => leg p c.1 c.2) []).
Qed.

End ScalarFacts.

(** ** Elements as dictionaries of non-zero coefficients *)

Section ElementFacts.
Context `{ScalarField}.

Add Field scalar_field_e : F_theory.

Lemma coefficient_empty (m : partition) : coefficient ∅ m = 0%F.
Proof. unfold coefficient. by rewrite lookup_empty. Qed.

Lemma coefficient_basis_elt (m k : partition) :
  coefficient (basis_elt m) k = if decide (m = k) then 1%F else 0%F.
Proof.
  unfold coefficient, basis_elt. case_decide as Hmk.
  - subst. by rewrite lookup_singleton_eq.
  - by rewrite lookup_singleton_ne.
Qed.

Lemma coefficient_elt_add (x y : coeffs_t) (m : partition) :
  coefficient (elt_add x y) m = (coefficient x m + coefficient y m)%F.
Proof.
  unfold coefficient, elt_add. rewrite lookup_union_with.
  destruct (x !! m) as [a|], (y !! m) as [b|];
    unfold union_with, option_union_with; simpl; try ring.
  case_decide as Hab; simpl; [by rewrite Hab|done].
Qed.

Lemma coefficient_elt_scal (c : F) (x : coeffs_t) (m : partition) :
  coefficient (elt_scal c x) m = (c * coefficient x m)%F.
Proof.
  unfold coefficient, elt_scal. rewrite lookup_omap.
  destruct (x !! m) as [a|]; simpl; [|ring].
  case_decide as Hca; simpl; [by rewrite Hca|done].
Qed.

Lemma coefficient_from_dict (d : coeffs_t) (m : partition) :
  coefficient (from_dict d) m = coefficient d m.
Proof.
  unfold coefficient, from_dict. rewrite lookup_omap.
  destruct (d !! m) as [a|]; simpl; [|done].
  case_decide as Ha; simpl; [by rewrite Ha|done].
Qed.

Lemma canonical_empty : canonical ∅.
Proof. intros m. by rewrite lookup_empty. Qed.

Lemma canonical_basis_elt (m : partition) : canonical (basis_elt m).
Proof.
  intros k. unfold basis_elt. destruct (decide (m = k)) as [->|Hmk].
  - rewrite lookup_singleton_eq. intros [= H1]. by apply fone_neq_fzero.
  - by rewrite lookup_singleton_ne.
Qed.

Lemma canonical_elt_add (x y : coeffs_t) :
  canonical x -> canonical y -> canonical (elt_add x y).
Proof.
  intros Hx Hy m. specialize (Hx m). specialize (Hy m).
  unfold elt_add. rewrite lookup_union_with.
  destruct (x !! m) as [a|], (y !! m) as [b|];
    unfold union_with, option_union_with; simpl; try done.
  case_decide; [done|congruence].
Qed.

Lemma canonical_elt_scal (c : F) (x : coeffs_t) : canonical (elt_scal c x).
Proof.
  intros m. unfold elt_scal. rewrite lookup_omap.
  destruct (x !! m) as [a|]; simpl; [|done].
  case_decide; [done|congruence].
Qed.

Lemma canonical_from_dict (d : coeffs_t) : canonical (from_dict d).
Proof.
  intros m. unfold from_dict. rewrite lookup_omap.
  destruct (d !! m) as [a|]; simpl; [|done].
  case_decide; [done|congruence].
Qed.

(** Two dictionaries without zeros are equal when they give the
    same coefficients. *)
Lemma elt_ext (x y : coeffs_t) :
  canonical x -> canonical y ->
  (forall m, coefficient x m = coefficient y m) -> x = y.
Proof.
  intros Hx Hy Hxy. apply map_eq. intros m.
  specialize (Hx m). specialize (Hy m). specialize (Hxy m).
  unfold coefficient in Hxy.
  destruct (x !! m) as [a|], (y !! m) as [b|]; simpl in Hxy; congruence.
Qed.

Lemma elt_scal_one (x : coeffs_t) : canonical x -> elt_scal 1%F x = x.
Proof.
  intros Hx. apply elt_ext; [apply canonical_elt_scal|done|].
  intros m. rewrite coefficient_elt_scal. ring.
Qed.

Lemma elt_add_empty_l (x : coeffs_t) : elt_add ∅ x = x.
Proof.
  apply map_eq. intros m. unfold elt_add.
  rewrite lookup_union_with, lookup_empty. by destruct (x !! m).
Qed.

Lemma canonical_elt_sum_acc (l : list coeffs_t) (acc : coeffs_t) :
  canonical acc -> Forall canonical l -> canonical (fold_left elt_add l acc).
Proof.
  revert acc. induction l as [|y l IH]; intros acc Hacc Hl; simpl; [done|].
  inversion Hl; subst. apply IH; [by apply canonical_elt_add|done].
Qed.

Lemma coefficient_elt_sum_acc (l : list coeffs_t) (acc : coeffs_t) (m : partition) :
  coefficient (fold_left elt_add l acc) m
  = fold_left (fun r y => (r + coefficient y m)%F) l (coefficient acc m).
Proof.
  revert acc. induction l as [|y l IH]; intros acc; simpl; [done|].
  by rewrite IH, coefficient_elt_add.
Qed.

(** Sums over the terms of an element. *)
Lemma msum_empty (g : partition -> F -> F) : msum g ∅ = 0%F.
Proof. apply map_fold_empty. Qed.

Lemma msum_singleton (g : partition -> F -> F) (m : partition) (c : F) :
  msum g {[ m := c ]} = g m c.
Proof. unfold msum. rewrite map_fold_singleton. ring. Qed.

Lemma msum_ext (g g' : partition -> F -> F) (x : coeffs_t) :
  (forall m c, x !! m = Some c -> g m c = g' m c) -> msum g x = msum g' x.
Proof.
  unfold msum. induction x as [|m c x Hm Hfirst IH] using map_first_key_ind;
    intros Hg.
  - by rewrite !map_fold_empty.
  - rewrite !map_fold_insert_first_key by done.
    rewrite IH.
    2:{ intros m' c' Hm'. apply Hg. rewrite lookup_insert_ne; [done|congruence]. }
    rewrite (Hg m c); [done|apply lookup_insert_eq].
Qed.

Lemma msum_delta (g : F -> F) (k : partition) (x : coeffs_t) :
  msum (fun m c => if decide (m = k) then g c else 0%F) x
  = match x !! k with Some c => g c | None => 0%F end.
Proof.
  unfold msum. induction x as [|m c x Hm Hfirst IH] using map_first_key_ind.
  - by rewrite map_fold_empty, lookup_empty.
  - rewrite map_fold_insert_first_key by done. rewrite IH.
    case_decide as Hmk.
    + subst. rewrite lookup_insert_eq, Hm. ring.
    + rewrite lookup_insert_ne by done. ring.
Qed.

Lemma canonical_apply_module_morphism (x : coeffs_t) (f : partition -> coeffs_t) :
  (forall m, canonical (f m)) -> canonical (apply_module_morphism x f).
Proof.
  intros Hf. unfold apply_module_morphism.
  apply (map_fold_weak_ind (fun r _ => canonical r)).
  - apply canonical_empty.
  - intros m c x' r _ Hr. apply canonical_elt_add; [done|apply canonical_elt_scal].
Qed.

(** The coefficients of the linear extension of [f]. *)
Lemma coefficient_apply_module_morphism
    (x : coeffs_t) (f : partition -> coeffs_t) (k : partition) :
  coefficient (apply_module_morphism x f) k
  = msum (fun m c => (c * coefficient (f m) k)%F) x.
Proof.
  unfold apply_module_morphism, msum.
  induction x as [|m c x Hm Hfirst IH] using map_first_key_ind.
  - by rewrite !map_fold_empty, coefficient_empty.
  - rewrite !map_fold_insert_first_key by done.
    by rewrite coefficient_elt_add, coefficient_elt_scal, IH.
Qed.

End ElementFacts.

(** ** The structural scalars at the partition [1,1] *)

Section ScalarsAtOneOne.
Context `{ScalarField}.

Add Field scalar_field_s : F_theory.

(** C7, as the code has it: [c1([1,1]) = q^2*t - q*t - q + 1] and
    [c2([1,1]) = t^3 - t^2 - t + 1]; for every partition, [c1] is
    the product over the cells of [1 - q^(arm+1) * t^leg] and [c2]
    the product over the cells of [1 - q^arm * t^(leg+1)]. *)
Theorem c1_c2_one_one (q t : F) :
  c1 [1; 1] q t = (q ^ 2 * t - q * t - q + 1)%F
  /\ c2 [1; 1] q t = (t ^ 3 - t ^ 2 - t + 1)%F
  /\ (forall p : partition,
        c1 p q t
        = fprod (map (fun c => (1 - q ^ (arm p c.1 c.2 + 1)%nat
                                    * t ^ leg p c.1 c.2)%F)
                     (cells p))
        /\ c2 p q t
           = fprod (map (fun c => (1 - q ^ arm p c.1 c.2
                                       * t ^ (leg p c.1 c.2 + 1)%nat)%F)
                        (cells p))).
Proof.
  split; [|split].
  - unfold c1. simpl. ring.
  - unfold c2. simpl. ring.
  - intros p. split; [apply c1_cells|apply c2_cells].
Qed.

End ScalarsAtOneOne.

(** C7 as stated fails: with [q = 2] and [t = 3] in the rationals,
    [c1([1,1])] is [5] and not [q*t - q - t + 1 = 2]. *)
Lemma c1_one_one_not_as_stated :
  ~ (forall (K : ScalarField) (q t : F),
        c1 [1; 1] q t = (q * t - q - t + 1)%F
        /\ c2 [1; 1] q t = (t ^ 3 - t ^ 2 - t + 1)%F).
Proof.
  intros Hc.
  destruct (Hc Qc_field (Qc_of_Z 2) (Qc_of_Z 3)) as [H1 _].
  apply (f_equal this) in H1. vm_compute in H1. discriminate H1.
Qed.

(** ** The pairing of the P and Q bases *)

Section Duality.
Context `{ScalarField}.
Variable to_power : element -> result coeffs_t.

Add Field scalar_field_d : F_theory.

Lemma pairing_basis_elts (f : partition -> partition -> result F)
    (lam mu : partition) (v : F) :
  f lam lam = Ok v ->
  apply_multi_module_morphism (basis_elt lam) (basis_elt mu) f
  = Ok (if decide (lam = mu) then v else 0%F).
Proof.
  intros Hf. unfold apply_multi_module_morphism, basis_elt.
  rewrite map_fold_singleton.
  case_decide as Hlm.
  - subst. rewrite lookup_singleton_eq. simpl. rewrite Hf. simpl.
    f_equal. ring.
  - rewrite lookup_singleton_ne by congruence. done.
Qed.

(** C2: the P and Q bases are dual: the scalar product of [P(lam)]
    and [Q(mu)] is 1 when [lam = mu] and 0 otherwise, whichever of
    the two elements the method is called on. *)
Theorem scalar_qt_P_Q_dual (q t q' t' : F) (lam mu : partition) :
  scalar_qt to_power
    (Element (Parent McdP q t) (basis_elt lam))
    (Element (Parent McdQ q' t') (basis_elt mu))
  = Ok (if decide (lam = mu) then 1%F else 0%F)
  /\ scalar_qt to_power
       (Element (Parent McdQ q' t') (basis_elt mu))
       (Element (Parent McdP q t) (basis_elt lam))
     = Ok (if decide (lam = mu) then 1%F else 0%F).
Proof.
  assert (Hsym : (if decide (mu = lam) then 1%F else 0%F)
                 = (if decide (lam = mu) then 1%F else 0%F)).
  { do 2 case_decide; congruence. }
  split; unfold scalar_qt; simpl.
  - unfold scalar_qt_p, scalar_qt_q, isinstance. simpl.
    rewrite (pairing_basis_elts _ mu lam 1%F) by done. by rewrite Hsym.
  - unfold scalar_qt_q, isinstance. simpl.
    rewrite (pairing_basis_elts _ mu lam 1%F) by done. by rewrite Hsym.
Qed.

(** C4, at the failing inputs: for a J element and an element that
    is not in the J basis the method raises [TypeError], and for a P
    element and an element that is neither in the P nor in the Q
    basis it raises [NameError]; the generic route is not reached.
    The method of the Q basis, with the same argument, does take the
    generic route. *)
Theorem scalar_qt_no_fallback (q t : F) :
  scalar_qt to_power
    (Element (Parent McdJ q t) (basis_elt [1]))
    (Element (Parent McdH q t) (basis_elt [1]))
  = Raise TypeError
  /\ scalar_qt to_power
       (Element (Parent McdP q t) (basis_elt [1]))
       (Element (Parent McdH q t) (basis_elt [1]))
     = Raise NameError
  /\ scalar_qt to_power
       (Element (Parent McdQ q t) (basis_elt [1]))
       (Element (Parent McdH q t) (basis_elt [1]))
     = scalar_qt_generic to_power
         (Element (Parent McdQ q t) (basis_elt [1]))
         (Element (Parent McdH q t) (basis_elt [1])).
Proof. repeat split; reflexivity. Qed.

End Duality.

(** ** The nabla operator *)

Section NablaFacts.
Context `{ScalarField}.

Add Field scalar_field_n : F_theory.

(** The eigenvalue of nabla on [Ht(part)]. *)
Definition nabla_eigenvalue (q t : F) (part : partition) : F :=
  (t ^ weighted_size part * q ^ weighted_size (conjugate part))%F.

Lemma coefficient_nabla_ht (q t : F) (x : coeffs_t) (k : partition) :
  coefficient (nabla_ht q t x) k
  = (nabla_eigenvalue q t k * coefficient x k)%F.
Proof.
  unfold nabla_ht. rewrite coefficient_apply_module_morphism.
  rewrite (msum_ext _
             (fun m c => if decide (m = k)
                         then (nabla_eigenvalue q t k * c)%F else 0%F)).
  - rewrite msum_delta. unfold coefficient.
    destruct (x !! k); simpl; [done|ring].
  - intros m c _. rewrite coefficient_elt_scal, coefficient_basis_elt.
    unfold nabla_eigenvalue. case_decide; [subst|]; ring.
Qed.

Lemma canonical_nabla_ht (q t : F) (x : coeffs_t) : canonical (nabla_ht q t x).
Proof.
  apply canonical_apply_module_morphism. intros m. apply canonical_elt_scal.
Qed.

(** C6: nabla multiplies [Ht(lam)] by [t^n(lam) * q^n(lam')]; on
    the sum of the Ht basis elements of weight 3 it gives
    [t^3*Ht([1,1,1]) + q*t*Ht([2,1]) + q^3*Ht([3])]. *)
Theorem nabla_ht_diagonal (q t : F) :
  (forall lam : partition,
      nabla_ht q t (basis_elt lam)
      = elt_scal (t ^ weighted_size lam * q ^ weighted_size (conjugate lam))%F
                 (basis_elt lam))
  /\ nabla_ht q t (elt_sum (map basis_elt (Partitions 3)))
     = elt_add
         (elt_add (elt_scal (t ^ 3)%F (basis_elt [1; 1; 1]))
                  (elt_scal (q * t)%F (basis_elt [2; 1])))
         (elt_scal (q ^ 3)%F (basis_elt [3])).
Proof.
  split.
  - intros lam. apply elt_ext.
    + apply canonical_nabla_ht.
    + apply canonical_elt_scal.
    + intros k. rewrite coefficient_nabla_ht, !coefficient_elt_scal,
        coefficient_basis_elt.
      unfold nabla_eigenvalue. case_decide; [subst|]; ring.
  - apply elt_ext.
    + apply canonical_nabla_ht.
    + repeat apply canonical_elt_add; apply canonical_elt_scal.
    + intros k. rewrite coefficient_nabla_ht.
      unfold elt_sum. rewrite coefficient_elt_sum_acc.
      rewrite !coefficient_elt_add, !coefficient_elt_scal.
      change (Partitions 3) with [[3]; [2; 1]; [1; 1; 1]]. simpl.
      rewrite coefficient_empty, !coefficient_basis_elt.
      unfold nabla_eigenvalue.
      repeat case_decide; subst; try congruence; simpl; ring.
Qed.

End NablaFacts.

(** ** Construction of the bases *)

Section ConstructorFacts.
Context `{RingLibrary}.
Variable table_store : Type.

Lemma returns_ret (A : Type) (a : A) (P : A -> Prop) :
  P a -> returns table_store (ret a) P.
Proof. intros Ha g. by exists a, g. Qed.

Lemma returns_bind (A B : Type) (m : ST (globals table_store) A)
    (k : A -> ST (globals table_store) B)
    (P : A -> Prop) (Q : B -> Prop) :
  returns table_store m P ->
  (forall a, P a -> returns table_store (k a) Q) ->
  returns table_store (bind m k) Q.
Proof.
  intros Hm Hk g. destruct (Hm g) as (a & g1 & Hmg & Ht1 & Ha).
  destruct (Hk a Ha g1) as (b & g2 & Hkg & Ht2 & Hb).
  exists b, g2. unfold bind. rewrite Hmg, Hkg. by rewrite Ht2, Ht1.
Qed.

Lemma returns_weaken (A : Type) (m : ST (globals table_store) A)
    (P Q : A -> Prop) :
  returns table_store m P -> (forall a, P a -> Q a) ->
  returns table_store m Q.
Proof.
  intros Hm HPQ g. destruct (Hm g) as (a & g1 & Hmg & Ht1 & Ha).
  exists a, g1. auto.
Qed.

Lemma returns_cache_set (b : basis) (k : key) (x : instance) :
  returns table_store (cache_set table_store b k x) (fun _ => True).
Proof. intros g. by eexists tt, _. Qed.

Lemma returns_cache_call (b : basis)
    (factory : ring -> option val -> option val
               -> ST (globals table_store) instance)
    (R : ring) (q t : option val) :
  returns table_store (factory R q t) (fun _ => True) ->
  returns table_store (cache_call table_store b factory R q t) (fun _ => True).
Proof.
  intros Hf g. unfold cache_call.
  destruct (assoc (R, q, t) (instance_cache table_store g b)) as [x|].
  - by exists x, g.
  - revert g. eapply returns_bind; [exact Hf|]. intros x _.
    eapply returns_bind; [apply returns_cache_set|]. intros _ _.
    by apply returns_ret.
Qed.

(** The generic initialisation, when the values offered are in the
    ring: [self.q] and [self.t] are their images, and both lie in
    the base ring of the new basis. *)
Lemma returns_generic_init (b : basis) (name prefix : string)
    (R : ring) (q t : option val) :
  supplied_in R q t = true ->
  returns table_store (generic_init table_store b name prefix R q t)
    (fun self =>
       specialised R q t self
       /\ contains (i_base_ring self) (i_q self) = true
       /\ contains (i_base_ring self) (i_t self) = true).
Proof.
  unfold supplied_in, generic_init, specialised.
  destruct q as [q|], t as [t|]; simpl; intros Hin.
  - apply andb_true_iff in Hin as [Hq Ht]. rewrite Hq, Ht. simpl.
    apply returns_ret. simpl.
    repeat split; try (intros v [= <-]; done); by apply contains_coerce.
  - rewrite andb_true_r in Hin. rewrite Hin. simpl.
    apply returns_ret. simpl.
    repeat split; try (intros v [= <-]; done); try done.
    + by apply contains_frac_t, contains_coerce.
    + apply contains_gen_t.
  - rewrite Hin. simpl. apply returns_ret. simpl.
    repeat split; try (intros v [= <-]; done); try done.
    + apply contains_gen_q.
    + by apply contains_frac_q, contains_coerce.
  - apply returns_ret. simpl.
    repeat split; try done.
    + apply contains_gen_q_qt.
    + apply contains_gen_t_qt.
Qed.

Lemma supplied_in_both (R : ring) (q t : val) :
  contains R q = true -> contains R t = true ->
  supplied_in R (Some q) (Some t) = true.
Proof. intros Hq Ht. unfold supplied_in. simpl. by rewrite Hq, Ht. Qed.

Lemma returns_s (R : ring) (q t : option val) :
  supplied_in R q t = true ->
  returns table_store (MacdonaldPolynomials_s table_store R q t)
          (specialised R q t).
Proof.
  intros Hin. unfold MacdonaldPolynomials_s.
  eapply returns_bind; [by apply returns_generic_init|].
  intros self (Hs & _ & _).
  eapply returns_bind; [apply returns_cache_set|]. intros _ _.
  by apply returns_ret.
Qed.

Lemma returns_j (R : ring) (q t : option val) :
  supplied_in R q t = true ->
  returns table_store (MacdonaldPolynomials_j table_store R q t)
          (specialised R q t).
Proof.
  intros Hin. unfold MacdonaldPolynomials_j.
  eapply returns_bind; [by apply returns_generic_init|].
  intros self (Hs & _ & _).
  eapply returns_bind.
  { apply returns_cache_call. eapply returns_weaken; [by apply returns_s|done]. }
  intros _ _.
  eapply returns_bind; [apply returns_cache_set|]. intros _ _.
  by apply returns_ret.
Qed.

Lemma returns_J (R : ring) (q t : option val) :
  supplied_in R q t = true ->
  returns table_store (MacdonaldPolynomialsJ table_store R q t) (fun _ => True).
Proof.
  intros Hin. apply returns_cache_call.
  eapply returns_weaken; [by apply returns_j|done].
Qed.

Lemma returns_p (R : ring) (q t : option val) :
  supplied_in R q t = true ->
  returns table_store (MacdonaldPolynomials_p table_store R q t)
          (specialised R q t).
Proof.
  intros Hin. unfold MacdonaldPolynomials_p.
  eapply returns_bind; [by apply returns_generic_init|].
  intros self (Hs & _ & _).
  eapply returns_bind; [apply returns_cache_set|]. intros _ _.
  eapply returns_bind; [by apply returns_J|]. intros _ _.
  by apply returns_ret.
Qed.

Lemma returns_q (R : ring) (q t : option val) :
  supplied_in R q t = true ->
  returns table_store (MacdonaldPolynomials_q table_store R q t)
          (specialised R q t).
Proof.
  intros Hin. unfold MacdonaldPolynomials_q.
  eapply returns_bind; [by apply returns_generic_init|].
  intros self (Hs & Hq & Ht).
  eapply returns_bind; [by apply returns_J, supplied_in_both|]. intros _ _.
  eapply returns_bind.
  { apply returns_cache_call. eapply returns_weaken;
      [by apply returns_p, supplied_in_both|done]. }
  intros _ _.
  eapply returns_bind; [apply returns_cache_set|]. intros _ _.
  by apply returns_ret.
Qed.

Lemma returns_ht (R : ring) (q t : option val) :
  supplied_in R q t = true ->
  returns table_store (MacdonaldPolynomials_ht table_store R q t)
          (specialised R q t).
Proof.
  intros Hin. unfold MacdonaldPolynomials_ht.
  eapply returns_bind; [by apply returns_generic_init|].
  intros self (Hs & Hq & Ht).
  eapply returns_bind; [by apply returns_J, supplied_in_both|]. intros _ _.
  eapply returns_bind; [apply returns_cache_set|]. intros _ _.
  by apply returns_ret.
Qed.

Lemma returns_h (R : ring) (q t : option val) :
  supplied_in R q t = true ->
  returns table_store (MacdonaldPolynomials_h table_store R q t)
          (specialised R q t).
Proof.
  intros Hin. unfold MacdonaldPolynomials_h.
  eapply returns_bind; [by apply returns_generic_init|].
  intros self (Hs & Hq & Ht).
  eapply returns_bind.
  { apply returns_cache_call. eapply returns_weaken;
      [by apply returns_ht|done]. }
  intros _ _.
  eapply returns_bind; [apply returns_cache_set|]. intros _ _.
  by apply returns_ret.
Qed.

(** When a value offered is not in the ring, the generic
    initialisation raises [ValueError] and writes nothing. *)
Lemma generic_init_raises (b : basis) (name prefix : string)
    (R : ring) (q t : option val) (g : globals table_store) :
  supplied_in R q t = false ->
  generic_init table_store b name prefix R q t g = (Raise ValueError, g).
Proof.
  unfold supplied_in, generic_init.
  destruct q as [q|], t as [t|]; simpl; intros Hin; try done.
  - destruct (contains R t), (contains R q); simpl in *; done.
  - rewrite andb_true_r in Hin. by rewrite Hin.
  - by rewrite Hin.
Qed.

(** C8: each of the six constructors raises [ValueError], before
    anything is written to the module-level state, when the value
    offered for [q] or for [t] is not in [R]; when the values offered
    are in [R] the construction returns a basis whose [q] and [t] are
    their images [R(q)] and [R(t)], and the tables are untouched. *)
Theorem constructor_parameter_check (b : basis) (R : ring)
    (q t : option val) (g : globals table_store) :
  is_macdonald b = true ->
  if supplied_in R q t
  then exists self g',
      constructor table_store b R q t g = (Ok self, g')
      /\ tables table_store g' = tables table_store g
      /\ specialised R q t self
  else constructor table_store b R q t g = (Raise ValueError, g).
Proof.
  intros Hb. destruct (supplied_in R q t) eqn:Hin.
  - destruct b; try discriminate Hb; simpl.
    + by apply returns_p.
    + by apply returns_q.
    + by apply returns_j.
    + by apply returns_h.
    + by apply returns_ht.
    + by apply returns_s.
  - destruct b; try discriminate Hb; simpl;
      unfold MacdonaldPolynomials_p, MacdonaldPolynomials_q,
        MacdonaldPolynomials_j, MacdonaldPolynomials_h,
        MacdonaldPolynomials_ht, MacdonaldPolynomials_s, bind;
      by rewrite generic_init_raises.
Qed.

End ConstructorFacts.

(** C8 at a concrete input: the Q basis over the ring holding the
    values up to 3, with [q = 5] offered and no [t]. *)
Lemma constructor_parameter_check_witness :
  is_macdonald McdQ = true
  /\ constructor (H := small_rings) unit McdQ 3 (Some 5) None
       (Globals unit tt (fun _ => []))
     = (Raise ValueError, Globals unit tt (fun _ => [])).
Proof.
  split; [reflexivity|].
  exact (constructor_parameter_check (H := small_rings) unit McdQ 3 (Some 5) None
           (Globals unit tt (fun _ => [])) eq_refl).
Defined.

(** ** The creation operators *)

(** The rows of the matrix for the list [part] padded to the length
    [k]. *)
Abbreviation padded_rows q t k part :=
  (map (fun i => creation_row q t k i (nth i (padded k part) 0)) (seq 0 k)).

Section CreationFacts.
Context `{ScalarField}.

(** A loop whose body raises nothing but [e0] ends with a value or
    with [e0]. *)
Lemma apply_module_morphism_r_raise_only (e0 : exn) (x : coeffs_t)
    (f : partition -> result coeffs_t) (e : exn) :
  (forall m e', f m = Raise e' -> e' = e0) ->
  apply_module_morphism_r x f = Raise e -> e = e0.
Proof.
  intros Hf. unfold apply_module_morphism_r. revert e.
  apply (map_fold_weak_ind
           (fun (r : result coeffs_t) (_ : coeffs_t) =>
              forall e, r = Raise e -> e = e0)).
  - intros e [=].
  - intros m c x' r _ IH e. destruct r as [r|e1]; simpl.
    + destruct (f m) as [y|e2] eqn:Hfm; simpl; intros [=]. subst.
      by apply (Hf m).
    + intros [= <-]. by apply IH.
Qed.

(** It ends with [e0] as soon as the body raises on one term. *)
Lemma apply_module_morphism_r_raises (e0 : exn) (x : coeffs_t)
    (f : partition -> result coeffs_t) :
  (forall m e', f m = Raise e' -> e' = e0) ->
  map_Exists (fun m _ => f m = Raise e0) x ->
  apply_module_morphism_r x f = Raise e0.
Proof.
  intros Hf. unfold apply_module_morphism_r.
  induction x as [|m c x Hm Hfirst IH] using map_first_key_ind.
  - intros (m & c & Hmc & _). by rewrite lookup_empty in Hmc.
  - intros (m' & c' & Hmc' & Hraise).
    rewrite map_fold_insert_first_key by done.
    destruct (map_fold _ (Ok ∅) x) as [r|e1] eqn:Hfold; simpl.
    + destruct (decide (m = m')) as [->|Hne].
      * by rewrite Hraise.
      * rewrite lookup_insert_ne in Hmc' by done.
        discriminate IH. exists m', c'. by split.
    + f_equal. apply (apply_module_morphism_r_raise_only e0 x f e1 Hf Hfold).
Qed.

(** It is the linear extension when the body raises on no term. *)
Lemma apply_module_morphism_r_ok (x : coeffs_t)
    (f : partition -> result coeffs_t) (g : partition -> coeffs_t) :
  (forall m c, x !! m = Some c -> f m = Ok (g m)) ->
  apply_module_morphism_r x f = Ok (apply_module_morphism x g).
Proof.
  unfold apply_module_morphism_r, apply_module_morphism.
  induction x as [|m c x Hm Hfirst IH] using map_first_key_ind; intros Hf.
  - by rewrite !map_fold_empty.
  - rewrite !map_fold_insert_first_key by done.
    rewrite IH.
    2:{ intros m' c' Hm'. apply (Hf m' c').
        rewrite lookup_insert_ne; [done|congruence]. }
    simpl. by rewrite (Hf m c) by apply lookup_insert_eq.
Qed.

Lemma length_padded (k : nat) (part : list nat) :
  length part <= k -> length (padded k part) = k.
Proof.
  intros Hk. unfold padded. rewrite length_app, length_replicate. lia.
Qed.

Lemma length_padded_long (k : nat) (part : list nat) :
  k < length part -> padded k part = part.
Proof.
  intros Hk. unfold padded.
  replace (k - length part) with 0 by lia. simpl. apply app_nil_r.
Qed.

Lemma mapM_r_ok (A B : Type) (f : A -> result B) (g : A -> B) (l : list A) :
  (forall a, In a l -> f a = Ok (g a)) -> mapM_r f l = Ok (map g l).
Proof.
  induction l as [|a l IH]; intros Hf; simpl; [done|].
  rewrite (Hf a) by (by left). simpl.
  rewrite IH by (intros b Hb; apply Hf; by right). done.
Qed.

(** The matrix of a list of length [k]: every [part[i]] is in range. *)
Lemma creation_matrix_ok (q t : F) (k : nat) (part : list nat) :
  k <= length part ->
  creation_matrix q t k part
  = Ok (map (fun i => creation_row q t k i (nth i part 0)) (seq 0 k)).
Proof.
  intros Hk. unfold creation_matrix. apply mapM_r_ok.
  intros i Hi%in_seq. rewrite nth_lookup.
  destruct (part !! i) as [pi|] eqn:Hpi; [done|].
  apply lookup_ge_None in Hpi. lia.
Qed.

Lemma mapM_r_raises (A B : Type) (f : A -> result B) (pre : list A) (a : A)
    (rest : list A) (e : exn) :
  (forall i, In i pre -> exists b, f i = Ok b) ->
  f a = Raise e ->
  mapM_r f (pre ++ a :: rest) = Raise e.
Proof.
  intros Hpre Ha. induction pre as [|i pre IH]; simpl.
  - by rewrite Ha.
  - destruct (Hpre i) as [b ->]; [by left|]. simpl.
    rewrite IH; [done|]. intros i' Hi'. apply Hpre. by right.
Qed.

(** The matrix of a shorter list cannot be formed. *)
Lemma creation_matrix_short (q t : F) (k : nat) (part : list nat) :
  length part < k -> creation_matrix q t k part = Raise IndexError.
Proof.
  intros Hk. unfold creation_matrix.
  replace (seq 0 k)
    with (seq 0 (length part)
          ++ length part :: seq (S (length part)) (k - S (length part))).
  2:{ replace k with (length part + S (k - S (length part))) at 2 by lia.
      by rewrite seq_app. }
  apply mapM_r_raises.
  - intros i Hi%in_seq. destruct (part !! i) as [pi|] eqn:Hpi; [by eexists|].
    apply lookup_ge_None in Hpi. lia.
  - by rewrite (proj2 (lookup_ge_None part (length part))) by lia.
Qed.

Lemma helper_spec (q t : F) (k : nat) (part : list nat) :
  _creation_by_determinant_helper q t k part
  = if decide (k < length part) then Raise ValueError
    else Ok (h_to_s (det_h k (padded_rows q t k part))).
Proof.
  unfold _creation_by_determinant_helper. fold (padded k part).
  case_decide as Hk.
  - rewrite length_padded_long by done.
    by apply Nat.ltb_lt in Hk as ->.
  - rewrite length_padded by lia. rewrite Nat.ltb_irrefl.
    rewrite creation_matrix_ok by (rewrite length_padded; lia). done.
Qed.

(** C9: [x.creation(k)] raises [ValueError] when a partition of the
    support of [x] has more than [k] parts; otherwise every
    partition of the support is padded with zeros to the length [k]
    exactly before the matrix is formed, the [k] rows of the matrix
    read the [k] entries of the padded list, and the result is the
    linear extension of the determinant of that matrix, converted to
    the Schur functions.  The padding is needed: the matrix of a list
    with fewer than [k] entries cannot be formed, because its rows
    read past the end of the list. *)
Theorem creation_length_check (q t : F) (x : coeffs_t) (k : nat) :
  creation q t x k
  = (if too_long k x then Raise ValueError
     else Ok (apply_module_morphism x
                (fun part =>
                   match creation_matrix q t k (padded k part) with
                   | Ok m => h_to_s (det_h k m)
                   | Raise _ => ∅
                   end)))
  /\ (too_long k x = false ->
      forall part c, x !! part = Some c ->
                     length (padded k part) = k
                     /\ exists m, creation_matrix q t k (padded k part) = Ok m
                                  /\ length m = k)
  /\ (forall part : list nat,
         length part < k -> creation_matrix q t k part = Raise IndexError).
Proof.
  unfold creation, _creation_by_determinant, too_long. split; [|split].
  - case_bool_decide as Hlong.
    + apply apply_module_morphism_r_raises.
      * intros m e'. rewrite helper_spec. by case_decide; intros [=].
      * destruct Hlong as (m & c & Hmc & Hk). exists m, c. split; [done|].
        rewrite helper_spec. by rewrite decide_True.
    + apply apply_module_morphism_r_ok. intros m c Hmc.
      assert (Hk : length m <= k).
      { apply Nat.nlt_ge. intros Hk. apply Hlong. by exists m, c. }
      rewrite helper_spec. rewrite decide_False by lia.
      rewrite creation_matrix_ok by (rewrite length_padded; lia). done.
  - intros Hlong part c Hpart.
    apply bool_decide_eq_false in Hlong.
    assert (Hk : length part <= k).
    { apply Nat.nlt_ge. intros Hk. apply Hlong. by exists part, c. }
    split; [by apply length_padded|].
    rewrite creation_matrix_ok by (rewrite length_padded; lia).
    eexists. split; [done|]. by rewrite length_map, length_seq.
  - intros part. apply creation_matrix_short.
Qed.

End CreationFacts.

(** ** The proportional bases *)

Section ProportionalFacts.
Context `{ScalarField}.

Add Field scalar_field_p : F_theory.

Lemma coefficient_scale_by (d : partition -> F) (x : coeffs_t) (k : partition) :
  coefficient (scale_by d x) k = (d k * coefficient x k)%F.
Proof.
  unfold scale_by. rewrite coefficient_apply_module_morphism.
  rewrite (msum_ext _ (fun m c => if decide (m = k) then (d k * c)%F else 0%F)).
  - rewrite msum_delta. unfold coefficient. destruct (x !! k); simpl; [done|ring].
  - intros m c _. rewrite coefficient_elt_scal, coefficient_basis_elt.
    case_decide; [subst|]; ring.
Qed.

Lemma canonical_scale_by (d : partition -> F) (x : coeffs_t) :
  canonical (scale_by d x).
Proof.
  apply canonical_apply_module_morphism. intros m. apply canonical_elt_scal.
Qed.

Lemma coefficient_lookup_None (x : coeffs_t) (k : partition) :
  canonical x -> coefficient x k = 0%F -> x !! k = None.
Proof.
  intros Hx Hk. specialize (Hx k). unfold coefficient in Hk.
  destruct (x !! k) as [c|]; simpl in Hk; [congruence|done].
Qed.

Lemma scale_by_support (d : partition -> F) (x : coeffs_t) (k : partition) (c : F) :
  scale_by d x !! k = Some c -> exists c', x !! k = Some c'.
Proof.
  intros Hk. destruct (x !! k) as [c'|] eqn:Hxk; [by exists c'|].
  rewrite (coefficient_lookup_None (scale_by d x) k) in Hk; [done| |].
  - apply canonical_scale_by.
  - rewrite coefficient_scale_by. unfold coefficient. rewrite Hxk. simpl. ring.
Qed.

Lemma module_morphism_diagonal_ok (d : partition -> result F)
    (dv : partition -> F) (x : coeffs_t) :
  (forall m c, x !! m = Some c -> d m = Ok (dv m)) ->
  module_morphism_diagonal d x = Ok (scale_by dv x).
Proof.
  intros Hd. unfold module_morphism_diagonal, scale_by.
  apply apply_module_morphism_r_ok. intros m c Hm. by rewrite (Hd m c Hm).
Qed.

(** Two diagonal maps one after the other, on an element on whose
    support both diagonals are defined and inverse to each other. *)
Lemma diagonal_round_trip (d1 d2 : partition -> result F)
    (dv1 dv2 : partition -> F) (x : coeffs_t) :
  canonical x ->
  (forall m c, x !! m = Some c ->
               d1 m = Ok (dv1 m) /\ d2 m = Ok (dv2 m) /\ (dv2 m * dv1 m)%F = 1%F) ->
  (do y <- module_morphism_diagonal d1 x; module_morphism_diagonal d2 y) = Ok x.
Proof.
  intros Hx Hd.
  rewrite (module_morphism_diagonal_ok d1 dv1) by (intros m c Hm; apply (Hd m c Hm)).
  simpl. rewrite (module_morphism_diagonal_ok d2 dv2).
  2:{ intros m c Hm. apply scale_by_support in Hm as [c' Hm]. apply (Hd m c' Hm). }
  f_equal. apply elt_ext; [apply canonical_scale_by|done|].
  intros k. rewrite !coefficient_scale_by.
  destruct (x !! k) as [c|] eqn:Hk.
  - destruct (Hd k c Hk) as (_ & _ & Hinv).
    transitivity ((dv2 k * dv1 k) * coefficient x k)%F; [ring|].
    rewrite Hinv. ring.
  - unfold coefficient. rewrite Hk. simpl. ring.
Qed.

Lemma div_r_ok (a b : F) : b <> 0%F -> div_r a b = Ok (a / b)%F.
Proof. intros Hb. unfold div_r. by rewrite decide_False. Qed.

Lemma div_r_zero (a : F) : div_r a 0%F = Raise ZeroDivisionError.
Proof. unfold div_r. by rewrite decide_True. Qed.

Lemma fdiv_neq_zero (a b : F) : a <> 0%F -> b <> 0%F -> (a / b)%F <> 0%F.
Proof.
  intros Ha Hb Hab. apply Ha.
  transitivity ((a / b) * b)%F; [field; exact Hb|]. rewrite Hab. ring.
Qed.

Lemma fprod_neq_zero (l : list F) :
  Forall (fun a => a <> 0%F) l -> fprod l <> 0%F.
Proof.
  unfold fprod. intros Hl. induction Hl as [|a l Ha Hl IH]; simpl.
  - apply fone_neq_fzero.
  - rewrite fold_left_fmul_acc. apply fmul_neq_zero; [|done].
    replace (1 * a)%F with a by ring. done.
Qed.

Lemma one_minus_neq_zero (x : F) : x <> 1%F -> (1 - x)%F <> 0%F.
Proof.
  intros Hx H0. apply Hx. transitivity (1 - (1 - x))%F; [ring|].
  rewrite H0. ring.
Qed.

(** For generic parameters neither [c1] nor [c2] vanishes. *)
Lemma c1_c2_generic_nonzero (q t : F) (lam : partition) :
  generic_parameters q t -> c1 lam q t <> 0%F /\ c2 lam q t <> 0%F.
Proof.
  intros Hgen. rewrite c1_cells, c2_cells. split.
  - apply fprod_neq_zero, Forall_forall. intros a Ha.
    apply list_elem_of_In, in_map_iff in Ha as (c & <- & _).
    apply one_minus_neq_zero, Hgen. lia.
  - apply fprod_neq_zero, Forall_forall. intros a Ha.
    apply list_elem_of_In, in_map_iff in Ha as (c & <- & _).
    apply one_minus_neq_zero, Hgen. lia.
Qed.

(** The round trips between J and P, where [c2] does not vanish. *)
Lemma round_trip_J_P (q t : F) (x : coeffs_t) :
  canonical x ->
  (forall m c, x !! m = Some c -> c2 m q t <> 0%F) ->
  (do y <- J_to_P q t x; P_to_J q t y) = Ok x
  /\ (do y <- P_to_J q t x; J_to_P q t y) = Ok x.
Proof.
  intros Hx Hc2. unfold J_to_P, P_to_J. split.
  - apply (diagonal_round_trip _ _ (fun m => c2 m q t) (fun m => (1 / c2 m q t)%F));
      [done|].
    intros m c Hm. specialize (Hc2 m c Hm). unfold pointwise_inverse. simpl.
    rewrite div_r_ok by done. repeat split. field. exact Hc2.
  - apply (diagonal_round_trip _ _ (fun m => (1 / c2 m q t)%F) (fun m => c2 m q t));
      [done|].
    intros m c Hm. specialize (Hc2 m c Hm). unfold pointwise_inverse. simpl.
    rewrite div_r_ok by done. repeat split. field. exact Hc2.
Qed.

(** The round trips between P and Q, where neither [c1] nor [c2]
    vanishes. *)
Lemma round_trip_P_Q (q t : F) (x : coeffs_t) :
  canonical x ->
  (forall m c, x !! m = Some c -> c1 m q t <> 0%F /\ c2 m q t <> 0%F) ->
  (do y <- P_to_Q q t x; Q_to_P q t y) = Ok x
  /\ (do y <- Q_to_P q t x; P_to_Q q t y) = Ok x.
Proof.
  intros Hx Hc. unfold P_to_Q, Q_to_P. split.
  - apply (diagonal_round_trip _ _
             (fun m => (c1 m q t / c2 m q t)%F)
             (fun m => (1 / (c1 m q t / c2 m q t))%F)); [done|].
    intros m c Hm. destruct (Hc m c Hm) as [Hc1 Hc2].
    unfold pointwise_inverse, scalar_qt_basis. simpl.
    rewrite div_r_ok by done. simpl.
    rewrite div_r_ok by (by apply fdiv_neq_zero).
    repeat split. field. by split.
  - apply (diagonal_round_trip _ _
             (fun m => (1 / (c1 m q t / c2 m q t))%F)
             (fun m => (c1 m q t / c2 m q t)%F)); [done|].
    intros m c Hm. destruct (Hc m c Hm) as [Hc1 Hc2].
    unfold pointwise_inverse, scalar_qt_basis. simpl.
    rewrite div_r_ok by done. simpl.
    rewrite div_r_ok by (by apply fdiv_neq_zero).
    repeat split. field. by split.
Qed.

(** The round trips between J and Q, found through P. *)
Lemma round_trip_J_Q (q t : F) (x : coeffs_t) :
  canonical x ->
  (forall m c, x !! m = Some c -> c1 m q t <> 0%F /\ c2 m q t <> 0%F) ->
  (do y <- J_to_Q q t x; Q_to_J q t y) = Ok x
  /\ (do y <- Q_to_J q t x; J_to_Q q t y) = Ok x.
Proof.
  intros Hx Hc.
  assert (Hc2 : forall m c, x !! m = Some c -> c2 m q t <> 0%F).
  { intros m c Hm. apply (Hc m c Hm). }
  assert (HPQ : forall m c, x !! m = Some c ->
              scalar_qt_basis (Parent McdP q t) m None = Ok (c1 m q t / c2 m q t)%F).
  { intros m c Hm. unfold scalar_qt_basis. simpl. by rewrite div_r_ok by eauto. }
  assert (HQP : forall m c, x !! m = Some c ->
              pointwise_inverse (fun m => scalar_qt_basis (Parent McdP q t) m None) m
              = Ok (1 / (c1 m q t / c2 m q t))%F).
  { intros m c Hm. unfold pointwise_inverse. rewrite (HPQ m c Hm). simpl.
    destruct (Hc m c Hm). by rewrite div_r_ok by (by apply fdiv_neq_zero). }
  assert (HPJ : forall m c, x !! m = Some c ->
              pointwise_inverse (fun m => Ok (c2 m q t)) m = Ok (1 / c2 m q t)%F).
  { intros m c Hm. unfold pointwise_inverse. simpl. by rewrite div_r_ok by eauto. }
  unfold J_to_Q, Q_to_J, J_to_P, P_to_J, P_to_Q, Q_to_P. split.
  - rewrite (module_morphism_diagonal_ok _ (fun m => c2 m q t)) by done. simpl.
    rewrite (module_morphism_diagonal_ok _ (fun m => (c1 m q t / c2 m q t)%F)).
    2:{ intros m c Hm. apply scale_by_support in Hm as [c' Hm]. eauto. }
    simpl.
    rewrite (module_morphism_diagonal_ok _ (fun m => (1 / (c1 m q t / c2 m q t))%F)).
    2:{ intros m c Hm. do 2 apply scale_by_support in Hm as [? Hm]. eauto. }
    simpl.
    rewrite (module_morphism_diagonal_ok _ (fun m => (1 / c2 m q t)%F)).
    2:{ intros m c Hm. do 3 apply scale_by_support in Hm as [? Hm]. eauto. }
    f_equal. apply elt_ext; [apply canonical_scale_by|done|].
    intros k. rewrite !coefficient_scale_by.
    destruct (x !! k) as [c|] eqn:Hk.
    + destruct (Hc k c Hk). field. by split.
    + unfold coefficient. rewrite Hk. simpl. ring.
  - rewrite (module_morphism_diagonal_ok _ (fun m => (1 / (c1 m q t / c2 m q t))%F))
      by done.
    simpl.
    rewrite (module_morphism_diagonal_ok _ (fun m => (1 / c2 m q t)%F)).
    2:{ intros m c Hm. apply scale_by_support in Hm as [c' Hm]. eauto. }
    simpl.
    rewrite (module_morphism_diagonal_ok _ (fun m => c2 m q t)).
    2:{ intros m c Hm. by do 2 apply scale_by_support in Hm as [? Hm]. }
    simpl.
    rewrite (module_morphism_diagonal_ok _ (fun m => (c1 m q t / c2 m q t)%F)).
    2:{ intros m c Hm. do 3 apply scale_by_support in Hm as [? Hm]. eauto. }
    f_equal. apply elt_ext; [apply canonical_scale_by|done|].
    intros k. rewrite !coefficient_scale_by.
    destruct (x !! k) as [c|] eqn:Hk.
    + destruct (Hc k c Hk). field. by split.
    + unfold coefficient. rewrite Hk. simpl. ring.
Qed.

End ProportionalFacts.

(** ** Partitions of a given weight *)

Lemma parts_le_step (k n m : nat) :
  parts_le (S k) (S n) m
  = flat_map (fun j => map (cons j) (parts_le k (S n - j) j))
             (rev (seq 1 (Nat.min (S n) m))).
Proof. reflexivity. Qed.

Lemma parts_le_sum (k n m : nat) (lam : partition) :
  In lam (parts_le k n m) -> size lam = n.
Proof.
  revert n m lam. induction k as [|k IH]; intros n m lam Hin.
  - destruct n; simpl in Hin; [|done]. by destruct Hin as [<-|[]].
  - destruct n as [|n].
    { simpl in Hin. by destruct Hin as [<-|[]]. }
    rewrite parts_le_step in Hin.
    apply in_flat_map in Hin as (j & Hj & Hin).
    apply in_map_iff in Hin as (r & <- & Hr).
    apply IH in Hr. apply in_rev, in_seq in Hj.
    unfold size in *. simpl. lia.
Qed.

Lemma Partitions_size (n : nat) (lam : partition) :
  In lam (Partitions n) -> size lam = n.
Proof. apply parts_le_sum. Qed.

Lemma parts_le_NoDup (k n m : nat) : NoDup (parts_le k n m).
Proof.
  revert n m. induction k as [|k IH]; intros n m.
  - destruct n; [apply NoDup_singleton|apply NoDup_nil_2].
  - destruct n as [|n]; [apply NoDup_singleton|].
    rewrite parts_le_step.
    change (flat_map ?f ?l) with (l ≫= f).
    apply NoDup_bind.
    + intros j1 j2 lam _ _ H1 H2.
      apply list_elem_of_In, in_map_iff in H1 as (r1 & <- & _).
      apply list_elem_of_In, in_map_iff in H2 as (r2 & Heq & _).
      congruence.
    + intros j _. apply (NoDup_fmap_2 (cons j)), IH.
    + apply NoDup_ListNoDup, NoDup_rev, NoDup_ListNoDup, NoDup_seq.
Qed.

Lemma Partitions_NoDup (n : nat) : NoDup (Partitions n).
Proof. apply parts_le_NoDup. Qed.

(** ** Finite sums *)

Section Sums.
Context `{ScalarField}.

Add Field scalar_field_l : F_theory.

Lemma lsum_map_add (A : Type) (f g : A -> F) (l : list A) :
  lsum (map (fun a => (f a + g a)%F) l) = (lsum (map f l) + lsum (map g l))%F.
Proof. induction l as [|a l IH]; simpl; [ring|rewrite IH; ring]. Qed.

Lemma lsum_map_scal (A : Type) (c : F) (f : A -> F) (l : list A) :
  lsum (map (fun a => (c * f a)%F) l) = (c * lsum (map f l))%F.
Proof. induction l as [|a l IH]; simpl; [ring|rewrite IH; ring]. Qed.

Lemma lsum_map_scal_r (A : Type) (c : F) (f : A -> F) (l : list A) :
  lsum (map (fun a => (f a * c)%F) l) = (lsum (map f l) * c)%F.
Proof. induction l as [|a l IH]; simpl; [ring|rewrite IH; ring]. Qed.

Lemma lsum_map_ext (A : Type) (f g : A -> F) (l : list A) :
  (forall a, In a l -> f a = g a) -> lsum (map f l) = lsum (map g l).
Proof.
  intros Hfg. induction l as [|a l IH]; simpl; [done|].
  rewrite (Hfg a) by (by left). rewrite IH; [done|].
  intros b Hb. apply Hfg. by right.
Qed.

Lemma lsum_map_zero (A : Type) (f : A -> F) (l : list A) :
  (forall a, In a l -> f a = 0%F) -> lsum (map f l) = 0%F.
Proof.
  intros Hf. induction l as [|a l IH]; simpl; [done|].
  rewrite (Hf a) by (by left). rewrite IH; [ring|].
  intros b Hb. apply Hf. by right.
Qed.

Lemma lsum_swap (A B : Type) (f : A -> B -> F) (la : list A) (lb : list B) :
  lsum (map (fun a => lsum (map (fun b => f a b) lb)) la)
  = lsum (map (fun b => lsum (map (fun a => f a b) la)) lb).
Proof.
  induction la as [|a la IH]; simpl.
  - symmetry. by apply lsum_map_zero.
  - rewrite IH. by rewrite lsum_map_add.
Qed.

Lemma lsum_cons (a : F) (l : list F) : lsum (a :: l) = (a + lsum l)%F.
Proof. reflexivity. Qed.

Lemma lsum_delta (g : partition -> F) (k : partition) (l : list partition) :
  NoDup l ->
  lsum (map (fun a => if decide (a = k) then g a else 0%F) l)
  = if decide (k ∈ l) then g k else 0%F.
Proof.
  intros Hl. induction Hl as [|a l Ha Hl IH].
  - by rewrite decide_False by apply not_elem_of_nil.
  - rewrite map_cons, lsum_cons, IH.
    destruct (decide (a = k)) as [->|Hak].
    + rewrite (decide_False (P := k ∈ l)) by done.
      rewrite decide_True by apply list_elem_of_here. ring.
    + destruct (decide (k ∈ l)) as [Hk|Hk].
      * rewrite decide_True by (by apply list_elem_of_further). ring.
      * rewrite decide_False; [ring|].
        intros [?|?]%elem_of_cons; congruence.
Qed.

(** A sum over the terms of an element whose support lies in a list
    without repetitions is a sum over the list. *)
Lemma msum_list (g : partition -> F) (l : list partition) (y : coeffs_t) :
  NoDup l ->
  (forall m c, y !! m = Some c -> In m l) ->
  msum (fun m c => (c * g m)%F) y
  = lsum (map (fun m => (coefficient y m * g m)%F) l).
Proof.
  intros Hl. revert y. induction Hl as [|a l Ha Hl IH]; intros y Hy.
  - assert (y = ∅) as ->.
    { apply map_empty. intros m. destruct (y !! m) as [c|] eqn:Hm; [|done].
      destruct (Hy m c Hm). }
    by rewrite msum_empty.
  - rewrite list_elem_of_In in Ha. simpl.
    assert (Hrest : forall m, In m l -> coefficient (delete a y) m = coefficient y m).
    { intros m Hm. unfold coefficient. rewrite lookup_delete_ne; [done|].
      intros <-. done. }
    assert (Hsupp : forall m c, delete a y !! m = Some c -> In m l).
    { intros m c Hm. destruct (decide (a = m)) as [->|Hne].
      - by rewrite lookup_delete_eq in Hm.
      - rewrite lookup_delete_ne in Hm by done.
        destruct (Hy m c Hm) as [?|?]; [congruence|done]. }
    destruct (y !! a) as [c|] eqn:Hya.
    + unfold msum.
      rewrite (map_fold_delete_L _ _ a c y); [|intros; ring|done].
      fold (msum (fun m c => (c * g m)%F) (delete a y)).
      rewrite (IH _ Hsupp).
      rewrite (lsum_map_ext _ _ (fun m => (coefficient y m * g m)%F)).
      2:{ intros m Hm. by rewrite Hrest. }
      unfold coefficient at 2. rewrite Hya. simpl. ring.
    + rewrite <- (delete_id y a) at 1 by done.
      rewrite (IH _ Hsupp).
      rewrite (lsum_map_ext _ _ (fun m => (coefficient y m * g m)%F)).
      2:{ intros m Hm. by rewrite Hrest. }
      unfold coefficient at 2. rewrite Hya. simpl. ring.
Qed.

Lemma lsum_map_nth (h : partition -> F) (l : list partition) :
  lsum (map h l) = lsum (map (fun j => h (nth j l [])) (seq 0 (length l))).
Proof.
  induction l as [|a l IH]; [done|].
  simpl. rewrite <- seq_shift, map_map. by rewrite IH.
Qed.

Lemma dot_nth (u v : list F) :
  dot u v = lsum (map (fun j => (nth j u 0 * nth j v 0)%F) (seq 0 (length v))).
Proof.
  unfold dot. revert u. induction v as [|y v IH]; intros u.
  - by destruct u.
  - destruct u as [|x u]; simpl.
    + rewrite <- seq_shift, map_map. symmetry.
      rewrite lsum_map_zero; [ring|]. intros j _. destruct j; ring.
    + rewrite <- seq_shift, map_map. by rewrite IH.
Qed.

Lemma nth_column (k j : nat) (B : matrix) :
  nth j (column k B) 0%F = nth k (nth j B []) 0%F.
Proof.
  unfold column. revert j. induction B as [|row B IH]; intros j.
  - destruct j, k; done.
  - destruct j; simpl; [done|apply IH].
Qed.

Lemma length_column (k : nat) (B : matrix) : length (column k B) = length B.
Proof. apply length_map. Qed.

Lemma nth_map_lt (A B : Type) (f : A -> B) (l : list A) (i : nat) (d : B) (d' : A) :
  i < length l -> nth i (map f l) d = f (nth i l d').
Proof.
  intros Hi. rewrite (nth_indep _ d (f d')) by (rewrite length_map; lia).
  apply map_nth.
Qed.

Lemma nth_map_seq (B : Type) (f : nat -> B) (n k : nat) (d : B) :
  k < n -> nth k (map f (seq 0 n)) d = f k.
Proof.
  intros Hk. rewrite (nth_map_lt _ _ f _ _ _ 0) by (rewrite length_seq; lia).
  by rewrite seq_nth.
Qed.

(** The entries of a product of matrices that is the identity. *)
Lemma mat_mul_identity_entry (n : nat) (A B : matrix) (i k : nat) :
  length A = n -> length B = n ->
  mat_mul n A B = identity n ->
  i < n -> k < n ->
  lsum (map (fun j => (nth j (nth i A []) 0 * nth k (nth j B []) 0)%F) (seq 0 n))
  = if decide (i = k) then 1%F else 0%F.
Proof.
  intros HA HB Hmul Hi Hk.
  apply (f_equal (fun M => nth k (nth i M []) 0%F)) in Hmul.
  unfold mat_mul, identity in Hmul.
  rewrite (nth_map_lt _ _ _ _ _ _ []) in Hmul by lia.
  rewrite nth_map_seq in Hmul by done.
  rewrite (nth_map_seq _ _ _ i) in Hmul by done.
  rewrite nth_map_seq in Hmul by done.
  rewrite <- Hmul, dot_nth, length_column, HB.
  apply lsum_map_ext. intros j _. by rewrite nth_column.
Qed.

End Sums.

(** ** Tables and their inverses *)

Section TableFacts.
Context `{ScalarField}.

Add Field scalar_field_t : F_theory.

Lemma sparse_row_nil_r (pn : list partition) : sparse_row pn [] = ∅.
Proof. by destruct pn. Qed.

Lemma sparse_row_cons (p : partition) (pn : list partition) (r : F) (row : list F) :
  sparse_row (p :: pn) (r :: row)
  = if decide (r = 0%F) then sparse_row pn row else <[p := r]> (sparse_row pn row).
Proof.
  unfold sparse_row. simpl. case_bool_decide; simpl.
  - by rewrite decide_True.
  - by rewrite decide_False.
Qed.

Lemma sparse_row_notin (pn : list partition) (row : list F) (m : partition) :
  m ∉ pn -> sparse_row pn row !! m = None.
Proof.
  revert row. induction pn as [|p pn IH]; intros row Hm.
  - done.
  - destruct row as [|r row]; [by rewrite sparse_row_nil_r|].
    apply not_elem_of_cons in Hm as [Hne Hm].
    rewrite sparse_row_cons. case_decide.
    + by apply IH.
    + rewrite lookup_insert_ne by done. by apply IH.
Qed.

Lemma sparse_row_support (pn : list partition) (row : list F) (m : partition) (c : F) :
  sparse_row pn row !! m = Some c -> m ∈ pn.
Proof.
  intros Hm. destruct (decide (m ∈ pn)) as [|Hn]; [done|].
  by rewrite sparse_row_notin in Hm.
Qed.

Lemma canonical_sparse_row (pn : list partition) (row : list F) :
  canonical (sparse_row pn row).
Proof.
  revert row. induction pn as [|p pn IH]; intros row m.
  - done.
  - destruct row as [|r row]; [by rewrite sparse_row_nil_r|].
    rewrite sparse_row_cons. case_decide as Hr; [apply IH|].
    destruct (decide (p = m)) as [->|Hne].
    + rewrite lookup_insert_eq. congruence.
    + rewrite lookup_insert_ne by done. apply IH.
Qed.

Lemma coefficient_sparse_row (pn : list partition) (row : list F) (j : nat) :
  NoDup pn -> j < length pn ->
  coefficient (sparse_row pn row) (nth j pn []) = nth j row 0%F.
Proof.
  intros Hpn. revert row j.
  induction Hpn as [|p pn Hp Hpn IH]; intros row j Hj; [simpl in Hj; lia|].
  destruct row as [|r row].
  { rewrite sparse_row_nil_r, coefficient_empty. by destruct j. }
  rewrite sparse_row_cons. destruct j as [|j]; simpl.
  - case_decide as Hr.
    + unfold coefficient. by rewrite sparse_row_notin.
    + unfold coefficient. by rewrite lookup_insert_eq.
  - simpl in Hj.
    assert (Hne : p <> nth j pn []).
    { intros ->. apply Hp, list_elem_of_In, nth_In. lia. }
    case_decide as Hr.
    + apply IH. lia.
    + unfold coefficient. rewrite lookup_insert_ne by done. apply IH. lia.
Qed.

Lemma coefficient_sparse_row_notin (pn : list partition) (row : list F)
    (m : partition) :
  m ∉ pn -> coefficient (sparse_row pn row) m = 0%F.
Proof. intros Hm. unfold coefficient. by rewrite sparse_row_notin. Qed.

Lemma lookup_zip_nth (V : Type) (ks : list partition) (vs : list V)
    (j : nat) (d : V) :
  NoDup ks -> j < length ks -> j < length vs ->
  (list_to_map (zip ks vs) : gmap partition V) !! nth j ks [] = Some (nth j vs d).
Proof.
  intros Hks. revert vs j.
  induction Hks as [|p ks Hp Hks IH]; intros vs j Hj Hv; [simpl in Hj; lia|].
  destruct vs as [|v vs]; [simpl in Hv; lia|].
  destruct j as [|j]; simpl.
  - by rewrite lookup_insert_eq.
  - simpl in Hj, Hv. rewrite lookup_insert_ne.
    + apply IH; lia.
    + intros ->. apply Hp, list_elem_of_In, nth_In. lia.
Qed.

Lemma lookup_zip_notin (V : Type) (ks : list partition) (vs : list V)
    (m : partition) :
  m ∉ ks -> (list_to_map (zip ks vs) : gmap partition V) !! m = None.
Proof.
  revert vs. induction ks as [|p ks IH]; intros vs Hm; [done|].
  destruct vs as [|v vs]; [done|].
  apply not_elem_of_cons in Hm as [Hne Hm]. simpl.
  rewrite lookup_insert_ne by done. by apply IH.
Qed.

Lemma entry_table_of_matrix (pn : list partition) (M : matrix) (i j : nat) :
  NoDup pn -> length M = length pn -> i < length pn -> j < length pn ->
  entry (table_of_matrix pn M) (nth i pn []) (nth j pn []) = nth j (nth i M []) 0%F.
Proof.
  intros Hpn HM Hi Hj. unfold entry, table_of_matrix.
  rewrite (lookup_zip_nth _ _ _ _ ∅) by (done || (rewrite ?length_map; lia)).
  simpl. rewrite (nth_map_lt _ _ _ _ _ _ []) by lia.
  by apply coefficient_sparse_row.
Qed.

Lemma entry_table_of_matrix_notin (pn : list partition) (M : matrix)
    (lam mu : partition) :
  mu ∉ pn -> entry (table_of_matrix pn M) lam mu = 0%F.
Proof.
  intros Hmu. unfold entry, table_of_matrix.
  destruct (list_to_map _ !! lam) as [row|] eqn:Hrow; simpl;
    [|apply coefficient_empty].
  apply elem_of_list_to_map_2, list_elem_of_In, in_combine_r in Hrow.
  apply in_map_iff in Hrow as (r & <- & _).
  by apply coefficient_sparse_row_notin.
Qed.

Lemma lookup_table_of_matrix_is_Some (pn : list partition) (M : matrix)
    (lam : partition) :
  NoDup pn -> length M = length pn -> lam ∈ pn ->
  is_Some (table_of_matrix pn M !! lam).
Proof.
  intros Hpn HM Hlam. apply list_elem_of_In, (In_nth _ _ []) in Hlam as (i & Hi & <-).
  unfold table_of_matrix.
  rewrite (lookup_zip_nth _ _ _ _ ∅) by (done || (rewrite ?length_map; lia)). by eexists.
Qed.

(** The entries of the two tables built from matrices whose product
    is the identity. *)
Lemma entry_product (pn : list partition) (A B : matrix) (lam kap : partition) :
  NoDup pn -> length A = length pn -> length B = length pn ->
  mat_mul (length pn) A B = identity (length pn) ->
  lam ∈ pn -> kap ∈ pn ->
  lsum (map (fun mu => (entry (table_of_matrix pn A) lam mu
                        * entry (table_of_matrix pn B) mu kap)%F) pn)
  = if decide (lam = kap) then 1%F else 0%F.
Proof.
  intros Hpn HA HB Hmul Hlam Hkap.
  apply list_elem_of_In, (In_nth _ _ []) in Hlam as (i & Hi & <-).
  apply list_elem_of_In, (In_nth _ _ []) in Hkap as (k & Hk & <-).
  rewrite lsum_map_nth.
  rewrite (lsum_map_ext _ _
             (fun j => (nth j (nth i A []) 0 * nth k (nth j B []) 0)%F)).
  2:{ intros j Hj%in_seq. rewrite !entry_table_of_matrix by (done || lia). done. }
  rewrite (mat_mul_identity_entry _ A B i k) by done.
  apply NoDup_ListNoDup in Hpn.
  destruct (decide (i = k)) as [->|Hik].
  - by rewrite decide_True.
  - rewrite decide_False; [done|]. intros Heq. apply Hik.
    by apply (proj1 (NoDup_nth pn []) Hpn).
Qed.

Lemma coefficient_insert (m k : partition) (v : F) (z : coeffs_t) :
  coefficient (<[m := v]> z) k = if decide (m = k) then v else coefficient z k.
Proof.
  unfold coefficient. case_decide as Hmk.
  - subst. by rewrite lookup_insert_eq.
  - by rewrite lookup_insert_ne.
Qed.

(** One pass of the inner loop of [_from_cache]. *)
Lemma coefficient_expand (c : F) (row z : coeffs_t) (k : partition) :
  coefficient
    (map_fold
       (fun part2 c2 z' => <[part2 := (default 0 (z' !! part2) + c * c2)%F]> z')
       z row) k
  = (coefficient z k + c * coefficient row k)%F.
Proof.
  induction row as [|m c2 row Hm Hfirst IH] using map_first_key_ind.
  - rewrite map_fold_empty, coefficient_empty. ring.
  - rewrite map_fold_insert_first_key by done.
    rewrite !coefficient_insert.
    destruct (decide (m = k)) as [->|Hne].
    + change (default 0%F (?z' !! k)) with (coefficient z' k).
      rewrite IH. unfold coefficient at 2. rewrite Hm. simpl. ring.
    + apply IH.
Qed.

(** One pass of the inner loop of [_from_cache], where the
    substitution is defined on the entries of the row. *)
Lemma coefficient_expand_subs (sub : F -> result F) (sv : F -> F) (c : F)
    (row z : coeffs_t) :
  (forall k e, row !! k = Some e -> sub e = Ok (sv e)) ->
  sv 0%F = 0%F ->
  exists z',
    map_fold
      (fun part2 c2 res =>
         do z' <- res;
         do c3 <- sub c2;
         Ok (<[part2 := (default 0 (z' !! part2) + c * c3)%F]> z'))
      (Ok z) row
    = Ok z'
    /\ forall k, coefficient z' k = (coefficient z k + c * sv (coefficient row k))%F.
Proof.
  intros Hsub Hsv0.
  induction row as [|m c2 row Hm Hfirst IH] using map_first_key_ind.
  - exists z. rewrite map_fold_empty. split; [done|].
    intros k. rewrite coefficient_empty, Hsv0. ring.
  - destruct IH as (z' & Hz' & Hcoef).
    { intros k e Hk. apply (Hsub k e).
      rewrite lookup_insert_ne; [done|congruence]. }
    rewrite map_fold_insert_first_key by done. rewrite Hz'. cbn [rbind].
    rewrite (Hsub m c2) by apply lookup_insert_eq. cbn [rbind].
    eexists. split; [done|]. intros k.
    rewrite coefficient_insert.
    destruct (decide (m = k)) as [->|Hne].
    + change (default 0%F (z' !! k)) with (coefficient z' k).
      assert (E1 : coefficient row k = 0%F) by (unfold coefficient; by rewrite Hm).
      assert (E2 : coefficient (<[k:=c2]> row) k = c2)
        by (unfold coefficient; by rewrite lookup_insert_eq).
      rewrite Hcoef, E1, E2, Hsv0. ring.
    + assert (E : coefficient (<[m:=c2]> row) k = coefficient row k)
        by (unfold coefficient; by rewrite lookup_insert_ne).
      by rewrite Hcoef, E.
Qed.

(** [_from_cache] on an element of one degree whose table is in the
    cache, where the substitution is defined on the entries that are
    read: nothing is computed, and the coefficients of the result
    are the sums of the products with the substituted entries of the
    table. *)
Lemma from_cache_hit (x : coeffs_t) (cache_function : nat -> ST caches unit)
    (cache_dict : caches -> gmap nat table) (sub : F -> result F) (sv : F -> F)
    (st : caches) (n : nat) (T : table) :
  cache_dict st !! n = Some T ->
  (forall m c, x !! m = Some c -> size m = n /\ is_Some (T !! m)) ->
  (forall m c row k e,
      x !! m = Some c -> T !! m = Some row -> row !! k = Some e ->
      sub e = Ok (sv e)) ->
  sv 0%F = 0%F ->
  exists z,
    _from_cache x cache_function cache_dict sub st = (Ok (from_dict z), st)
    /\ forall k, coefficient z k = msum (fun m c => (c * sv (entry T m k))%F) x.
Proof.
  intros HT Hx Hsub Hsv0. unfold _from_cache.
  match goal with
  | |- context [map_fold ?f (ret ∅) x] => set (step := f)
  end.
  assert (Hfold : exists z,
             map_fold step (ret ∅) x st = (Ok z, st)
             /\ forall k, coefficient z k
                          = msum (fun m c => (c * sv (entry T m k))%F) x).
  { clear -HT Hx Hsub Hsv0. unfold msum.
    induction x as [|m c x Hm Hfirst IH] using map_first_key_ind.
    - exists ∅. rewrite map_fold_empty. split; [done|].
      intros k. by rewrite map_fold_empty, coefficient_empty.
    - destruct IH as (z & Hz & Hcoef).
      { intros m' c' Hm'. apply (Hx m' c').
        rewrite lookup_insert_ne; [done|congruence]. }
      { intros m' c' row k e Hm'. apply (Hsub m' c').
        rewrite lookup_insert_ne; [done|congruence]. }
      destruct (Hx m c) as [Hsize [row Hrow]]; [apply lookup_insert_eq|].
      destruct (coefficient_expand_subs sub sv c row z) as (z' & Hz' & Hcoef');
        [|done|].
      { intros k e. apply (Hsub m c row k e); [apply lookup_insert_eq|done]. }
      exists z'. split.
      + rewrite map_fold_insert_first_key by done.
        unfold step at 1. unfold bind. rewrite Hz.
        rewrite Hsize, HT. rewrite decide_True by (by eexists).
        cbv beta iota. rewrite HT, Hrow. unfold lift. by rewrite Hz'.
      + intros k. rewrite map_fold_insert_first_key by done.
        rewrite Hcoef', Hcoef. unfold entry. by rewrite Hrow. }
  destruct Hfold as (z & Hz & Hcoef). exists z. split; [|done].
  unfold bind. by rewrite Hz.
Qed.

End TableFacts.

(** ** Round trips through a table and its inverse *)

Section RoundTrips.
Context `{ScalarField} `{!Substitution}.

Add Field scalar_field_r : F_theory.

Lemma mapM_r_length (A B : Type) (f : A -> result B) (l : list A) (l' : list B) :
  mapM_r f l = Ok l' -> length l' = length l.
Proof.
  revert l'. induction l as [|a l IH]; intros l'; simpl.
  - by intros [= <-].
  - destruct (f a) as [b|]; simpl; [|done].
    destruct (mapM_r f l) as [bs|]; simpl; [|done].
    intros [= <-]. simpl. f_equal. by apply IH.
Qed.

Lemma matrix_inverse_sound (A B : matrix) :
  matrix_inverse A = Some B ->
  mat_mul (length A) A B = identity (length A)
  /\ mat_mul (length A) B A = identity (length A).
Proof.
  unfold matrix_inverse.
  destruct (gauss_jordan _ _ _) as [rows|]; [|done].
  case_decide as Hinv; [|done]. by intros [= <-].
Qed.

Lemma length_identity (n : nat) : length (identity n) = n.
Proof. unfold identity. by rewrite length_map, length_seq. Qed.

Lemma length_mat_mul (n : nat) (A B : matrix) : length (mat_mul n A B) = length A.
Proof. unfold mat_mul. by rewrite length_map. Qed.

(** What [_s_cache(n)] leaves in the cache when it has to compute the
    tables of degree [n]: two tables whose matrices are inverse to
    each other. *)
Lemma s_cache_computed (_to_s : partition -> result (partition -> F))
    (n : nat) (st0 st : caches) :
  self_to_s_cache st0 !! n = None \/ s_to_self_cache st0 !! n = None ->
  _s_cache _to_s n st0 = (Ok tt, st) ->
  exists A B : matrix,
    length A = length (Partitions n)
    /\ length B = length (Partitions n)
    /\ mat_mul (length (Partitions n)) A B = identity (length (Partitions n))
    /\ mat_mul (length (Partitions n)) B A = identity (length (Partitions n))
    /\ self_to_s_cache st !! n = Some (table_of_matrix (Partitions n) A)
    /\ s_to_self_cache st !! n = Some (table_of_matrix (Partitions n) B).
Proof.
  intros Hfresh. unfold _s_cache, _invert_morphism.
  rewrite decide_False.
  2:{ intros [[? H1] [? H2]]. destruct Hfresh; congruence. }
  destruct (mapM_r _ (Partitions n)) as [A|] eqn:HA; simpl; [|done].
  apply mapM_r_length in HA.
  destruct (matrix_inverse A) as [B|] eqn:HB; [|done].
  apply matrix_inverse_sound in HB as [HAB HBA]. rewrite HA in HAB, HBA.
  intros [= <-]. exists A, B. simpl. rewrite !lookup_insert_eq.
  repeat split; try done.
  apply (f_equal length) in HBA. by rewrite length_mat_mul, length_identity in HBA.
Qed.

(** The value of a substitution, where it is defined. *)
Lemma subs_lsum (A : Type) (q t : F) (f g : A -> F) (l : list A) :
  (forall a, In a l -> subs q t (f a) = Ok (g a)) ->
  subs q t (lsum (map f l)) = Ok (lsum (map g l)).
Proof.
  induction l as [|a l IH]; intros Hfg; simpl.
  - apply subs_zero.
  - apply subs_add; [apply Hfg; by left|].
    apply IH. intros b Hb. apply Hfg. by right.
Qed.

(** Substituting in the entries of two tables built from matrices
    whose product is the identity gives tables with the same
    property, where the substitution is defined. *)
Lemma entry_product_subs (q t : F) (sv : F -> F) (pn : list partition)
    (A B : matrix) (lam kap : partition) :
  NoDup pn -> length A = length pn -> length B = length pn ->
  mat_mul (length pn) A B = identity (length pn) ->
  (forall a b, subs q t (entry (table_of_matrix pn A) a b)
               = Ok (sv (entry (table_of_matrix pn A) a b))) ->
  (forall a b, subs q t (entry (table_of_matrix pn B) a b)
               = Ok (sv (entry (table_of_matrix pn B) a b))) ->
  lam ∈ pn -> kap ∈ pn ->
  lsum (map (fun mu => (sv (entry (table_of_matrix pn A) lam mu)
                        * sv (entry (table_of_matrix pn B) mu kap))%F) pn)
  = if decide (lam = kap) then 1%F else 0%F.
Proof.
  intros Hpn HA HB Hmul HsA HsB Hlam Hkap.
  assert (Hs : subs q t
                 (lsum (map (fun mu => (entry (table_of_matrix pn A) lam mu
                                        * entry (table_of_matrix pn B) mu kap)%F) pn))
               = Ok (lsum (map (fun mu =>
                                  (sv (entry (table_of_matrix pn A) lam mu)
                                   * sv (entry (table_of_matrix pn B) mu kap))%F)
                               pn))).
  { apply subs_lsum. intros mu _. by apply subs_mul. }
  rewrite entry_product in Hs by done.
  case_decide.
  - rewrite subs_one in Hs. by injection Hs as <-.
  - rewrite subs_zero in Hs. by injection Hs as <-.
Qed.

(** Expanding by a table and then by the table of the inverse matrix,
    both read through the substitution, gives back the coefficients. *)
Lemma table_composition (q t : F) (sv : F -> F) (pn : list partition)
    (A B : matrix) (x : coeffs_t) (k : partition) :
  NoDup pn -> length A = length pn -> length B = length pn ->
  mat_mul (length pn) A B = identity (length pn) ->
  (forall a b, subs q t (entry (table_of_matrix pn A) a b)
               = Ok (sv (entry (table_of_matrix pn A) a b))) ->
  (forall a b, subs q t (entry (table_of_matrix pn B) a b)
               = Ok (sv (entry (table_of_matrix pn B) a b))) ->
  sv 0%F = 0%F ->
  (forall m c, x !! m = Some c -> m ∈ pn) ->
  lsum (map (fun mu =>
               (lsum (map (fun lam =>
                             (coefficient x lam
                              * sv (entry (table_of_matrix pn A) lam mu))%F) pn)
                * sv (entry (table_of_matrix pn B) mu k))%F) pn)
  = coefficient x k.
Proof.
  intros Hpn HA HB Hmul HsA HsB Hsv0 Hx.
  destruct (decide (k ∈ pn)) as [Hk|Hk].
  - rewrite (lsum_map_ext _ _
      (fun mu => lsum (map (fun lam =>
         (coefficient x lam * (sv (entry (table_of_matrix pn A) lam mu)
                               * sv (entry (table_of_matrix pn B) mu k)))%F) pn))).
    2:{ intros mu _. rewrite <- lsum_map_scal_r. apply lsum_map_ext.
        intros lam _. ring. }
    rewrite lsum_swap.
    rewrite (lsum_map_ext _ _
      (fun lam => if decide (lam = k) then coefficient x lam else 0%F)).
    2:{ intros lam Hlam%list_elem_of_In. rewrite lsum_map_scal.
        rewrite (entry_product_subs q t) by done. case_decide; ring. }
    rewrite lsum_delta by done. by rewrite decide_True.
  - rewrite lsum_map_zero.
    2:{ intros mu _. rewrite (entry_table_of_matrix_notin _ B) by done.
        rewrite Hsv0. ring. }
    unfold coefficient. destruct (x !! k) as [c|] eqn:Hxk; [|done].
    destruct Hk. by apply (Hx k c).
Qed.

(** The value that a substitution gives, and zero where it raises. *)
Lemma subs_value (q t : F) :
  exists sv : F -> F,
    sv 0%F = 0%F
    /\ forall c v, subs q t c = Ok v -> subs q t c = Ok (sv c).
Proof.
  exists (fun c => match subs q t c with Ok v => v | Raise _ => 0%F end).
  split.
  - by rewrite subs_zero.
  - intros c v Hc. by rewrite Hc.
Qed.

Lemma entry_lookup (T : table) (lam mu : partition) (row : coeffs_t) (e : F) :
  T !! lam = Some row -> row !! mu = Some e -> entry T lam mu = e.
Proof. intros Hrow He. unfold entry, coefficient. rewrite Hrow. simpl. by rewrite He. Qed.

(** The round trip of an element of one degree through two tables of
    that degree whose matrices are inverse to each other, where the
    substitution is defined on the entries of the two tables. *)
Lemma round_trip_tables (cache_function : nat -> ST caches unit)
    (cd1 cd2 : caches -> gmap nat table) (q t : F) (st : caches) (n : nat)
    (A B : matrix) (x : coeffs_t) :
  cd1 st !! n = Some (table_of_matrix (Partitions n) A) ->
  cd2 st !! n = Some (table_of_matrix (Partitions n) B) ->
  length A = length (Partitions n) ->
  length B = length (Partitions n) ->
  mat_mul (length (Partitions n)) A B = identity (length (Partitions n)) ->
  (forall a b, exists v,
      subs q t (entry (table_of_matrix (Partitions n) A) a b) = Ok v) ->
  (forall a b, exists v,
      subs q t (entry (table_of_matrix (Partitions n) B) a b) = Ok v) ->
  canonical x -> homogeneous n x ->
  (run y <- _from_cache x cache_function cd1 (subs q t);
   _from_cache y cache_function cd2 (subs q t)) st
  = (Ok x, st).
Proof.
  intros H1 H2 HA HB Hmul HdA HdB Hcan Hhom.
  destruct (subs_value q t) as (sv & Hsv0 & Hsv).
  assert (HsA : forall a b,
             subs q t (entry (table_of_matrix (Partitions n) A) a b)
             = Ok (sv (entry (table_of_matrix (Partitions n) A) a b))).
  { intros a b. destruct (HdA a b) as [v Hv]. by apply (Hsv _ v). }
  assert (HsB : forall a b,
             subs q t (entry (table_of_matrix (Partitions n) B) a b)
             = Ok (sv (entry (table_of_matrix (Partitions n) B) a b))).
  { intros a b. destruct (HdB a b) as [v Hv]. by apply (Hsv _ v). }
  pose proof (Partitions_NoDup n) as Hpn.
  assert (Hx : forall m c, x !! m = Some c -> m ∈ Partitions n).
  { intros m c Hm. apply list_elem_of_In. by apply (Hhom m c). }
  destruct (from_cache_hit x cache_function cd1 (subs q t) sv st n _ H1)
    as (z1 & Hz1 & Hc1); [| |done|].
  { intros m c Hm. split.
    - apply Partitions_size. by apply (Hhom m c).
    - apply lookup_table_of_matrix_is_Some; eauto. }
  { intros m c row k e _ Hrow He.
    rewrite <- (entry_lookup _ m k row e Hrow He). apply HsA. }
  assert (Hc1' : forall k, coefficient (from_dict z1) k
            = lsum (map (fun lam =>
                           (coefficient x lam
                            * sv (entry (table_of_matrix (Partitions n) A) lam k))%F)
                        (Partitions n))).
  { intros k. rewrite coefficient_from_dict, Hc1.
    apply (msum_list (fun lam =>
             sv (entry (table_of_matrix (Partitions n) A) lam k))); done. }
  assert (Hy : forall m c, from_dict z1 !! m = Some c -> m ∈ Partitions n).
  { intros m c Hm. destruct (decide (m ∈ Partitions n)) as [|Hn]; [done|].
    rewrite (coefficient_lookup_None (from_dict z1) m) in Hm; [done| |].
    - apply canonical_from_dict.
    - rewrite Hc1'. apply lsum_map_zero. intros lam _.
      rewrite entry_table_of_matrix_notin by done. rewrite Hsv0. ring. }
  destruct (from_cache_hit (from_dict z1) cache_function cd2 (subs q t) sv st n _ H2)
    as (z2 & Hz2 & Hc2); [| |done|].
  { intros m c Hm. split.
    - apply Partitions_size, list_elem_of_In. by apply (Hy m c).
    - apply lookup_table_of_matrix_is_Some; eauto. }
  { intros m c row k e _ Hrow He.
    rewrite <- (entry_lookup _ m k row e Hrow He). apply HsB. }
  unfold bind. rewrite Hz1, Hz2. f_equal. f_equal.
  apply elt_ext; [apply canonical_from_dict|done|].
  intros k. rewrite coefficient_from_dict, Hc2.
  rewrite (msum_list (fun mu =>
             sv (entry (table_of_matrix (Partitions n) B) mu k)) (Partitions n))
    by (done || (intros m c Hm; apply list_elem_of_In; eauto)).
  rewrite (lsum_map_ext _ _
    (fun mu => (lsum (map (fun lam =>
                  (coefficient x lam
                   * sv (entry (table_of_matrix (Partitions n) A) lam mu))%F)
                  (Partitions n))
                * sv (entry (table_of_matrix (Partitions n) B) mu k))%F)).
  2:{ intros mu _. by rewrite Hc1'. }
  by apply (table_composition q t).
Qed.

(** C3, as the code has it: the round trip between J and P is the
    identity on the elements on whose support [c2] does not vanish,
    the round trip between J and Q on those on whose support neither
    [c1] nor [c2] vanishes, and for a basis defined by its expansion
    into the Schur functions (H, Ht, S, and J itself) the round trip
    through the Schur functions is the identity on the elements of a
    degree [n] when the tables of degree [n] in the caches are those
    that [_s_cache(n)] of the basis computed and the substitution
    [q = self.q, t = self.t], through which the entries are read, is
    defined on every entry of the two tables.  For generic parameters
    [c1] and [c2] vanish on no partition. *)
Theorem round_trip_identities (q t : F) :
  (forall x : coeffs_t,
      canonical x ->
      (forall m c, x !! m = Some c -> c2 m q t <> 0%F) ->
      (do y <- J_to_P q t x; P_to_J q t y) = Ok x
      /\ (do y <- P_to_J q t x; J_to_P q t y) = Ok x)
  /\ (forall x : coeffs_t,
         canonical x ->
         (forall m c, x !! m = Some c -> c1 m q t <> 0%F /\ c2 m q t <> 0%F) ->
         (do y <- J_to_Q q t x; Q_to_J q t y) = Ok x
         /\ (do y <- Q_to_J q t x; J_to_Q q t y) = Ok x)
  /\ (forall (_to_s : partition -> result (partition -> F)) (n : nat)
             (st0 st : caches) (x : coeffs_t),
         self_to_s_cache st0 !! n = None \/ s_to_self_cache st0 !! n = None ->
         _s_cache _to_s n st0 = (Ok tt, st) ->
         (forall (T : table) (lam mu : partition),
             self_to_s_cache st !! n = Some T \/ s_to_self_cache st !! n = Some T ->
             exists v, subs q t (entry T lam mu) = Ok v) ->
         canonical x -> homogeneous n x ->
         (run y <- _self_to_s _to_s q t x; _s_to_self _to_s q t y) st = (Ok x, st)
         /\ (run y <- _s_to_self _to_s q t x; _self_to_s _to_s q t y) st
            = (Ok x, st))
  /\ (generic_parameters q t ->
      forall lam : partition, c1 lam q t <> 0%F /\ c2 lam q t <> 0%F).
Proof.
  split; [|split; [|split]].
  - intros x Hx Hc2. by apply round_trip_J_P.
  - intros x Hx Hc. by apply round_trip_J_Q.
  - intros _to_s n st0 st x Hfresh Hcache Hdef Hx Hhom.
    destruct (s_cache_computed _to_s n st0 st Hfresh Hcache)
      as (A & B & HA & HB & HAB & HBA & HTA & HTB).
    unfold _self_to_s, _s_to_self. split.
    + apply (round_trip_tables _ self_to_s_cache s_to_self_cache q t st n A B);
        try done.
      * intros a b. apply Hdef. by left.
      * intros a b. apply Hdef. by right.
    + apply (round_trip_tables _ s_to_self_cache self_to_s_cache q t st n B A);
        try done.
      * intros a b. apply Hdef. by right.
      * intros a b. apply Hdef. by left.
  - intros Hgen lam. by apply c1_c2_generic_nonzero.
Qed.

End RoundTrips.

(** C3 as stated fails: in the J and P bases with [t = 1] the scalar
    [c2([1])] is zero, [J([1])] is sent to zero in P and does not
    come back. *)
Lemma round_trip_J_P_J_not_identity :
  ~ (forall (K : ScalarField) (q t : F) (lam : partition),
        (do y <- J_to_P q t (basis_elt lam); P_to_J q t y) = Ok (basis_elt lam)).
Proof.
  intros Hc. specialize (Hc Qc_field (Qc_of_Z 2) (Qc_of_Z 1) [1]).
  apply (f_equal (fun r => match r with
                           | Ok x => this (@coefficient Qc_field x [1])
                           | Raise _ => 0%Q
                           end)) in Hc.
  vm_compute in Hc. discriminate Hc.
Qed.

(** ** The two omega maps on the S basis *)

Section OmegaFacts.
Context `{ScalarField} `{!Substitution}.

Add Field scalar_field_o : F_theory.

Lemma basis_elt_term (m : partition) : basis_elt m = term m 1%F.
Proof. unfold term. by rewrite decide_False by apply fone_neq_fzero. Qed.

Lemma canonical_term (m : partition) (c : F) : canonical (term m c).
Proof.
  unfold term. case_decide as Hc; [apply canonical_empty|].
  intros k. destruct (decide (m = k)) as [->|Hne].
  - rewrite lookup_singleton_eq. congruence.
  - by rewrite lookup_singleton_ne.
Qed.

Lemma coefficient_term (m k : partition) (c : F) :
  coefficient (term m c) k = if decide (m = k) then c else 0%F.
Proof.
  unfold term, coefficient. case_decide as Hc.
  - rewrite lookup_empty. simpl. by case_decide.
  - case_decide as Hmk.
    + subst. by rewrite lookup_singleton_eq.
    + by rewrite lookup_singleton_ne.
Qed.

Lemma term_eq (m : partition) (c d : F) : c = d -> term m c = term m d.
Proof. by intros ->. Qed.

Lemma from_dict_singleton (m : partition) (c : F) :
  from_dict {[ m := c ]} = term m c.
Proof.
  unfold from_dict, term. rewrite omap_singleton. by case_decide.
Qed.

Lemma elt_scal_term (c d : F) (m : partition) :
  elt_scal c (term m d) = term m (c * d)%F.
Proof.
  apply elt_ext; [apply canonical_elt_scal|apply canonical_term|].
  intros k. rewrite coefficient_elt_scal, !coefficient_term.
  case_decide; ring.
Qed.

Lemma apply_module_morphism_term (m : partition) (c : F)
    (f : partition -> coeffs_t) :
  apply_module_morphism (term m c) f = elt_scal c (f m).
Proof.
  unfold apply_module_morphism, term. case_decide as Hc.
  - rewrite map_fold_empty. subst. symmetry.
    apply elt_ext; [apply canonical_elt_scal|apply canonical_empty|].
    intros k. rewrite coefficient_elt_scal, coefficient_empty. ring.
  - rewrite map_fold_singleton. apply elt_add_empty_l.
Qed.

Lemma s_to_p_basis_one : s_to_p_basis [1] = term [1] 1%F.
Proof.
  unfold s_to_p_basis.
  change (Partitions (size [1])) with [[1]].
  change (character [1] [1]) with 1%Z. change (zee [1]) with 1.
  unfold sum_of_terms. simpl.
  rewrite elt_add_empty_l, basis_elt_term, elt_scal_term.
  apply term_eq. replace (1 + 0)%F with 1%F by ring.
  field; apply fone_neq_fzero.
Qed.

Lemma p_to_s_basis_one : p_to_s_basis [1] = term [1] 1%F.
Proof.
  unfold p_to_s_basis.
  change (Partitions (size [1])) with [[1]].
  change (character [1] [1]) with 1%Z.
  unfold sum_of_terms. simpl.
  rewrite elt_add_empty_l, basis_elt_term, elt_scal_term.
  apply term_eq. ring.
Qed.

(** In degree 1 the Schur function and the power sum are the same. *)
Lemma s_to_p_term_one (c : F) : s_to_p (term [1] c) = term [1] c.
Proof.
  unfold s_to_p. rewrite apply_module_morphism_term, s_to_p_basis_one, elt_scal_term.
  apply term_eq. ring.
Qed.

Lemma p_to_s_term_one (c : F) : p_to_s (term [1] c) = term [1] c.
Proof.
  unfold p_to_s. rewrite apply_module_morphism_term, p_to_s_basis_one, elt_scal_term.
  apply term_eq. ring.
Qed.

Lemma S_to_s_one (t : F) : S_to_s t [1] = Ok (coefficient (term [1] (1 - t)%F)).
Proof.
  unfold S_to_s. rewrite basis_elt_term, s_to_p_term_one.
  unfold map_item, term at 1. rewrite decide_False by apply fone_neq_fzero.
  rewrite <- insert_empty.
  rewrite map_imap_insert_Some with (y := (1 - t)%F).
  2:{ unfold fprod. simpl. f_equal. ring. }
  rewrite map_imap_empty, insert_empty, from_dict_singleton.
  by rewrite p_to_s_term_one.
Qed.

Lemma matrix_inverse_one (a : F) :
  a <> 0%F -> matrix_inverse [[a]] = Some [[(1 / a * 1)%F]].
Proof.
  intros Ha. unfold matrix_inverse. simpl.
  rewrite decide_False by done. simpl.
  rewrite decide_True; [done|].
  unfold mat_mul, identity, dot. simpl.
  split; do 2 f_equal; field; exact Ha.
Qed.

Lemma sparse_row_one (b : F) : sparse_row [[1]] [b] = term [1] b.
Proof.
  rewrite sparse_row_cons, sparse_row_nil_r. unfold term.
  case_decide; [done|apply insert_empty].
Qed.

Lemma table_of_matrix_one (b : F) :
  table_of_matrix (Partitions 1) [[b]] !! [1] = Some (term [1] b).
Proof.
  change (Partitions 1) with [[1]]. unfold table_of_matrix. simpl.
  by rewrite lookup_insert_eq, sparse_row_one.
Qed.

Lemma one_minus_t_neq_zero (t : F) : t <> 1%F -> (1 - t)%F <> 0%F.
Proof.
  intros Ht Hz. apply Ht. transitivity (1 - (1 - t))%F; [ring|].
  rewrite Hz. ring.
Qed.

(** The tables of degree 1 of the S basis, computed in a state that
    lacks one of them. *)
Lemma S_s_cache_one_computes (t : F) (st : caches) :
  t <> 1%F ->
  self_to_s_cache st !! 1 = None \/ s_to_self_cache st !! 1 = None ->
  _s_cache (S_to_s t) 1 st
  = (Ok tt,
     Caches (<[1 := table_of_matrix (Partitions 1) [[(1 - t)%F]]]>
               (self_to_s_cache st))
            (<[1 := table_of_matrix (Partitions 1) [[(1 / (1 - t) * 1)%F]]]>
               (s_to_self_cache st))).
Proof.
  intros Ht Hfresh. unfold _s_cache, _invert_morphism.
  rewrite decide_False.
  2:{ intros [[? H1] [? H2]]. destruct Hfresh; congruence. }
  change (Partitions 1) with [[1]]. cbn [mapM_r].
  rewrite S_to_s_one. cbn [rbind map].
  rewrite coefficient_term, decide_True by done.
  rewrite matrix_inverse_one by (by apply one_minus_t_neq_zero).
  done.
Qed.

Lemma S_s_cache_one (t : F) :
  t <> 1%F ->
  _s_cache (S_to_s t) 1 (Caches ∅ ∅) = (Ok tt, S_caches_degree_one t).
Proof. intros Ht. apply S_s_cache_one_computes; [done|by left]. Qed.

(** The inner loop of [_from_cache] for one term and a row with one
    entry that the substitution leaves as it is. *)
Lemma expand_term_subs (sub : F -> result F) (c b : F) (m : partition) :
  sub b = Ok b ->
  exists z,
    map_fold
      (fun part2 c2 res =>
         do z' <- res;
         do c3 <- sub c2;
         Ok (<[part2 := (default 0 (z' !! part2) + c * c3)%F]> z'))
      (Ok ∅) (term m b)
    = Ok z
    /\ from_dict z = term m (c * b)%F.
Proof.
  intros Hb.
  destruct (coefficient_expand_subs sub (fun e => e) c (term m b) ∅)
    as (z & Hz & Hcoef); [|done|].
  { intros k e He. unfold term in He. case_decide; [done|].
    by apply lookup_singleton_Some in He as [_ <-]. }
  exists z. split; [done|].
  apply elt_ext; [apply canonical_from_dict|apply canonical_term|].
  intros k. rewrite coefficient_from_dict, Hcoef, coefficient_empty,
    !coefficient_term.
  case_decide; ring.
Qed.

(** [_from_cache] on one term whose degree is in the cache. *)
Lemma from_cache_term_hit (m m' : partition) (c b : F)
    (cache_function : nat -> ST caches unit)
    (cache_dict : caches -> gmap nat table) (sub : F -> result F)
    (st : caches) (T : table) :
  cache_dict st !! size m = Some T ->
  T !! m = Some (term m' b) ->
  sub b = Ok b ->
  _from_cache (term m c) cache_function cache_dict sub st
  = (Ok (term m' (c * b)%F), st).
Proof.
  intros HT Hrow Hb. unfold _from_cache, bind, term at 1. case_decide as Hc.
  - rewrite map_fold_empty. unfold ret. subst. do 2 f_equal.
    apply elt_ext; [apply canonical_from_dict|apply canonical_term|].
    intros k. rewrite coefficient_from_dict, coefficient_empty, coefficient_term.
    case_decide; ring.
  - rewrite map_fold_singleton. unfold ret. rewrite HT.
    rewrite decide_True by (by eexists). rewrite HT, Hrow.
    destruct (expand_term_subs sub c b m' Hb) as (z & Hz & Hzt).
    unfold lift. by rewrite Hz, Hzt.
Qed.

(** [_from_cache] on one term whose degree is computed on the way. *)
Lemma from_cache_term_miss (m m' : partition) (c b : F)
    (cache_function : nat -> ST caches unit)
    (cache_dict : caches -> gmap nat table) (sub : F -> result F)
    (st st' : caches) (T : table) :
  c <> 0%F ->
  cache_dict st !! size m = None ->
  cache_function (size m) st = (Ok tt, st') ->
  cache_dict st' !! size m = Some T ->
  T !! m = Some (term m' b) ->
  sub b = Ok b ->
  _from_cache (term m c) cache_function cache_dict sub st
  = (Ok (term m' (c * b)%F), st').
Proof.
  intros Hc Hmiss Hcf HT Hrow Hb. unfold _from_cache, bind, term at 1.
  rewrite decide_False by done.
  rewrite map_fold_singleton. unfold ret. rewrite Hmiss.
  rewrite decide_False by (intros [? ?]; done).
  rewrite Hcf, HT, Hrow.
  destruct (expand_term_subs sub c b m' Hb) as (z & Hz & Hzt).
  unfold lift. by rewrite Hz, Hzt.
Qed.

Lemma omega_in_schurs_one : _omega_qt_in_schurs (basis_elt [1]) = term [1] 1%F.
Proof.
  unfold _omega_qt_in_schurs.
  rewrite basis_elt_term, apply_module_morphism_term.
  change (conjugate [1]) with [1].
  rewrite basis_elt_term, elt_scal_term. apply term_eq. ring.
Qed.

(** What a substitution that leaves [t] as it is does to the two
    entries of the tables of degree 1 of the S basis. *)
Lemma subs_S_entries_one (q t : F) :
  t <> 1%F -> subs q t t = Ok t ->
  subs q t (1 - t)%F = Ok (1 - t)%F
  /\ subs q t (1 / (1 - t) * 1)%F = Ok (1 / (1 - t) * 1)%F.
Proof.
  intros Ht Hst.
  assert (H1 : subs q t (1 - t)%F = Ok (1 - t)%F).
  { rewrite !(Rsub_def (F_R F_theory)).
    apply subs_add; [apply subs_one|by apply subs_opp]. }
  split; [done|].
  apply subs_mul; [|apply subs_one].
  rewrite !(Fdiv_def F_theory).
  apply subs_mul; [apply subs_one|].
  apply subs_inv; [done|by apply one_minus_t_neq_zero].
Qed.

End OmegaFacts.

(** C10 as stated fails: with [q = 2] and [t = 3] in the rationals,
    on [S([1])] the overridden method gives [-1/2 * S([1])] and the
    generic one [1/2 * S([1])]. *)
Lemma omega_qt_s_differs_from_generic :
  ~ (forall (K : ScalarField) (Sb : Substitution) (q t : F) (x : coeffs_t)
            (st : caches),
        omega_qt_s q t x st = omega_qt_generic (S_to_s t) q t x st).
Proof.
  intros Hc.
  specialize (Hc Qc_field Qc_substitution (Qc_of_Z 2) (Qc_of_Z 3) (basis_elt [1])
                (Caches ∅ ∅)).
  apply (f_equal (fun r => match r.1 with
                           | Ok x => this (@coefficient Qc_field x [1])
                           | Raise _ => 0%Q
                           end)) in Hc.
  vm_compute in Hc. discriminate Hc.
Qed.

(** ** The direct tables *)

Section DirectTables.
Context `{ScalarField}.

Add Field scalar_field_dt : F_theory.

Lemma mapM_r_nth (A B : Type) (f : A -> result B) (l : list A) (l' : list B)
    (i : nat) (a : A) (b : B) :
  mapM_r f l = Ok l' -> i < length l -> f (nth i l a) = Ok (nth i l' b).
Proof.
  revert l' i. induction l as [|x l IH]; intros l' i; simpl; [lia|].
  destruct (f x) as [y|] eqn:Hy; simpl; [|done].
  destruct (mapM_r f l) as [ys|] eqn:Hys; simpl; [|done].
  intros [= <-] Hi. destruct i as [|i]; simpl; [done|].
  apply IH; [done|lia].
Qed.

Lemma sparse_row_homogeneous (n : nat) (row : list F) :
  homogeneous n (sparse_row (Partitions n) row).
Proof. intros m c Hm. by apply sparse_row_support, list_elem_of_In in Hm. Qed.

(** The direct table of a degree holds, row by row, the non-zero
    values of the expansion rule on the partitions of that degree. *)
Lemma direct_table_of_to_s (_to_s : partition -> result (partition -> F))
    (n : nat) (st0 st : caches) :
  self_to_s_cache st0 !! n = None \/ s_to_self_cache st0 !! n = None ->
  _s_cache _to_s n st0 = (Ok tt, st) ->
  exists T : table,
    self_to_s_cache st !! n = Some T
    /\ (forall lam, lam ∈ Partitions n <-> is_Some (T !! lam))
    /\ (forall lam row,
           T !! lam = Some row ->
           canonical row /\ homogeneous n row
           /\ exists f, _to_s lam = Ok f
                        /\ forall mu, mu ∈ Partitions n -> coefficient row mu = f mu).
Proof.
  intros Hfresh Hcache.
  pose proof (Partitions_NoDup n) as Hpn.
  revert Hcache. unfold _s_cache, _invert_morphism.
  rewrite decide_False.
  2:{ intros [[? H1] [? H2]]. destruct Hfresh; congruence. }
  destruct (mapM_r _ (Partitions n)) as [A|] eqn:HA; simpl; [|done].
  destruct (matrix_inverse A) as [B|] eqn:HB; [|done].
  intros [= <-]. exists (table_of_matrix (Partitions n) A). simpl.
  pose proof (mapM_r_length _ _ _ _ _ HA) as HlenA.
  split; [apply lookup_insert_eq|]. split.
  - intros lam. split.
    + intros Hlam. by apply lookup_table_of_matrix_is_Some.
    + intros [row Hrow]. destruct (decide (lam ∈ Partitions n)) as [|Hn]; [done|].
      unfold table_of_matrix in Hrow. by rewrite lookup_zip_notin in Hrow.
  - intros lam row Hrow.
    assert (Hlam : lam ∈ Partitions n).
    { destruct (decide (lam ∈ Partitions n)) as [|Hn]; [done|].
      unfold table_of_matrix in Hrow. by rewrite lookup_zip_notin in Hrow. }
    apply list_elem_of_In, (In_nth _ _ []) in Hlam as (i & Hi & <-).
    unfold table_of_matrix in Hrow.
    rewrite (lookup_zip_nth _ _ _ _ ∅) in Hrow
      by (done || (rewrite ?length_map; lia)).
    injection Hrow as <-.
    rewrite (nth_map_lt _ _ _ _ _ _ []) by lia.
    split; [apply canonical_sparse_row|]. split; [apply sparse_row_homogeneous|].
    pose proof (mapM_r_nth _ _ _ _ _ i [] [] HA Hi) as Hi'.
    cbv beta in Hi'.
    destruct (_to_s (nth i (Partitions n) [])) as [f|] eqn:Hf; simpl in Hi'; [|done].
    injection Hi' as Hi'. exists f. split; [done|].
    intros mu Hmu.
    apply list_elem_of_In, (In_nth _ _ []) in Hmu as (j & Hj & <-).
    rewrite coefficient_sparse_row by done. rewrite <- Hi'.
    by rewrite (nth_map_lt _ _ _ _ _ _ []) by lia.
Qed.

Lemma canonical_sum_of_terms (l : list (partition * F)) : canonical (sum_of_terms l).
Proof.
  unfold sum_of_terms. generalize (canonical_empty). generalize (∅ : coeffs_t).
  induction l as [|mc l IH]; intros acc Hacc; simpl; [done|].
  apply IH. apply canonical_elt_add; [done|apply canonical_elt_scal].
Qed.





End DirectTables.

Section DirectTableOfS.
Context `{ScalarField}.

Add Field scalar_field_ds : F_theory.





End DirectTableOfS.


(** ** The statements above at rational parameters *)

Lemma Qc_three_neq_one : Qc_of_Z 3 <> (1%F : @F Qc_field).
Proof. intros E. apply (f_equal this) in E. vm_compute in E. discriminate E. Qed.



Lemma Qc_of_Z_mul (a b : Z) :
  (Qc_of_Z a * Qc_of_Z b)%Qc = Qc_of_Z (a * b).
Proof.
  apply Qc_is_canon. unfold Qc_of_Z, Qcmult, Q2Qc. simpl.
  rewrite !Qred_correct. unfold Qeq, Qmult, inject_Z. simpl. lia.
Qed.

Lemma Qc_of_Z_pow (k : Z) (n : nat) :
  @fpow Qc_field (Qc_of_Z k) n = Qc_of_Z (k ^ Z.of_nat n).
Proof.
  induction n as [|n IH].
  - simpl. apply Qc_is_canon. reflexivity.
  - cbn [fpow]. rewrite IH. cbn [fmul Qc_field].
    rewrite Qc_of_Z_mul. f_equal. rewrite Nat2Z.inj_succ, Z.pow_succ_r; lia.
Qed.

Lemma Qc_of_Z_inj (a b : Z) : Qc_of_Z a = Qc_of_Z b -> a = b.
Proof.
  intros E. apply (f_equal this) in E. unfold Qc_of_Z, Q2Qc in E. simpl in E.
  assert (E' : (inject_Z a == inject_Z b)%Q).
  { rewrite <- (Qred_correct (inject_Z a)), <- (Qred_correct (inject_Z b)).
    by rewrite E. }
  unfold Qeq, inject_Z in E'. simpl in E'. lia.
Qed.

(** The rational parameters [q = 2] and [t = 3] are generic. *)
Lemma Qc_generic_two_three :
  @generic_parameters Qc_field (Qc_of_Z 2) (Qc_of_Z 3).
Proof.
  intros a b Hab. rewrite !Qc_of_Z_pow. cbn [fmul Qc_field].
  rewrite Qc_of_Z_mul. intros E.
  change (1%F : @F Qc_field) with (Qc_of_Z 1) in E.
  apply Qc_of_Z_inj in E.
  assert (Ha : (1 <= 2 ^ Z.of_nat a)%Z) by (apply Z.pow_le_mono_r with (b := 0%Z); lia).
  assert (Hb : (1 <= 3 ^ Z.of_nat b)%Z) by (apply Z.pow_le_mono_r with (b := 0%Z); lia).
  destruct a as [|a].
  - destruct b as [|b]; [lia|].
    rewrite Nat2Z.inj_succ, Z.pow_succ_r in E by lia.
    assert (1 <= 3 ^ Z.of_nat b)%Z by (apply Z.pow_le_mono_r with (b := 0%Z); lia).
    simpl in E. lia.
  - rewrite Nat2Z.inj_succ, Z.pow_succ_r in E by lia.
    assert (1 <= 2 ^ Z.of_nat a)%Z by (apply Z.pow_le_mono_r with (b := 0%Z); lia).
    nia.
Qed.

(** The state in which [_s_cache(2)] of the S basis, with [t = 3],
    leaves fresh caches. *)
Lemma S_s_cache_two_runs :
  @_s_cache Qc_field (S_to_s (Qc_of_Z 3)) 2 (Caches ∅ ∅)
  = (Ok tt, (@_s_cache Qc_field (S_to_s (Qc_of_Z 3)) 2 (Caches ∅ ∅)).2).
Proof.
  assert (Hfst : (@_s_cache Qc_field (S_to_s (Qc_of_Z 3)) 2 (Caches ∅ ∅)).1 = Ok tt)
    by (vm_compute; reflexivity).
  rewrite <- Hfst. apply surjective_pairing.
Qed.

Lemma homogeneous_basis_elt `{ScalarField} (n : nat) (m : partition) :
  In m (Partitions n) -> homogeneous n (basis_elt m).
Proof.
  intros Hm k c Hk. unfold basis_elt in Hk.
  apply lookup_singleton_Some in Hk as [<- _]. done.
Qed.

(** [round_trip_identities] with [q = 2] and [t = 3]: on [J([1])]
    through P and through Q, and on [S([2])] through the Schur
    functions. *)
Lemma round_trip_identities_witness :
  let q : @F Qc_field := Qc_of_Z 2 in
  let t : @F Qc_field := Qc_of_Z 3 in
  let st := (_s_cache (S_to_s t) 2 (Caches ∅ ∅)).2 in
  generic_parameters q t
  /\ (do y <- J_to_P q t (basis_elt [1]); P_to_J q t y) = Ok (basis_elt [1])
  /\ (do y <- J_to_Q q t (basis_elt [1]); Q_to_J q t y) = Ok (basis_elt [1])
  /\ (run y <- _self_to_s (S_to_s t) q t (basis_elt [2]);
      _s_to_self (S_to_s t) q t y) st
     = (Ok (basis_elt [2]), st)
  /\ c1 [2; 1] q t <> 0%F.
Proof.
  intros q t st.
  pose proof (@round_trip_identities Qc_field Qc_substitution q t)
    as (HJP & HJQ & HS & Hgen).
  pose proof Qc_generic_two_three as Hg.
  split; [exact Hg|]. split; [|split; [|split]].
  - apply HJP; [apply canonical_basis_elt|].
    intros m c _. apply (Hgen Hg m).
  - apply HJQ; [apply canonical_basis_elt|].
    intros m c _. apply (Hgen Hg m).
  - apply (HS (S_to_s t) 2 (Caches ∅ ∅) st (basis_elt [2])).
    + left. reflexivity.
    + exact S_s_cache_two_runs.
    + intros T lam mu _. eexists. reflexivity.
    + apply canonical_basis_elt.
    + apply homogeneous_basis_elt. simpl. tauto.
  - apply (Hgen Hg [2; 1]).
Defined.


(** ** The specialised scalar products on arbitrary elements *)

Section PairingFacts.
Context `{ScalarField}.

Add Field scalar_field_pf : F_theory.

Lemma msum_add (g g' : partition -> F -> F) (x : coeffs_t) :
  msum (fun m c => (g m c + g' m c)%F) x = (msum g x + msum g' x)%F.
Proof.
  unfold msum. induction x as [|m c x Hm Hfirst IH] using map_first_key_ind.
  - rewrite !map_fold_empty. ring.
  - rewrite !map_fold_insert_first_key by done. rewrite IH. ring.
Qed.

Lemma msum_zero (x : coeffs_t) : msum (fun _ _ => 0%F) x = 0%F.
Proof.
  unfold msum. induction x as [|m c x Hm Hfirst IH] using map_first_key_ind.
  - by rewrite map_fold_empty.
  - rewrite map_fold_insert_first_key by done. rewrite IH. ring.
Qed.

Lemma msum_insert (g : partition -> F -> F) (m : partition) (c : F) (x : coeffs_t) :
  x !! m = None -> msum g (<[m := c]> x) = (msum g x + g m c)%F.
Proof.
  intros Hm. unfold msum.
  rewrite (map_fold_insert_L _ _ m c x); [done| |done].
  intros. ring.
Qed.

Lemma gram_sym (fv : partition -> F) (x y : coeffs_t) :
  gram fv x y = gram fv y x.
Proof.
  unfold gram. induction x as [|i c x Hi IH] using map_ind.
  - rewrite msum_empty.
    rewrite (msum_ext _ (fun _ _ => 0%F)); [by rewrite msum_zero|].
    intros m d _. rewrite coefficient_empty. ring.
  - rewrite msum_insert by done. rewrite IH.
    rewrite (msum_ext (fun m d => (d * coefficient (<[i:=c]> x) m * fv m)%F)
               (fun m d => (d * coefficient x m * fv m
                            + (if decide (m = i) then (d * c * fv i)%F else 0%F))%F)).
    + rewrite msum_add, (msum_delta (fun d => (d * c * fv i)%F)).
      assert (Hci : coefficient y i = default 0%F (y !! i)) by done.
      rewrite Hci. destruct (y !! i); simpl; ring.
    + intros m d _. rewrite coefficient_insert.
      destruct (decide (i = m)) as [->|Hne].
      * rewrite decide_True by done. unfold coefficient. rewrite Hi. simpl. ring.
      * rewrite decide_False by congruence. ring.
Qed.

Lemma gram_empty_l (fv : partition -> F) (y : coeffs_t) : gram fv ∅ y = 0%F.
Proof. apply msum_empty. Qed.

Lemma gram_empty_r (fv : partition -> F) (x : coeffs_t) : gram fv x ∅ = 0%F.
Proof. by rewrite gram_sym, gram_empty_l. Qed.


(** The pairing loop when [f] succeeds on the common terms. *)
Lemma pairing_ok (x y : coeffs_t) (f : partition -> partition -> result F)
    (fv : partition -> F) :
  (forall m cx cy, x !! m = Some cx -> y !! m = Some cy -> f m m = Ok (fv m)) ->
  apply_multi_module_morphism x y f = Ok (gram fv x y).
Proof.
  unfold apply_multi_module_morphism, gram, msum.
  induction x as [|m c x Hm Hfirst IH] using map_first_key_ind; intros Hf.
  - by rewrite !map_fold_empty.
  - rewrite !map_fold_insert_first_key by done.
    rewrite IH.
    2:{ intros m' cx cy Hm' Hy. apply (Hf m' cx cy); [|done].
        rewrite lookup_insert_ne; [done|congruence]. }
    assert (Hcm : coefficient y m = default 0%F (y !! m)) by done.
    rewrite Hcm. destruct (y !! m) as [cy|] eqn:Hy; simpl.
    + rewrite (Hf m c cy); [|apply lookup_insert_eq|done]. done.
    + f_equal. ring.
Qed.

(** The pairing loop raises nothing but what [f] raises. *)
Lemma pairing_raise_only (e0 : exn) (x y : coeffs_t)
    (f : partition -> partition -> result F) (e : exn) :
  (forall m e', f m m = Raise e' -> e' = e0) ->
  apply_multi_module_morphism x y f = Raise e -> e = e0.
Proof.
  intros Hf. unfold apply_multi_module_morphism. revert e.
  apply (map_fold_weak_ind
           (fun (r : result F) (_ : coeffs_t) => forall e, r = Raise e -> e = e0)).
  - intros e [=].
  - intros m c x' r _ IH e. destruct (y !! m) as [cy|]; [|apply IH].
    destruct r as [r|e1]; simpl.
    + destruct (f m m) as [v|e2] eqn:Hfm; simpl; intros [=]. subst.
      by apply (Hf m).
    + intros [= <-]. by apply IH.
Qed.

(** It raises as soon as [f] raises on one common term. *)
Lemma pairing_raises (e0 : exn) (x y : coeffs_t)
    (f : partition -> partition -> result F) :
  (forall m e', f m m = Raise e' -> e' = e0) ->
  (exists m cx cy, x !! m = Some cx /\ y !! m = Some cy /\ f m m = Raise e0) ->
  apply_multi_module_morphism x y f = Raise e0.
Proof.
  intros Hf. unfold apply_multi_module_morphism.
  induction x as [|m c x Hm Hfirst IH] using map_first_key_ind.
  - intros (m & cx & cy & Hmx & _). by rewrite lookup_empty in Hmx.
  - intros (m' & cx & cy & Hmx & Hmy & Hraise).
    rewrite map_fold_insert_first_key by done.
    destruct (decide (m = m')) as [->|Hne].
    + rewrite Hmy.
      destruct (map_fold _ (Ok 0%F) x) as [r|e1] eqn:Hfold; simpl.
      * by rewrite Hraise.
      * f_equal. apply (pairing_raise_only e0 x y f e1 Hf Hfold).
    + rewrite lookup_insert_ne in Hmx by done.
      rewrite IH by (exists m', cx, cy; done).
      by destruct (y !! m).
Qed.

End PairingFacts.

Section SpecialisedPairings.
Context `{ScalarField}.
Variable to_power : element -> result coeffs_t.

Add Field scalar_field_sp : F_theory.

(** A sum over the terms of [x] is a sum over the keys of [x]. *)
Lemma gram_keys (fv : partition -> F) (x y : coeffs_t) (l : list partition) :
  NoDup l ->
  (forall m c, x !! m = Some c -> In m l) ->
  gram fv x y
  = lsum (map (fun m => (coefficient x m * (coefficient y m * fv m))%F) l).
Proof.
  intros Hl Hx. unfold gram.
  rewrite (msum_ext _ (fun m c => (c * (coefficient y m * fv m))%F))
    by (intros; ring).
  by apply msum_list.
Qed.

Lemma keys_NoDup (x : coeffs_t) : NoDup (map_to_list x).*1.
Proof. apply NoDup_fst_map_to_list. Qed.

Lemma keys_In (x : coeffs_t) (m : partition) (c : F) :
  x !! m = Some c -> In m (map_to_list x).*1.
Proof.
  intros Hm. apply list_elem_of_In, list_elem_of_fmap.
  exists (m, c). split; [done|]. by apply elem_of_map_to_list.
Qed.

Lemma scalar_qt_j_gram (q t q' t' : F) (x y : coeffs_t) :
  scalar_qt to_power (Element (Parent McdJ q t) x) (Element (Parent McdJ q' t') y)
  = Ok (gram (fun m => (c1 m q t * c2 m q t)%F) x y).
Proof.
  unfold scalar_qt, scalar_qt_j, isinstance. simpl. by apply pairing_ok.
Qed.

Lemma scalar_qt_p_cases (q t q' t' : F) (x y : coeffs_t) :
  scalar_qt to_power (Element (Parent McdP q t) x) (Element (Parent McdP q' t') y)
  = if bool_decide
         (map_Exists (fun m _ => is_Some (y !! m) /\ c2 m q t = 0%F) x)
    then Raise ZeroDivisionError
    else Ok (gram (fun m => (c1 m q t / c2 m q t)%F) x y).
Proof.
  change (scalar_qt to_power (Element (Parent McdP q t) x)
            (Element (Parent McdP q' t') y))
    with (apply_multi_module_morphism x y
            (fun part1 part2 =>
               scalar_qt_basis (Parent McdP q t) part1 (Some part2))).
  assert (Hb : forall m, scalar_qt_basis (Parent McdP q t) m (Some m)
                         = div_r (c1 m q t) (c2 m q t)).
  { intros m. unfold scalar_qt_basis. simpl.
    by rewrite bool_decide_eq_true_2. }
  case_bool_decide as Hex.
  - apply pairing_raises.
    + intros m e. cbv beta. rewrite Hb. unfold div_r. case_decide; congruence.
    + destruct Hex as (m & cx & Hx & [cy Hy] & Hz).
      exists m, cx, cy. repeat split; [done..|].
      cbv beta. rewrite Hb, Hz. apply div_r_zero.
  - apply pairing_ok. intros m cx cy Hx Hy. cbv beta. rewrite Hb.
    apply div_r_ok. intros Hz. apply Hex. exists m, cx. eauto.
Qed.

Lemma scalar_qt_q_gram (q t q' t' : F) (x y : coeffs_t) :
  scalar_qt to_power (Element (Parent McdQ q t) x) (Element (Parent McdP q' t') y)
  = Ok (gram (fun _ => 1%F) x y).
Proof.
  unfold scalar_qt, scalar_qt_q, isinstance. simpl. by apply pairing_ok.
Qed.


(** X2: the scalar product of two elements of the P basis raises
    [ZeroDivisionError] when [c2] vanishes on a partition that both
    elements have a term for, and is otherwise the sum over the
    partitions [m] of the product of the two coefficients of [P(m)]
    with [c1(m) / c2(m)]; no division is made for a partition that
    only one of the two elements has. *)
Theorem scalar_qt_P_P (q t q' t' : F) (x y : coeffs_t) :
  scalar_qt to_power (Element (Parent McdP q t) x) (Element (Parent McdP q' t') y)
  = if bool_decide
         (map_Exists (fun m _ => is_Some (y !! m) /\ c2 m q t = 0%F) x)
    then Raise ZeroDivisionError
    else Ok (gram (fun m => (c1 m q t / c2 m q t)%F) x y).
Proof. apply scalar_qt_p_cases. Qed.

(** X3: the scalar product of an element of the Q basis and an
    element of the P basis, taken from either side, is the sum of
    the products of their coefficients on equal partitions; it never
    raises, whatever the parameters. *)
Theorem scalar_qt_Q_P (q t q' t' : F) (x y : coeffs_t) :
  scalar_qt to_power (Element (Parent McdQ q t) x) (Element (Parent McdP q' t') y)
  = Ok (gram (fun _ => 1%F) x y)
  /\ scalar_qt to_power (Element (Parent McdP q' t') y) (Element (Parent McdQ q t) x)
     = Ok (gram (fun _ => 1%F) x y).
Proof.
  split; [apply scalar_qt_q_gram|].
  change (scalar_qt to_power (Element (Parent McdP q' t') y)
            (Element (Parent McdQ q t) x))
    with (scalar_qt to_power (Element (Parent McdQ q t) x)
            (Element (Parent McdP q' t') y)).
  apply scalar_qt_q_gram.
Qed.

End SpecialisedPairings.

(** ** The diagonal coercions between P, Q and J on arbitrary elements *)

Section DiagonalCoercions.
Context `{ScalarField}.

Add Field scalar_field_dc : F_theory.

Lemma module_morphism_diagonal_raises (e0 : exn) (d : partition -> result F)
    (x : coeffs_t) :
  (forall m e, d m = Raise e -> e = e0) ->
  map_Exists (fun m _ => d m = Raise e0) x ->
  module_morphism_diagonal d x = Raise e0.
Proof.
  intros Hd Hex. unfold module_morphism_diagonal.
  apply apply_module_morphism_r_raises.
  - intros m e. destruct (d m) as [c|e1] eqn:Hdm; simpl; [done|].
    intros [= <-]. by apply (Hd m).
  - destruct Hex as (m & c & Hm & Hr). exists m, c. split; [done|].
    cbv beta. by rewrite Hr.
Qed.

Lemma pointwise_inverse_ok (d : partition -> result F) (m : partition) (c : F) :
  d m = Ok c -> c <> 0%F -> pointwise_inverse d m = Ok (1 / c)%F.
Proof.
  intros Hd Hc. unfold pointwise_inverse. rewrite Hd. simpl.
  by apply div_r_ok.
Qed.

Lemma pointwise_inverse_zero (d : partition -> result F) (m : partition) :
  d m = Ok 0%F -> pointwise_inverse d m = Raise ZeroDivisionError.
Proof.
  intros Hd. unfold pointwise_inverse. rewrite Hd. simpl. apply div_r_zero.
Qed.

Lemma pointwise_inverse_raise_only (d : partition -> result F) (m : partition)
    (e : exn) :
  (forall e', d m = Raise e' -> e' = ZeroDivisionError) ->
  pointwise_inverse d m = Raise e -> e = ZeroDivisionError.
Proof.
  intros Hd. unfold pointwise_inverse.
  destruct (d m) as [c|e1] eqn:Hdm; simpl.
  - unfold div_r. case_decide; congruence.
  - intros [= <-]. by apply Hd.
Qed.

Lemma div_r_raise_only (a b : F) (e : exn) :
  div_r a b = Raise e -> e = ZeroDivisionError.
Proof. unfold div_r. case_decide; congruence. Qed.

Lemma fdiv_eq_zero (a b : F) : b <> 0%F -> (a / b)%F = 0%F -> a = 0%F.
Proof.
  intros Hb H0. transitivity (a / b * b)%F; [by field|]. rewrite H0. ring.
Qed.

Lemma J_to_P_scale (q t : F) (x : coeffs_t) :
  J_to_P q t x = Ok (scale_by (fun m => c2 m q t) x).
Proof. unfold J_to_P. by apply module_morphism_diagonal_ok. Qed.

Lemma P_to_J_cases (q t : F) (x : coeffs_t) :
  P_to_J q t x
  = if bool_decide (map_Exists (fun m _ => c2 m q t = 0%F) x)
    then Raise ZeroDivisionError
    else Ok (scale_by (fun m => (1 / c2 m q t)%F) x).
Proof.
  unfold P_to_J. case_bool_decide as Hex.
  - apply module_morphism_diagonal_raises.
    + intros m e. by apply pointwise_inverse_raise_only.
    + destruct Hex as (m & c & Hm & Hz). exists m, c. split; [done|].
      cbv beta. apply pointwise_inverse_zero. by rewrite Hz.
  - apply module_morphism_diagonal_ok. intros m c Hm.
    apply pointwise_inverse_ok; [done|].
    intros Hz. apply Hex. by exists m, c.
Qed.

Lemma scalar_qt_basis_one_argument (q t : F) (m : partition) :
  scalar_qt_basis (Parent McdP q t) m None = div_r (c1 m q t) (c2 m q t).
Proof. done. Qed.

Lemma P_to_Q_cases (q t : F) (x : coeffs_t) :
  P_to_Q q t x
  = if bool_decide (map_Exists (fun m _ => c2 m q t = 0%F) x)
    then Raise ZeroDivisionError
    else Ok (scale_by (fun m => (c1 m q t / c2 m q t)%F) x).
Proof.
  unfold P_to_Q. case_bool_decide as Hex.
  - apply module_morphism_diagonal_raises.
    + intros m e. rewrite scalar_qt_basis_one_argument. apply div_r_raise_only.
    + destruct Hex as (m & c & Hm & Hz). exists m, c. split; [done|].
      cbv beta. rewrite scalar_qt_basis_one_argument, Hz. apply div_r_zero.
  - apply module_morphism_diagonal_ok. intros m c Hm.
    rewrite scalar_qt_basis_one_argument.
    apply div_r_ok. intros Hz. apply Hex. by exists m, c.
Qed.

Lemma Q_to_P_cases (q t : F) (x : coeffs_t) :
  Q_to_P q t x
  = if bool_decide
         (map_Exists (fun m _ => c1 m q t = 0%F \/ c2 m q t = 0%F) x)
    then Raise ZeroDivisionError
    else Ok (scale_by (fun m => (1 / (c1 m q t / c2 m q t))%F) x).
Proof.
  unfold Q_to_P. case_bool_decide as Hex.
  - apply module_morphism_diagonal_raises.
    + intros m e. apply pointwise_inverse_raise_only.
      intros e'. rewrite scalar_qt_basis_one_argument. apply div_r_raise_only.
    + destruct Hex as (m & c & Hm & Hz). exists m, c. split; [done|].
      cbv beta. destruct (decide (c2 m q t = 0%F)) as [Hz2|Hnz2].
      * unfold pointwise_inverse.
        rewrite scalar_qt_basis_one_argument, Hz2, div_r_zero. done.
      * destruct Hz as [Hz1|Hz2]; [|done].
        apply pointwise_inverse_zero.
        rewrite scalar_qt_basis_one_argument, div_r_ok by done.
        f_equal. rewrite Hz1. by field.
  - apply module_morphism_diagonal_ok. intros m c Hm.
    assert (Hc2 : c2 m q t <> 0%F).
    { intros Hz. apply Hex. exists m, c. auto. }
    assert (Hc1 : c1 m q t <> 0%F).
    { intros Hz. apply Hex. exists m, c. auto. }
    apply pointwise_inverse_ok.
    + rewrite scalar_qt_basis_one_argument. by apply div_r_ok.
    + by apply fdiv_neq_zero.
Qed.

(** X4: the coercion from J to P never raises and multiplies the
    coefficient of every partition [m] by [c2(m)]; the coercion from
    P to J raises [ZeroDivisionError] when [c2] vanishes on a
    partition the element has a term for, and otherwise divides the
    coefficient of every [m] by [c2(m)]. *)
Theorem J_P_coercions (q t : F) (x : coeffs_t) :
  J_to_P q t x = Ok (scale_by (fun m => c2 m q t) x)
  /\ P_to_J q t x
     = if bool_decide (map_Exists (fun m _ => c2 m q t = 0%F) x)
       then Raise ZeroDivisionError
       else Ok (scale_by (fun m => (1 / c2 m q t)%F) x).
Proof. split; [apply J_to_P_scale|apply P_to_J_cases]. Qed.

(** X5: the coercion from P to Q raises [ZeroDivisionError] when
    [c2] vanishes on a partition of the element and otherwise
    multiplies the coefficient of every [m] by [c1(m)/c2(m)]; the
    coercion from Q to P raises when [c1] or [c2] vanishes on a
    partition of the element and otherwise divides by that scalar. *)
Theorem P_Q_coercions (q t : F) (x : coeffs_t) :
  P_to_Q q t x
  = (if bool_decide (map_Exists (fun m _ => c2 m q t = 0%F) x)
     then Raise ZeroDivisionError
     else Ok (scale_by (fun m => (c1 m q t / c2 m q t)%F) x))
  /\ Q_to_P q t x
     = (if bool_decide
             (map_Exists (fun m _ => c1 m q t = 0%F \/ c2 m q t = 0%F) x)
        then Raise ZeroDivisionError
        else Ok (scale_by (fun m => (1 / (c1 m q t / c2 m q t))%F) x)).
Proof. split; [apply P_to_Q_cases|apply Q_to_P_cases]. Qed.

Lemma scale_by_lookup (d : partition -> F) (x : coeffs_t) (m : partition) (c : F) :
  scale_by d x !! m = Some c ->
  exists c', x !! m = Some c' /\ c = (d m * c')%F /\ c <> 0%F.
Proof.
  intros Hm. destruct (scale_by_support d x m c Hm) as [c' Hc'].
  exists c'. pose proof (coefficient_scale_by d x m) as Hco.
  unfold coefficient in Hco. rewrite Hm, Hc' in Hco. simpl in Hco.
  repeat split; [done..|].
  intros ->. by apply (canonical_scale_by d x m).
Qed.

(** X6: the coercion from J to Q, found through P, never raises: it
    multiplies the coefficient of every partition [m] by [c1(m)],
    except that a term on which [c2] vanishes is dropped.  The
    coercion from Q to J raises [ZeroDivisionError] when [c1] or
    [c2] vanishes on a partition of the element and otherwise
    divides the coefficient of every [m] by [c1(m)]. *)
Theorem J_Q_coercions (q t : F) (x : coeffs_t) :
  J_to_Q q t x
  = Ok (scale_by (fun m => if decide (c2 m q t = 0%F) then 0%F else c1 m q t) x)
  /\ Q_to_J q t x
     = (if bool_decide
             (map_Exists (fun m _ => c1 m q t = 0%F \/ c2 m q t = 0%F) x)
        then Raise ZeroDivisionError
        else Ok (scale_by (fun m => (1 / c1 m q t)%F) x)).
Proof.
  split.
  - unfold J_to_Q. rewrite J_to_P_scale. simpl.
    rewrite P_to_Q_cases.
    rewrite bool_decide_eq_false_2.
    2:{ intros (m & c & Hm & Hz).
        apply scale_by_lookup in Hm as (c' & _ & -> & Hne).
        apply Hne. rewrite Hz. ring. }
    f_equal. apply elt_ext; [apply canonical_scale_by..|].
    intros m. rewrite !coefficient_scale_by.
    case_decide as Hz; [rewrite Hz; ring|by field].
  - unfold Q_to_J. rewrite Q_to_P_cases.
    case_bool_decide as Hex; [done|]. simpl.
    rewrite P_to_J_cases.
    rewrite bool_decide_eq_false_2.
    2:{ intros (m & c & Hm & Hz).
        apply scale_by_lookup in Hm as (c' & Hm' & _ & _).
        apply Hex. exists m, c'. auto. }
    f_equal. apply elt_ext; [apply canonical_scale_by..|].
    intros m. rewrite !coefficient_scale_by.
    destruct (x !! m) as [c|] eqn:Hm.
    + assert (Hc2 : c2 m q t <> 0%F).
      { intros Hz. apply Hex. exists m, c. auto. }
      assert (Hc1 : c1 m q t <> 0%F).
      { intros Hz. apply Hex. exists m, c. auto. }
      by field.
    + unfold coefficient. rewrite Hm. simpl. ring.
Qed.

End DiagonalCoercions.

(** ** The scalar products and the coercions together *)

Section PairingsAndCoercions.
Context `{ScalarField}.
Variable to_power : element -> result coeffs_t.

Add Field scalar_field_pc : F_theory.

Lemma scale_by_keys (d : partition -> F) (x : coeffs_t) (m : partition) (c : F) :
  scale_by d x !! m = Some c -> In m (map_to_list x).*1.
Proof.
  intros Hm. destruct (scale_by_support d x m c Hm) as [c' Hc'].
  by apply (keys_In x m c').
Qed.

(** X7: the scalar product of two elements of the J basis is the
    scalar product, in the P basis, of their images under the
    coercion from J to P; neither side raises, also when [c2]
    vanishes on some partition. *)
Theorem scalar_qt_J_P_agree (q t : F) (x y : coeffs_t) :
  (do x' <- J_to_P q t x;
   do y' <- J_to_P q t y;
   scalar_qt to_power (Element (Parent McdP q t) x') (Element (Parent McdP q t) y'))
  = scalar_qt to_power (Element (Parent McdJ q t) x) (Element (Parent McdJ q t) y).
Proof.
  rewrite !J_to_P_scale. simpl.
  rewrite scalar_qt_p_cases, scalar_qt_j_gram.
  rewrite bool_decide_eq_false_2.
  2:{ intros (m & c & Hm & _ & Hz).
      apply scale_by_lookup in Hm as (c' & _ & -> & Hne).
      apply Hne. rewrite Hz. ring. }
  f_equal.
  rewrite (gram_keys _ _ _ (map_to_list x).*1);
    [|apply keys_NoDup|apply scale_by_keys].
  rewrite (gram_keys _ x y (map_to_list x).*1);
    [|apply keys_NoDup|apply keys_In].
  apply lsum_map_ext. intros m _. rewrite !coefficient_scale_by.
  destruct (decide (c2 m q t = 0%F)) as [Hz|Hnz]; [rewrite Hz; ring|by field].
Qed.

(** X8: when [c2] does not vanish on the partitions of a P element
    [x], its scalar product with a P element [y] is the scalar
    product of the image of [x] in the Q basis with [y]. *)
Theorem scalar_qt_P_Q_agree (q t : F) (x y : coeffs_t) :
  (forall m c, x !! m = Some c -> c2 m q t <> 0%F) ->
  (do x' <- P_to_Q q t x;
   scalar_qt to_power (Element (Parent McdQ q t) x') (Element (Parent McdP q t) y))
  = scalar_qt to_power (Element (Parent McdP q t) x) (Element (Parent McdP q t) y).
Proof.
  intros Hc2. rewrite P_to_Q_cases.
  rewrite bool_decide_eq_false_2.
  2:{ intros (m & c & Hm & Hz). by apply (Hc2 m c). }
  simpl. rewrite scalar_qt_q_gram, scalar_qt_p_cases.
  rewrite bool_decide_eq_false_2.
  2:{ intros (m & c & Hm & _ & Hz). by apply (Hc2 m c). }
  f_equal.
  rewrite (gram_keys _ _ _ (map_to_list x).*1);
    [|apply keys_NoDup|apply scale_by_keys].
  rewrite (gram_keys _ x y (map_to_list x).*1);
    [|apply keys_NoDup|apply keys_In].
  apply lsum_map_ext. intros m _. rewrite !coefficient_scale_by. ring.
Qed.

End PairingsAndCoercions.

(** [scalar_qt_P_Q_agree] with [q = 2] and [t = 3], on [P([2])] and
    [P([2]) + P([1,1])]. *)
Lemma scalar_qt_P_Q_agree_witness :
  let q : @F Qc_field := Qc_of_Z 2 in
  let t : @F Qc_field := Qc_of_Z 3 in
  let to_power := fun _ : element => @Raise coeffs_t TypeError in
  (do x' <- P_to_Q q t (basis_elt [2]);
   scalar_qt to_power (Element (Parent McdQ q t) x')
     (Element (Parent McdP q t) (elt_add (basis_elt [2]) (basis_elt [1; 1]))))
  = scalar_qt to_power (Element (Parent McdP q t) (basis_elt [2]))
      (Element (Parent McdP q t) (elt_add (basis_elt [2]) (basis_elt [1; 1]))).
Proof.
  intros q t to_power.
  apply (@scalar_qt_P_Q_agree Qc_field to_power q t).
  intros m c _. apply (c1_c2_generic_nonzero q t m Qc_generic_two_three).
Defined.

(** ** The nabla operator on arbitrary elements *)

Section NablaLinear.
Context `{ScalarField}.

Add Field scalar_field_nl : F_theory.

(** X9: nabla on the Ht basis multiplies the coefficient of every
    [Ht(k)] by [t^n(k) * q^n(k')]; it is additive, commutes with the
    multiplication by a scalar and sends zero to zero. *)
Theorem nabla_ht_linear (q t : F) (x y : coeffs_t) (c : F) :
  (forall k : partition,
      coefficient (nabla_ht q t x) k
      = (t ^ weighted_size k * q ^ weighted_size (conjugate k)
         * coefficient x k)%F)
  /\ nabla_ht q t (elt_add x y) = elt_add (nabla_ht q t x) (nabla_ht q t y)
  /\ nabla_ht q t (elt_scal c x) = elt_scal c (nabla_ht q t x)
  /\ nabla_ht q t ∅ = ∅.
Proof.
  split; [|split; [|split]].
  - intros k. by rewrite coefficient_nabla_ht.
  - apply elt_ext.
    + apply canonical_nabla_ht.
    + apply canonical_elt_add; apply canonical_nabla_ht.
    + intros k. rewrite coefficient_elt_add, !coefficient_nabla_ht,
        coefficient_elt_add. ring.
  - apply elt_ext.
    + apply canonical_nabla_ht.
    + apply canonical_elt_scal.
    + intros k. rewrite coefficient_elt_scal, !coefficient_nabla_ht,
        coefficient_elt_scal. ring.
  - unfold nabla_ht, apply_module_morphism. apply map_fold_empty.
Qed.

End NablaLinear.

(** ** The caches of the change of basis *)

Section CacheFacts.
Context `{ScalarField} `{!Substitution}.

Add Field scalar_field_cf : F_theory.

Lemma s_cache_cached (_to_s : partition -> result (partition -> F))
    (n : nat) (st : caches) :
  is_Some (self_to_s_cache st !! n) -> is_Some (s_to_self_cache st !! n) ->
  _s_cache _to_s n st = (Ok tt, st).
Proof.
  intros H1 H2. unfold _s_cache, _invert_morphism.
  by rewrite decide_True.
Qed.

Lemma s_cache_outcome (_to_s : partition -> result (partition -> F))
    (n : nat) (st0 st : caches) (r : result unit) :
  _s_cache _to_s n st0 = (r, st) ->
  (forall m, m <> n ->
             self_to_s_cache st !! m = self_to_s_cache st0 !! m
             /\ s_to_self_cache st !! m = s_to_self_cache st0 !! m)
  /\ match r with
     | Ok _ => is_Some (self_to_s_cache st !! n)
               /\ is_Some (s_to_self_cache st !! n)
     | Raise _ => st = st0
     end.
Proof.
  unfold _s_cache, _invert_morphism. case_decide as Hc.
  - intros [= <- <-]. split; [done|]. by destruct Hc.
  - destruct (mapM_r _ (Partitions n)) as [M|e]; simpl.
    + destruct (matrix_inverse M) as [B|]; simpl.
      * intros [= <- <-]. simpl. split.
        -- intros m Hm. by rewrite !lookup_insert_ne.
        -- rewrite !lookup_insert_eq. split; by eexists.
      * by intros [= <- <-].
    + by intros [= <- <-].
Qed.

(** X10: [_s_cache(n)] changes no table of another degree; when it
    raises it leaves the caches as they were, and when it returns
    both tables of degree [n] are in the caches and a second call
    changes nothing. *)
Theorem s_cache_effect (_to_s : partition -> result (partition -> F))
    (n : nat) (st0 st : caches) (r : result unit) :
  _s_cache _to_s n st0 = (r, st) ->
  (forall m, m <> n ->
             self_to_s_cache st !! m = self_to_s_cache st0 !! m
             /\ s_to_self_cache st !! m = s_to_self_cache st0 !! m)
  /\ match r with
     | Ok _ => is_Some (self_to_s_cache st !! n)
               /\ is_Some (s_to_self_cache st !! n)
               /\ _s_cache _to_s n st = (Ok tt, st)
     | Raise _ => st = st0
     end.
Proof.
  intros Hrun. destruct (s_cache_outcome _ _ _ _ _ Hrun) as [Hframe Hr].
  split; [done|]. destruct r as [u|e]; [|done].
  destruct Hr as [H1 H2]. repeat split; [done..|].
  by apply s_cache_cached.
Qed.

(** The loop of [_from_cache] on an element of one degree whose
    table is computed by the first term that needs it. *)
Lemma from_cache_on_demand (x : coeffs_t) (cache_function : nat -> ST caches unit)
    (cache_dict : caches -> gmap nat table) (sub : F -> result F) (sv : F -> F)
    (st0 st : caches) (n : nat) (T : table) :
  cache_dict st0 !! n = None ->
  cache_function n st0 = (Ok tt, st) ->
  cache_dict st !! n = Some T ->
  (forall m c, x !! m = Some c -> size m = n /\ is_Some (T !! m)) ->
  (forall m c row k e,
      x !! m = Some c -> T !! m = Some row -> row !! k = Some e ->
      sub e = Ok (sv e)) ->
  sv 0%F = 0%F ->
  exists z,
    _from_cache x cache_function cache_dict sub st0
    = (Ok (from_dict z), if decide (x = ∅) then st0 else st)
    /\ forall k, coefficient z k = msum (fun m c => (c * sv (entry T m k))%F) x.
Proof.
  intros Hnone Hcf HT Hx Hsub Hsv0. unfold _from_cache.
  match goal with
  | |- context [map_fold ?f (ret ∅) x] => set (step := f)
  end.
  assert (Hfold : exists z,
             map_fold step (ret ∅) x st0
             = (Ok z, if decide (x = ∅) then st0 else st)
             /\ forall k, coefficient z k
                          = msum (fun m c => (c * sv (entry T m k))%F) x).
  { clear -Hnone Hcf HT Hx Hsub Hsv0. unfold msum.
    induction x as [|m c x Hm Hfirst IH] using map_first_key_ind.
    - exists ∅. rewrite map_fold_empty. rewrite decide_True by done.
      split; [done|].
      intros k. by rewrite map_fold_empty, coefficient_empty.
    - destruct IH as (z & Hz & Hcoef).
      { intros m' c' Hm'. apply (Hx m' c').
        rewrite lookup_insert_ne; [done|congruence]. }
      { intros m' c' row k e Hm'. apply (Hsub m' c').
        rewrite lookup_insert_ne; [done|congruence]. }
      destruct (Hx m c) as [Hsize [row Hrow]]; [apply lookup_insert_eq|].
      destruct (coefficient_expand_subs sub sv c row z) as (z' & Hz' & Hcoef');
        [|done|].
      { intros k e. apply (Hsub m c row k e); [apply lookup_insert_eq|done]. }
      exists z'. split.
      + rewrite map_fold_insert_first_key by done.
        rewrite (decide_False (P := <[m:=c]> x = ∅)) by apply insert_non_empty.
        unfold step at 1. unfold bind. rewrite Hz.
        rewrite Hsize. case_decide as Hx0.
        * rewrite Hnone. rewrite decide_False by (by intros [? ?]).
          rewrite Hcf. cbv beta iota. rewrite HT, Hrow. unfold lift.
          by rewrite Hz'.
        * rewrite HT. rewrite decide_True by (by eexists).
          cbv beta iota. rewrite HT, Hrow. unfold lift. by rewrite Hz'.
      + intros k. rewrite map_fold_insert_first_key by done.
        rewrite Hcoef', Hcoef. unfold entry. by rewrite Hrow. }
  destruct Hfold as (z & Hz & Hcoef). exists z. split; [|done].
  unfold bind. by rewrite Hz.
Qed.

Lemma entry_row (T : table) (m k : partition) (row : coeffs_t) :
  T !! m = Some row -> entry T m k = coefficient row k.
Proof. intros Hrow. unfold entry. by rewrite Hrow. Qed.

(** X11: on an element of degree [n] that is not zero, in a basis
    with the parameters [q] and [t], when the caches hold no table
    of degree [n], [_s_cache(n)] returns and the substitution
    [q = self.q, t = self.t] is defined on the values of the
    expansion rule, the conversion to the Schur functions computes
    the tables of degree [n] and nothing else, and the coefficient
    of [s(k)] in the result is the sum over the terms [c * B(m)] of
    the element of [c] times the value at [k] of the expansion rule
    of [m] after the substitution. *)
Theorem conversion_on_demand (_to_s : partition -> result (partition -> F))
    (q t : F) (n : nat) (st0 st : caches) (x : coeffs_t) :
  self_to_s_cache st0 !! n = None ->
  _s_cache _to_s n st0 = (Ok tt, st) ->
  homogeneous n x -> x <> ∅ ->
  (forall m c f k,
      x !! m = Some c -> _to_s m = Ok f -> In k (Partitions n) ->
      exists v, subs q t (f k) = Ok v) ->
  exists y,
    _self_to_s _to_s q t x st0 = (Ok y, st)
    /\ canonical y /\ homogeneous n y
    /\ forall k, In k (Partitions n) ->
                 coefficient y k
                 = msum (fun m c =>
                           (c * match _to_s m with
                                | Ok f => match subs q t (f k) with
                                          | Ok v => v
                                          | Raise _ => 0
                                          end
                                | Raise _ => 0
                                end)%F) x.
Proof.
  intros Hnone Hrun Hx Hne Hdef.
  destruct (direct_table_of_to_s _to_s n st0 st (or_introl Hnone) Hrun)
    as (T & HT & Hrows & Hrow).
  set (sv := fun e : F => match subs q t e with Ok v => v | Raise _ => 0%F end).
  assert (Hsv0 : sv 0%F = 0%F) by (unfold sv; by rewrite subs_zero).
  destruct (from_cache_on_demand x (_s_cache _to_s) self_to_s_cache (subs q t) sv
              st0 st n T Hnone Hrun HT) as (z & Hz & Hcoef); [| |done|].
  { intros m c Hm. pose proof (Hx m c Hm) as Hin. split.
    - by apply Partitions_size.
    - apply Hrows. by apply list_elem_of_In. }
  { intros m c row k e Hm Hr He.
    destruct (Hrow m row Hr) as (_ & Hhom & f & Hf & Hval).
    pose proof (Hhom k e He) as Hk.
    assert (Hfk : f k = e).
    { rewrite <- Hval by (by apply list_elem_of_In).
      unfold coefficient. by rewrite He. }
    destruct (Hdef m c f k Hm Hf Hk) as [v Hv].
    rewrite Hfk in Hv. unfold sv. by rewrite Hv. }
  rewrite decide_False in Hz by done.
  exists (from_dict z). split; [exact Hz|].
  split; [apply canonical_from_dict|]. split.
  - intros k c Hk. destruct (decide (k ∈ Partitions n)) as [Hin|Hout].
    { by apply list_elem_of_In. }
    exfalso. apply (canonical_from_dict z k).
    assert (Hzero : coefficient (from_dict z) k = 0%F).
    { rewrite coefficient_from_dict, Hcoef.
      rewrite (msum_ext _ (fun _ _ => 0%F)); [apply msum_zero|].
      intros m c' Hm. destruct (Hrows m) as [Hsome _].
      destruct Hsome as [row Hr].
      { apply list_elem_of_In. by apply (Hx m c'). }
      rewrite (entry_row T m k row Hr).
      destruct (Hrow m row Hr) as (_ & Hhom & _).
      unfold coefficient. destruct (row !! k) as [d|] eqn:Hd; simpl.
      - exfalso. apply Hout, list_elem_of_In. by apply (Hhom k d).
      - rewrite Hsv0. ring. }
    unfold coefficient in Hzero. rewrite Hk in Hzero. simpl in Hzero.
    by rewrite Hk, Hzero.
  - intros k Hk. rewrite coefficient_from_dict, Hcoef.
    apply msum_ext. intros m c Hm.
    destruct (Hrows m) as [Hsome _]. destruct Hsome as [row Hr].
    { apply list_elem_of_In. by apply (Hx m c). }
    rewrite (entry_row T m k row Hr).
    destruct (Hrow m row Hr) as (_ & _ & f & Hf & Hval).
    rewrite Hf. rewrite Hval by (by apply list_elem_of_In). done.
Qed.

(** X12: once the table of a degree is in the cache, the conversion
    of an element of that degree, in a basis with the parameters [q]
    and [t] whose substitution is defined on the entries of the rows
    that are read, leaves the caches as they are and does not consult
    the expansion rule: the result is the same whatever the rule, and
    the coefficient of [s(k)] in it is the sum over the terms
    [c * B(m)] of the element of [c] times the entry of the table in
    the row of [m] and the column of [k] after the substitution. *)
Theorem conversion_cached (_to_s _to_s' : partition -> result (partition -> F))
    (q t : F) (n : nat) (st : caches) (T : table) (x : coeffs_t) :
  self_to_s_cache st !! n = Some T ->
  (forall m c, x !! m = Some c -> size m = n /\ is_Some (T !! m)) ->
  (forall m c k, x !! m = Some c -> exists v, subs q t (entry T m k) = Ok v) ->
  exists y,
    _self_to_s _to_s q t x st = (Ok y, st)
    /\ _self_to_s _to_s' q t x st = (Ok y, st)
    /\ canonical y
    /\ forall k, coefficient y k
                 = msum (fun m c =>
                           (c * match subs q t (entry T m k) with
                                | Ok v => v
                                | Raise _ => 0
                                end)%F) x.
Proof.
  intros HT Hx Hdef.
  set (sv := fun e : F => match subs q t e with Ok v => v | Raise _ => 0%F end).
  assert (Hsv0 : sv 0%F = 0%F) by (unfold sv; by rewrite subs_zero).
  assert (Hsub : forall m c row k e,
             x !! m = Some c -> T !! m = Some row -> row !! k = Some e ->
             subs q t e = Ok (sv e)).
  { intros m c row k e Hm Hr He. destruct (Hdef m c k Hm) as [v Hv].
    rewrite (entry_row T m k row Hr) in Hv. unfold coefficient in Hv.
    rewrite He in Hv. simpl in Hv. unfold sv. by rewrite Hv. }
  destruct (from_cache_hit x (_s_cache _to_s) self_to_s_cache (subs q t) sv st n T
              HT Hx Hsub Hsv0) as (z & Hz & Hcoef).
  destruct (from_cache_hit x (_s_cache _to_s') self_to_s_cache (subs q t) sv st n T
              HT Hx Hsub Hsv0) as (z' & Hz' & Hcoef').
  exists (from_dict z). split; [exact Hz|]. split.
  - unfold _self_to_s. rewrite Hz'. do 2 f_equal.
    apply elt_ext; [apply canonical_from_dict..|].
    intros k. by rewrite !coefficient_from_dict, Hcoef, Hcoef'.
  - split; [apply canonical_from_dict|].
    intros k. by rewrite coefficient_from_dict.
Qed.

End CacheFacts.

(** [s_cache_effect] for the S basis with [t = 3], in degree 2. *)
Lemma s_cache_effect_witness :
  let t : @F Qc_field := Qc_of_Z 3 in
  let st := (_s_cache (S_to_s t) 2 (Caches ∅ ∅)).2 in
  is_Some (self_to_s_cache st !! 2)
  /\ is_Some (s_to_self_cache st !! 2)
  /\ _s_cache (S_to_s t) 2 st = (Ok tt, st).
Proof.
  intros t st.
  exact (proj2 (@s_cache_effect Qc_field (S_to_s t) 2 (Caches ∅ ∅) st (Ok tt)
                  S_s_cache_two_runs)).
Defined.

Lemma basis_elt_non_empty `{ScalarField} (m : partition) : basis_elt m <> ∅.
Proof. unfold basis_elt. apply map_non_empty_singleton. Qed.

(** [conversion_on_demand] for the S basis with [t = 3], on
    [S([2])]. *)
Lemma conversion_on_demand_witness :
  let t : @F Qc_field := Qc_of_Z 3 in
  let st := (_s_cache (S_to_s t) 2 (Caches ∅ ∅)).2 in
  exists y,
    _self_to_s (S_to_s t) (Qc_of_Z 2) t (basis_elt [2]) (Caches ∅ ∅) = (Ok y, st).
Proof.
  intros t st.
  destruct (@conversion_on_demand Qc_field Qc_substitution (S_to_s t)
              (Qc_of_Z 2) t 2 (Caches ∅ ∅) st (basis_elt [2])) as (y & Hy & _).
  - reflexivity.
  - exact S_s_cache_two_runs.
  - apply homogeneous_basis_elt. simpl. tauto.
  - apply basis_elt_non_empty.
  - intros m c f k _ _ _. eexists. reflexivity.
  - exists y. exact Hy.
Defined.

(** [conversion_cached] for the S basis with [t = 3] and the tables
    of degree 1, on [S([1])]. *)
Lemma conversion_cached_witness :
  let t : @F Qc_field := Qc_of_Z 3 in
  exists y,
    _self_to_s (S_to_s t) (Qc_of_Z 2) t (basis_elt [1]) (S_caches_degree_one t)
    = (Ok y, S_caches_degree_one t)
    /\ _self_to_s (fun _ => Raise KeyError) (Qc_of_Z 2) t (basis_elt [1])
         (S_caches_degree_one t)
       = (Ok y, S_caches_degree_one t).
Proof.
  intros t.
  destruct (@conversion_cached Qc_field Qc_substitution (S_to_s t)
              (fun _ => Raise KeyError) (Qc_of_Z 2) t 1
              (S_caches_degree_one t)
              (table_of_matrix (Partitions 1) [[(1 - t)%F]]) (basis_elt [1]))
    as (y & Hy & Hy' & _).
  - reflexivity.
  - intros m c Hm. unfold basis_elt in Hm.
    apply lookup_singleton_Some in Hm as [<- _].
    split; [reflexivity|]. rewrite table_of_matrix_one. by eexists.
  - intros m c k _. eexists. reflexivity.
  - exists y. split; [exact Hy|exact Hy'].
Defined.

(** ** The instance caches of the constructors *)

Section ConstructorCache.
Context `{RingLibrary}.
Variable table_store : Type.

#[local] Abbreviation M := (ST (globals table_store)).

Lemma bind_inv (A B : Type) (m : M A) (k : A -> M B) (g g' : globals table_store)
    (r : result B) :
  bind m k g = (r, g') ->
  (exists a g1, m g = (Ok a, g1) /\ k a g1 = (r, g'))
  \/ (exists e, m g = (Raise e, g') /\ r = Raise e).
Proof.
  unfold bind. destruct (m g) as [[a|e] g1] eqn:Hm.
  - intros Hk. left. by exists a, g1.
  - intros [= <- <-]. right. by exists e.
Qed.

Lemma writes_only_ret (A : Type) (a : A) (bs : list basis) :
  writes_only table_store bs (ret a).
Proof. intros g r g' [= <- <-]. done. Qed.

Lemma writes_only_raise (A : Type) (e : exn) (bs : list basis) :
  writes_only table_store bs (@raise _ A e).
Proof. intros g r g' [= <- <-]. done. Qed.

Lemma writes_only_bind (A B : Type) (m : M A) (k : A -> M B) (bs : list basis) :
  writes_only table_store bs m ->
  (forall a, writes_only table_store bs (k a)) ->
  writes_only table_store bs (bind m k).
Proof.
  intros Hm Hk g r g' Hrun.
  apply bind_inv in Hrun as [(a & g1 & H1 & H2)|(e & H1 & _)].
  - destruct (Hm g _ g1 H1) as [Ht1 Hc1].
    destruct (Hk a g1 _ g' H2) as [Ht2 Hc2].
    split; [congruence|]. intros b Hb. rewrite (Hc2 b Hb). by apply Hc1.
  - by apply (Hm g _ g' H1).
Qed.

Lemma writes_only_weaken (A : Type) (m : M A) (bs bs' : list basis) :
  bs ⊆ bs' -> writes_only table_store bs m -> writes_only table_store bs' m.
Proof.
  intros Hsub Hm g r g' Hrun. destruct (Hm g r g' Hrun) as [Ht Hc].
  split; [done|]. intros b Hb. apply Hc. intros Hin. apply Hb. by apply Hsub.
Qed.

Lemma writes_only_cache_set (b : basis) (k : key) (x : instance) (bs : list basis) :
  b ∈ bs -> writes_only table_store bs (cache_set table_store b k x).
Proof.
  intros Hb g r g' [= <- <-]. simpl. split; [done|].
  intros b' Hb'. rewrite decide_False; [done|]. by intros ->.
Qed.

Lemma generic_init_pure (b : basis) (name prefix : string) (R : ring)
    (q t : option val) (g g' : globals table_store) (r : result instance) :
  generic_init table_store b name prefix R q t g = (r, g') -> g' = g.
Proof.
  unfold generic_init. destruct q as [q|], t as [t|];
    repeat case_match; unfold ret, raise; congruence.
Qed.

Lemma writes_only_generic_init (b : basis) (name prefix : string) (R : ring)
    (q t : option val) (bs : list basis) :
  writes_only table_store bs (generic_init table_store b name prefix R q t).
Proof.
  intros g r g' Hrun. by rewrite (generic_init_pure _ _ _ _ _ _ _ _ _ Hrun).
Qed.

Lemma writes_only_cache_call (b : basis)
    (factory : ring -> option val -> option val -> M instance)
    (R : ring) (q t : option val) (bs : list basis) :
  b ∈ bs ->
  writes_only table_store bs (factory R q t) ->
  writes_only table_store bs (cache_call table_store b factory R q t).
Proof.
  intros Hb Hf g r g'. unfold cache_call.
  destruct (assoc _ _) as [x|].
  - by intros [= <- <-].
  - apply writes_only_bind; [done|]. intros a.
    apply writes_only_bind; [by apply writes_only_cache_set|].
    intros _. apply writes_only_ret.
Qed.

Ltac frame_step :=
  first
    [ apply writes_only_ret
    | apply writes_only_generic_init
    | apply writes_only_cache_set; set_unfold; tauto
    | apply writes_only_bind; [|intros ?] ].

Lemma writes_only_S (R : ring) (q t : option val) :
  writes_only table_store [McdS] (MacdonaldPolynomialsS table_store R q t).
Proof.
  apply writes_only_cache_call; [set_unfold; tauto|].
  unfold MacdonaldPolynomials_s, _set_cache. repeat frame_step.
Qed.

Lemma writes_only_J (R : ring) (q t : option val) :
  writes_only table_store [McdJ; McdS] (MacdonaldPolynomialsJ table_store R q t).
Proof.
  apply writes_only_cache_call; [set_unfold; tauto|].
  unfold MacdonaldPolynomials_j, _set_cache. repeat frame_step.
  apply (writes_only_weaken _ _ [McdS]); [set_unfold; tauto|apply writes_only_S].
Qed.

Lemma writes_only_P (R : ring) (q t : option val) :
  writes_only table_store [McdP; McdJ; McdS]
    (MacdonaldPolynomialsP table_store R q t).
Proof.
  apply writes_only_cache_call; [set_unfold; tauto|].
  unfold MacdonaldPolynomials_p, _set_cache. repeat frame_step.
  apply (writes_only_weaken _ _ [McdJ; McdS]); [set_unfold; tauto|apply writes_only_J].
Qed.

Lemma writes_only_Q (R : ring) (q t : option val) :
  writes_only table_store [McdQ; McdJ; McdP; McdS]
    (MacdonaldPolynomialsQ table_store R q t).
Proof.
  apply writes_only_cache_call; [set_unfold; tauto|].
  unfold MacdonaldPolynomials_q, _set_cache. repeat frame_step.
  - apply (writes_only_weaken _ _ [McdJ; McdS]); [set_unfold; tauto|apply writes_only_J].
  - apply (writes_only_weaken _ _ [McdP; McdJ; McdS]);
      [set_unfold; tauto|apply writes_only_P].
Qed.

Lemma writes_only_Ht (R : ring) (q t : option val) :
  writes_only table_store [McdHt; McdJ; McdS]
    (MacdonaldPolynomialsHt table_store R q t).
Proof.
  apply writes_only_cache_call; [set_unfold; tauto|].
  unfold MacdonaldPolynomials_ht, _set_cache. repeat frame_step.
  apply (writes_only_weaken _ _ [McdJ; McdS]); [set_unfold; tauto|apply writes_only_J].
Qed.

Lemma writes_only_H (R : ring) (q t : option val) :
  writes_only table_store [McdH; McdHt; McdJ; McdS]
    (MacdonaldPolynomialsH table_store R q t).
Proof.
  apply writes_only_cache_call; [set_unfold; tauto|].
  unfold MacdonaldPolynomials_h, _set_cache. repeat frame_step.
  apply (writes_only_weaken _ _ [McdHt; McdJ; McdS]);
    [set_unfold; tauto|apply writes_only_Ht].
Qed.

(** X13: the public function of a basis, whether it returns or
    raises, leaves the tables of structure constants as they are and
    writes no instance cache but its own and those of the bases its
    constructor builds: S alone for S; J and S for J; P, J and S for
    P; Q, J, P and S for Q; Ht, J and S for Ht; H, Ht, J and S for H. *)
Theorem construction_frame (b : basis) (R : ring) (q t : option val) :
  writes_only table_store (built_with b) (cached_constructor table_store b R q t).
Proof.
  destruct b; simpl;
    first [apply writes_only_P | apply writes_only_Q | apply writes_only_J
          | apply writes_only_H | apply writes_only_Ht | apply writes_only_S].
Qed.

Lemma generic_init_tag (b : basis) (name prefix : string) (R : ring)
    (q t : option val) (g g' : globals table_store) (self : instance) :
  generic_init table_store b name prefix R q t g = (Ok self, g') -> i_tag self = b.
Proof.
  unfold generic_init. destruct q as [q|], t as [t|];
    repeat case_match; unfold ret, raise; intros [= <- <-]; done.
Qed.

Lemma assoc_head (k : key) (x : instance) (l : list (key * instance)) :
  assoc k ((k, x) :: l) = Some x.
Proof. simpl. by rewrite decide_True. Qed.

Lemma set_cache_run (b : basis) (self : instance) (g g' : globals table_store)
    (r : result unit) :
  _set_cache table_store b self g = (r, g') ->
  r = Ok tt
  /\ instance_cache table_store g' b
     = ((i_base_ring self, Some (i_q self), Some (i_t self)), self)
         :: instance_cache table_store g b.
Proof.
  unfold _set_cache, cache_set. intros [= <- <-]. simpl.
  by rewrite decide_True.
Qed.

Ltac run_inv H :=
  let a := fresh "a" in
  let g0 := fresh "g0" in
  let H1 := fresh "Hstep" in
  let e := fresh "e" in
  apply bind_inv in H as [(a & g0 & H1 & H)|(e & _ & [=])].

Lemma sets_alias_last (b : basis) (self x : instance)
    (g0 g1 : globals table_store) :
  i_tag self = b ->
  bind (_set_cache table_store b self) (fun _ => ret self) g0 = (Ok x, g1) ->
  assoc (i_base_ring x, Some (i_q x), Some (i_t x)) (instance_cache table_store g1 b) = Some x
  /\ i_tag x = b.
Proof.
  intros Htag Hrun. run_inv Hrun. injection Hrun as <- <-.
  apply set_cache_run in Hstep as [_ ->]. split; [apply assoc_head|done].
Qed.

Lemma sets_alias_s (R : ring) (q t : option val) :
  sets_alias table_store McdS (MacdonaldPolynomials_s table_store R q t).
Proof.
  intros g self g1 Hrun. unfold MacdonaldPolynomials_s in Hrun.
  run_inv Hrun.
  pose proof (generic_init_tag _ _ _ _ _ _ _ _ _ Hstep) as Htag.
  by apply (sets_alias_last McdS a self g0 g1).
Qed.

Lemma sets_alias_j (R : ring) (q t : option val) :
  sets_alias table_store McdJ (MacdonaldPolynomials_j table_store R q t).
Proof.
  intros g self g1 Hrun. unfold MacdonaldPolynomials_j in Hrun.
  run_inv Hrun.
  pose proof (generic_init_tag _ _ _ _ _ _ _ _ _ Hstep) as Htag.
  run_inv Hrun.
  by apply (sets_alias_last McdJ a self g2 g1).
Qed.

Lemma sets_alias_p (R : ring) (q t : option val) :
  sets_alias table_store McdP (MacdonaldPolynomials_p table_store R q t).
Proof.
  intros g self g1 Hrun. unfold MacdonaldPolynomials_p in Hrun.
  run_inv Hrun.
  pose proof (generic_init_tag _ _ _ _ _ _ _ _ _ Hstep) as Htag.
  run_inv Hrun. apply set_cache_run in Hstep0 as [_ Hcache].
  run_inv Hrun. injection Hrun as <- <-.
  destruct (writes_only_J R q t _ _ _ Hstep0) as [_ Hframe].
  rewrite (Hframe McdP) by (set_unfold; intuition discriminate).
  rewrite Hcache. split; [apply assoc_head|done].
Qed.

Lemma sets_alias_q (R : ring) (q t : option val) :
  sets_alias table_store McdQ (MacdonaldPolynomials_q table_store R q t).
Proof.
  intros g self g1 Hrun. unfold MacdonaldPolynomials_q in Hrun.
  run_inv Hrun.
  pose proof (generic_init_tag _ _ _ _ _ _ _ _ _ Hstep) as Htag.
  run_inv Hrun. run_inv Hrun.
  by apply (sets_alias_last McdQ a self g3 g1).
Qed.

Lemma sets_alias_ht (R : ring) (q t : option val) :
  sets_alias table_store McdHt (MacdonaldPolynomials_ht table_store R q t).
Proof.
  intros g self g1 Hrun. unfold MacdonaldPolynomials_ht in Hrun.
  run_inv Hrun.
  pose proof (generic_init_tag _ _ _ _ _ _ _ _ _ Hstep) as Htag.
  run_inv Hrun.
  by apply (sets_alias_last McdHt a self g2 g1).
Qed.

Lemma sets_alias_h (R : ring) (q t : option val) :
  sets_alias table_store McdH (MacdonaldPolynomials_h table_store R q t).
Proof.
  intros g self g1 Hrun. unfold MacdonaldPolynomials_h in Hrun.
  run_inv Hrun.
  pose proof (generic_init_tag _ _ _ _ _ _ _ _ _ Hstep) as Htag.
  run_inv Hrun.
  by apply (sets_alias_last McdH a self g2 g1).
Qed.

Lemma sets_alias_constructor (b : basis) (R : ring) (q t : option val) :
  is_macdonald b = true ->
  sets_alias table_store b (constructor table_store b R q t).
Proof.
  destruct b; try discriminate; intros _; simpl.
  - apply sets_alias_p.
  - apply sets_alias_q.
  - apply sets_alias_j.
  - apply sets_alias_h.
  - apply sets_alias_ht.
  - apply sets_alias_s.
Qed.

Lemma cached_constructor_call (b : basis) :
  is_macdonald b = true ->
  cached_constructor table_store b
  = cache_call table_store b (constructor table_store b).
Proof. destruct b; try discriminate; done. Qed.

(** X14: when a basis is built by its public function for
    arguments that its instance cache does not hold yet, the same
    call again, and the call with the base ring, the [q] and the [t]
    of the basis that was built, both return that same basis and
    change nothing. *)
Theorem construction_cached (b : basis) (R : ring) (q t : option val)
    (g g' : globals table_store) (self : instance) :
  is_macdonald b = true ->
  assoc (R, q, t) (instance_cache table_store g b) = None ->
  cached_constructor table_store b R q t g = (Ok self, g') ->
  cached_constructor table_store b R q t g' = (Ok self, g')
  /\ cached_constructor table_store b
       (i_base_ring self) (Some (i_q self)) (Some (i_t self)) g'
     = (Ok self, g')
  /\ i_tag self = b.
Proof.
  intros Hb Hnone Hrun. rewrite cached_constructor_call in * by done.
  unfold cache_call in Hrun. rewrite Hnone in Hrun.
  run_inv Hrun. run_inv Hrun. injection Hrun as <- <-.
  destruct (sets_alias_constructor b R q t Hb g a g0 Hstep) as [Halias Htag].
  unfold cache_set in Hstep0. injection Hstep0 as Hu Hg1.
  assert (Hcache : instance_cache table_store g1 b
                   = (R, q, t, a) :: instance_cache table_store g0 b).
  { rewrite <- Hg1. simpl. by rewrite decide_True. }
  clear Hg1. unfold cache_call. rewrite Hcache. rewrite assoc_head.
  split; [done|]. split; [|done].
  simpl. case_decide; [done|]. by rewrite Halias.
Qed.

End ConstructorCache.

(** [construction_cached] with the small rings: the S basis over the
    ring 0, with neither [q] nor [t], from empty caches. *)
Lemma construction_cached_witness :
  let g := Globals unit tt (fun _ => []) in
  let r := cached_constructor (H := small_rings) unit McdS 0 None None g in
  exists self,
    r.1 = Ok self
    /\ cached_constructor (H := small_rings) unit McdS
         (i_base_ring self) (Some (i_q self)) (Some (i_t self)) r.2
       = (Ok self, r.2).
Proof.
  intros g r.
  assert (Hr : exists self, r = (Ok self, r.2)).
  { eexists. reflexivity. }
  destruct Hr as [self Hr]. exists self. split; [by rewrite Hr|].
  apply (@construction_cached small_rings unit McdS 0 None None g r.2 self).
  - reflexivity.
  - reflexivity.
  - exact Hr.
Defined.

(** ** Degrees and lengths through the creation operators *)

Section SupportFacts.
Context `{ScalarField}.

Lemma supported_empty (Q : partition -> Prop) : supported Q ∅.
Proof. intros m c Hm. by rewrite lookup_empty in Hm. Qed.

Lemma supported_basis_elt (Q : partition -> Prop) (m : partition) :
  Q m -> supported Q (basis_elt m).
Proof.
  intros HQ k c Hk. unfold basis_elt in Hk.
  by apply lookup_singleton_Some in Hk as [<- _].
Qed.

Lemma supported_elt_add (Q : partition -> Prop) (x y : coeffs_t) :
  supported Q x -> supported Q y -> supported Q (elt_add x y).
Proof.
  intros Hx Hy m c Hm. unfold elt_add in Hm.
  rewrite lookup_union_with in Hm.
  destruct (x !! m) as [a|] eqn:Hxm; [by apply (Hx m a)|].
  destruct (y !! m) as [b|] eqn:Hym; [by apply (Hy m b)|].
  done.
Qed.

Lemma supported_elt_scal (Q : partition -> Prop) (c : F) (x : coeffs_t) :
  supported Q x -> supported Q (elt_scal c x).
Proof.
  intros Hx m d Hm. unfold elt_scal in Hm. rewrite lookup_omap in Hm.
  destruct (x !! m) as [a|] eqn:Hxm; [by apply (Hx m a)|done].
Qed.

Lemma supported_weaken (Q Q' : partition -> Prop) (x : coeffs_t) :
  (forall m, Q m -> Q' m) -> supported Q x -> supported Q' x.
Proof. intros HQ Hx m c Hm. apply HQ. by apply (Hx m c). Qed.

Lemma supported_elt_sum (Q : partition -> Prop) (l : list coeffs_t) :
  Forall (supported Q) l -> supported Q (elt_sum l).
Proof.
  unfold elt_sum. generalize (supported_empty Q).
  generalize (∅ : coeffs_t) as acc.
  induction l as [|y l IH]; intros acc Hacc Hl; simpl; [done|].
  inversion Hl; subst. apply IH; [by apply supported_elt_add|done].
Qed.

Lemma supported_apply_module_morphism (Q : partition -> Prop) (x : coeffs_t)
    (f : partition -> coeffs_t) :
  (forall m c, x !! m = Some c -> supported Q (f m)) ->
  supported Q (apply_module_morphism x f).
Proof.
  unfold apply_module_morphism.
  induction x as [|m c x Hm Hfirst IH] using map_first_key_ind; intros Hf.
  - rewrite map_fold_empty. apply supported_empty.
  - rewrite map_fold_insert_first_key by done.
    apply supported_elt_add.
    + apply IH. intros m' c' Hm'. apply (Hf m' c').
      rewrite lookup_insert_ne; [done|congruence].
    + apply supported_elt_scal. apply (Hf m c), lookup_insert_eq.
Qed.

Lemma supported_coefficient (Q : partition -> Prop) (x : coeffs_t) (k : partition) :
  supported Q x -> ~ Q k -> coefficient x k = 0%F.
Proof.
  intros Hx Hk. unfold coefficient.
  destruct (x !! k) as [c|] eqn:Hxk; [|done].
  destruct Hk. by apply (Hx k c).
Qed.

End SupportFacts.

Lemma size_insert_desc (x : nat) (l : list nat) :
  size (insert_desc x l) = x + size l.
Proof.
  unfold size. induction l as [|y l IH]; simpl; [done|].
  case_match; simpl; lia.
Qed.

Lemma length_insert_desc (x : nat) (l : list nat) :
  length (insert_desc x l) = S (length l).
Proof.
  induction l as [|y l IH]; simpl; [done|].
  case_match; simpl; lia.
Qed.

Lemma size_merge_parts (a b : partition) :
  size (merge_parts a b) = size a + size b.
Proof.
  unfold merge_parts. induction a as [|x a IH]; simpl; [done|].
  rewrite size_insert_desc, IH. unfold size. simpl. lia.
Qed.

Lemma length_merge_parts (a b : partition) :
  length (merge_parts a b) = length a + length b.
Proof.
  unfold merge_parts. induction a as [|x a IH]; simpl; [done|].
  by rewrite length_insert_desc, IH.
Qed.

Lemma hstrips_cons (bound : option nat) (x : nat) (rest : partition) (k : nat) :
  hstrips bound (x :: rest) k
  = flat_map
      (fun a =>
         if from_option (fun b => x + a <=? b) true bound
         then map (cons (x + a)) (hstrips (Some x) rest (k - a))
         else [])
      (seq 0 (S k)).
Proof. done. Qed.

Lemma hstrips_nil (bound : option nat) (k : nat) :
  hstrips bound [] k
  = match k with
    | O => [[]]
    | S _ => if from_option (fun b => k <=? b) true bound then [[k]] else []
    end.
Proof. done. Qed.

Lemma hstrips_size (lam : partition) :
  forall (bound : option nat) (k : nat) (mu : partition),
    In mu (hstrips bound lam k) -> size mu = size lam + k.
Proof.
  unfold size. induction lam as [|x rest IH]; intros bound k mu Hmu.
  - rewrite hstrips_nil in Hmu.
    destruct k as [|k]; [destruct Hmu as [<-|[]]; done|].
    case_match; [|done]. destruct Hmu as [<-|[]]. simpl. lia.
  - rewrite hstrips_cons in Hmu.
    apply in_flat_map in Hmu as (a & Ha & Hmu).
    apply in_seq in Ha. case_match; [|done].
    apply in_map_iff in Hmu as (nu & <- & Hnu).
    apply IH in Hnu. simpl. lia.
Qed.

Lemma hstrips_length (lam : partition) :
  forall (bound : option nat) (k : nat) (mu : partition),
    In mu (hstrips bound lam k) -> length mu <= S (length lam).
Proof.
  induction lam as [|x rest IH]; intros bound k mu Hmu.
  - rewrite hstrips_nil in Hmu.
    destruct k as [|k]; [destruct Hmu as [<-|[]]; simpl; lia|].
    case_match; [|done]. destruct Hmu as [<-|[]]. simpl. lia.
  - rewrite hstrips_cons in Hmu.
    apply in_flat_map in Hmu as (a & Ha & Hmu).
    case_match; [|done].
    apply in_map_iff in Hmu as (nu & <- & Hnu).
    apply IH in Hnu. simpl. lia.
Qed.

Section DegreeFacts.
Context `{ScalarField}.

(** Elements whose partitions have [d] cells and at most [l] parts. *)
Lemma supported_h_mul (Qa Qb Q : partition -> Prop) (x y : coeffs_t) :
  (forall a b, Qa a -> Qb b -> Q (merge_parts a b)) ->
  supported Qa x -> supported Qb y -> supported Q (h_mul x y).
Proof.
  intros HQ Hx Hy. unfold h_mul.
  apply supported_apply_module_morphism. intros a ca Ha.
  apply supported_apply_module_morphism. intros b cb Hb.
  apply supported_basis_elt. apply HQ; [by apply (Hx a ca)|by apply (Hy b cb)].
Qed.

Lemma supported_pieri (d l k : nat) (x : coeffs_t) :
  supported (fun m => size m = d /\ length m <= l) x ->
  supported (fun m => size m = d + k /\ length m <= S l) (pieri x k).
Proof.
  intros Hx. unfold pieri.
  apply supported_apply_module_morphism. intros lam c Hlam.
  destruct (Hx lam c Hlam) as [Hsize Hlen].
  apply supported_elt_sum, Forall_forall. intros y Hy.
  apply list_elem_of_In, in_map_iff in Hy as (mu & <- & Hmu).
  apply supported_basis_elt. split.
  - apply hstrips_size in Hmu. lia.
  - apply hstrips_length in Hmu. lia.
Qed.

Lemma supported_fold_pieri (mu : partition) :
  forall (d l : nat) (acc : coeffs_t),
    supported (fun m => size m = d /\ length m <= l) acc ->
    supported (fun m => size m = d + size mu /\ length m <= l + length mu)
              (fold_left pieri mu acc).
Proof.
  induction mu as [|k mu IH]; intros d l acc Hacc; simpl.
  - eapply supported_weaken; [|exact Hacc].
    intros m [? ?]. unfold size in *. simpl. lia.
  - eapply supported_weaken; [|apply (IH (d + k) (S l)), supported_pieri, Hacc].
    intros m [? ?]. unfold size in *. simpl in *. lia.
Qed.

Lemma supported_h_to_s (d l : nat) (x : coeffs_t) :
  supported (fun m => size m = d /\ length m <= l) x ->
  supported (fun m => size m = d /\ length m <= l) (h_to_s x).
Proof.
  intros Hx. unfold h_to_s.
  apply supported_apply_module_morphism. intros mu c Hmu.
  destruct (Hx mu c Hmu) as [Hsize Hlen].
  eapply supported_weaken;
    [|apply (supported_fold_pieri mu 0 0), supported_basis_elt; by split].
  intros m [? ?]. unfold size in *. simpl in *. lia.
Qed.

End DegreeFacts.

(** ** The determinant of the creation operator *)

Lemma zsum_remove_nth (cs : list Z) (j : nat) (c : Z) :
  cs !! j = Some c ->
  (foldr Z.add 0 (remove_nth j cs) + c = foldr Z.add 0 cs)%Z.
Proof.
  unfold remove_nth. revert j. induction cs as [|a cs IH]; intros [|j] Hj;
    simpl in *; try done.
  - injection Hj as ->. rewrite drop_0. lia.
  - specialize (IH j Hj). lia.
Qed.

Lemma length_remove_nth (A : Type) (l : list A) (j : nat) :
  j < length l -> length (remove_nth j l) = length l - 1.
Proof.
  intros Hj. unfold remove_nth.
  rewrite length_app, length_take, length_drop. lia.
Qed.

Section DeterminantFacts.
Context `{ScalarField}.

(** A matrix whose entry in the row [i] and the column [j] has
    partitions of [rs_i + cs_j] cells and at most one part. *)
Lemma det_h_supported (n : nat) :
  forall (M : list (list coeffs_t)) (rs cs : list Z),
    length cs = n ->
    Forall2 (fun r row =>
               Forall2 (fun c a =>
                          supported (fun m => Z.of_nat (size m) = (r + c)%Z
                                              /\ length m <= 1) a)
                       cs row)
            rs M ->
    length M = n ->
    supported (fun m => Z.of_nat (size m)
                        = (foldr Z.add 0 rs + foldr Z.add 0 cs)%Z
                        /\ length m <= n)
              (det_h n M).
Proof.
  induction n as [|n IH]; intros M rs cs Hcs HM Hlen.
  - destruct M; [|done]. destruct cs; [|done]. inversion HM; subst.
    simpl. apply supported_basis_elt. done.
  - destruct M as [|row rows]; [done|].
    inversion HM as [|r row' rs' rows' Hrow Hrows]; subst.
    simpl. apply supported_elt_sum, Forall_forall. intros y Hy.
    apply elem_of_lookup_imap in Hy as (j & a & -> & Hj).
    destruct (Forall2_lookup_r _ _ _ _ _ Hrow Hj) as (c & Hc & Ha).
    apply supported_elt_scal.
    assert (Hjn : j < length cs) by (by apply lookup_lt_Some in Hc).
    eapply supported_h_mul; [|exact Ha|apply (IH _ rs' (remove_nth j cs))].
    + intros p p' [Hs Hl] [Hs' Hl'].
      rewrite size_merge_parts, length_merge_parts.
      pose proof (zsum_remove_nth cs j c Hc). simpl. split; lia.
    + rewrite length_remove_nth by done. lia.
    + clear -Hrows. induction Hrows as [|r row rs rows Hr Hrows IHr];
        simpl; constructor; [|done].
      unfold remove_nth. apply Forall2_app;
        [by apply Forall2_take|by apply Forall2_drop].
    + rewrite length_map. simpl in Hlen. lia.
Qed.

End DeterminantFacts.

Lemma Forall2_map_diag (A B C : Type) (P : B -> C -> Prop) (f : A -> B)
    (g : A -> C) (l : list A) :
  (forall a, In a l -> P (f a) (g a)) -> Forall2 P (map f l) (map g l).
Proof.
  induction l as [|a l IH]; intros Hl; simpl; constructor.
  - apply Hl. by left.
  - apply IH. intros b Hb. apply Hl. by right.
Qed.

Lemma zsum_rows_columns (a : nat -> Z) (n : nat) :
  forall s : nat,
    (foldr Z.add 0 (map (fun i => a i - Z.of_nat i + 1) (seq s n))
     + foldr Z.add 0 (map Z.of_nat (seq s n))
     = foldr Z.add 0 (map a (seq s n)) + Z.of_nat n)%Z.
Proof.
  induction n as [|n IH]; intros s; simpl; [done|].
  specialize (IH (S s)). lia.
Qed.

Lemma zsum_nth (part : list nat) :
  foldr Z.add 0%Z (map (fun i => Z.of_nat (nth i part 0)) (seq 0 (length part)))
  = Z.of_nat (list_sum part).
Proof.
  induction part as [|x part IH]; simpl; [done|].
  rewrite <- seq_shift, map_map. simpl. rewrite IH. lia.
Qed.

Lemma size_padded (k : nat) (part : list nat) : size (padded k part) = size part.
Proof.
  unfold size, padded. rewrite list_sum_app.
  assert (Hz : forall n, list_sum (replicate n 0) = 0).
  { intros n. induction n; simpl; lia. }
  rewrite Hz. lia.
Qed.

Section CreationDegree.
Context `{ScalarField}.

Lemma creation_matrix_rows (q t : F) (k : nat) (part : list nat) :
  Forall2 (fun r row =>
             Forall2 (fun c a =>
                        supported (fun m => Z.of_nat (size m) = (r + c)%Z
                                            /\ length m <= 1) a)
                     (map Z.of_nat (seq 0 k)) row)
          (map (fun i => (Z.of_nat (nth i part 0%nat) - Z.of_nat i + 1)%Z) (seq 0 k))
          (map (fun i => creation_row q t k i (nth i part 0%nat)) (seq 0 k)).
Proof.
  apply Forall2_map_diag. intros i Hi. unfold creation_row.
  apply in_seq in Hi.
  set (pi := Z.of_nat (nth i part 0)).
  set (lo := Z.to_nat (Z.max 0 (Z.of_nat i + 1 - 2 - pi))).
  assert (Hlo : lo <= k) by lia.
  replace (seq 0 k) with (seq 0 lo ++ seq lo (k - lo)).
  2:{ rewrite <- seq_app. f_equal. lia. }
  rewrite map_app. apply Forall2_app.
  - apply Forall2_replicate_r; [by rewrite length_map, length_seq|].
    apply Forall_forall. intros c _. apply supported_empty.
  - apply Forall2_map_diag. intros j Hj. apply in_seq in Hj.
    apply supported_elt_scal, supported_basis_elt.
    case_match eqn:Hv.
    + apply Z.ltb_lt in Hv. unfold size. simpl. split; lia.
    + apply Z.ltb_ge in Hv. unfold size. simpl. split; lia.
Qed.

Lemma helper_supported (q t : F) (k : nat) (part : list nat) :
  length part <= k ->
  supported (fun m => size m = size part + k /\ length m <= k)
            (h_to_s (det_h k (padded_rows q t k part))).
Proof.
  intros Hk. apply supported_h_to_s.
  pose proof (length_padded k part Hk) as Hlen.
  assert (Hcs : length (map Z.of_nat (seq 0 k)) = k)
    by (by rewrite length_map, length_seq).
  eapply supported_weaken;
    [|apply (det_h_supported k _ _ _ Hcs (creation_matrix_rows q t k (padded k part)))].
  - intros m [Hs Hl]. split; [|done].
    pose proof (zsum_rows_columns (fun i => Z.of_nat (nth i (padded k part) 0)) k 0)
      as Hsum.
    rewrite <- Hlen in Hsum at 3. rewrite zsum_nth in Hsum.
    fold (size (padded k part)) in Hsum. rewrite size_padded in Hsum.
    lia.
  - by rewrite length_map, length_seq.
Qed.

Lemma creation_cases (q t : F) (x : coeffs_t) (k : nat) :
  creation q t x k
  = if too_long k x then Raise ValueError
    else Ok (apply_module_morphism x
               (fun part =>
                  h_to_s (det_h k (padded_rows q t k part)))).
Proof.
  unfold creation, _creation_by_determinant, too_long.
  case_bool_decide as Hlong.
  - apply apply_module_morphism_r_raises.
    + intros m e'. rewrite helper_spec. by case_decide; intros [=].
    + destruct Hlong as (m & c & Hmc & Hk). exists m, c. split; [done|].
      rewrite helper_spec. by rewrite decide_True.
  - apply apply_module_morphism_r_ok. intros m c Hmc.
    rewrite helper_spec. rewrite decide_False; [done|].
    intros Hk. apply Hlong. by exists m, c.
Qed.

Lemma creation_supported (q t : F) (x y : coeffs_t) (k n : nat) :
  supported (fun m => size m = n) x ->
  creation q t x k = Ok y ->
  supported (fun m => size m = n + k /\ length m <= k) y
  /\ supported (fun m => length m <= k) x.
Proof.
  intros Hx. rewrite creation_cases. unfold too_long.
  case_bool_decide as Hlong; [done|]. intros [= <-].
  assert (Hlen : supported (fun m => length m <= k) x).
  { intros m c Hm. apply Nat.nlt_ge. intros Hk. apply Hlong. by exists m, c. }
  split; [|done].
  apply supported_apply_module_morphism. intros part c Hpart.
  rewrite <- (Hx part c Hpart). apply helper_supported. by apply (Hlen part c).
Qed.

(** X15: when [x.creation(k)] returns for an element [x] of the S
    basis whose partitions all have [n] cells, every partition of
    [x] has at most [k] parts, and every partition of the result has
    [n + k] cells and at most [k] parts. *)
Theorem creation_adds_column (q t : F) (x y : coeffs_t) (k n : nat) :
  supported (fun m => size m = n) x ->
  creation q t x k = Ok y ->
  supported (fun m => size m = n + k /\ length m <= k) y
  /\ supported (fun m => length m <= k) x.
Proof. apply creation_supported. Qed.

End CreationDegree.

(** [creation_adds_column] with [q = 2] and [t = 3]: [S([1]).creation(2)]. *)
Lemma creation_adds_column_witness :
  let q : @F Qc_field := Qc_of_Z 2 in
  let t : @F Qc_field := Qc_of_Z 3 in
  exists y,
    creation q t (basis_elt [1]) 2 = Ok y
    /\ supported (fun m => size m = 1 + 2 /\ length m <= 2) y.
Proof.
  intros q t.
  destruct (creation q t (basis_elt [1]) 2) as [y|e] eqn:Hy.
  - exists y. split; [reflexivity|].
    apply (@creation_adds_column Qc_field q t (basis_elt [1]) y 2 1);
      [|exact Hy].
    apply supported_basis_elt. reflexivity.
  - exfalso. rewrite creation_cases in Hy.
    assert (Hl : too_long 2 (@basis_elt Qc_field [1]) = false)
      by (vm_compute; reflexivity).
    rewrite Hl in Hy. discriminate Hy.
Defined.

(** ** The expansion rules of the J and S bases *)

Lemma hstrips_bounded (rest : partition) :
  forall (b c k : nat) (nu : partition),
    In nu (hstrips (Some b) rest k) ->
    b <= c -> Forall (fun x => x <= c) rest -> Forall (fun x => x <= c) nu.
Proof.
  induction rest as [|x rest IH]; intros b c k nu Hnu Hbc Hrest.
  - rewrite hstrips_nil in Hnu. destruct k as [|k].
    + destruct Hnu as [<-|[]]. constructor.
    + cbn [from_option] in Hnu. case_match eqn:Hb; [|done].
      destruct Hnu as [<-|[]].
      apply Nat.leb_le in Hb. repeat constructor. lia.
  - rewrite hstrips_cons in Hnu.
    apply in_flat_map in Hnu as (a & _ & Hnu). cbn [from_option] in Hnu.
    case_match eqn:Hb; [|done]. apply Nat.leb_le in Hb.
    apply in_map_iff in Hnu as (nu' & <- & Hnu').
    inversion Hrest; subst. constructor; [lia|].
    apply (IH x c _ nu' Hnu'); [lia|done].
Qed.

Lemma hstrips_head_max (lam : partition) (k : nat) (mu : partition) :
  In mu (hstrips None lam k) ->
  Forall (fun x => x <= hd 0 lam) lam ->
  Forall (fun x => x <= hd 0 mu) mu.
Proof.
  destruct lam as [|x rest]; intros Hmu Hlam.
  - rewrite hstrips_nil in Hmu. destruct k as [|k].
    + destruct Hmu as [<-|[]]. constructor.
    + cbn [from_option] in Hmu. destruct Hmu as [<-|[]]. repeat constructor.
  - rewrite hstrips_cons in Hmu.
    apply in_flat_map in Hmu as (a & _ & Hmu). cbn [from_option] in Hmu.
    apply in_map_iff in Hmu as (nu & <- & Hnu). simpl.
    inversion Hlam; subst. simpl in *. constructor; [lia|].
    apply (hstrips_bounded rest x (x + a) _ nu Hnu); [lia|].
    eapply Forall_impl; [exact H2|]. intros y Hy. simpl in Hy. lia.
Qed.

Lemma list_sum_map_add (A : Type) (f g : A -> nat) (l : list A) :
  list_sum (map (fun a => f a + g a) l) = list_sum (map f l) + list_sum (map g l).
Proof. induction l as [|a l IH]; simpl; lia. Qed.

Lemma count_below (x : nat) :
  forall s h : nat,
    list_sum (map (fun j => if j <? x then 1 else 0) (seq s h))
    = Nat.min (s + h) x - Nat.min s x.
Proof.
  intros s h. revert s. induction h as [|h IH]; intros s; simpl.
  - rewrite Nat.add_0_r. lia.
  - rewrite IH. destruct (s <? x) eqn:Hs.
    + apply Nat.ltb_lt in Hs. lia.
    + apply Nat.ltb_ge in Hs. lia.
Qed.

Lemma size_conjugate_bounded (m : partition) (h : nat) :
  Forall (fun x => x <= h) m ->
  list_sum (map (fun j => length (List.filter (fun x => j <? x) m)) (seq 0 h))
  = list_sum m.
Proof.
  induction m as [|x m IH]; intros Hm.
  - simpl. induction (seq 0 h) as [|j l IHl]; simpl; [done|exact IHl].
  - inversion Hm; subst.
    rewrite (map_ext _
               (fun j => (if j <? x then 1 else 0)
                         + length (List.filter (fun y => j <? y) m))).
    2:{ intros j. simpl. by destruct (j <? x). }
    rewrite list_sum_map_add, IH by done. rewrite count_below. simpl. lia.
Qed.

Lemma size_conjugate (m : partition) :
  Forall (fun x => x <= hd 0 m) m -> size (conjugate m) = size m.
Proof. intros Hm. unfold size, conjugate. by apply size_conjugate_bounded. Qed.

Lemma hd_conjugate (m : partition) : hd 0 (conjugate m) <= length m.
Proof.
  unfold conjugate. destruct (hd 0 m) as [|h]; simpl; [lia|].
  apply filter_length_le.
Qed.

Lemma weakly_decreasing_cons (k : nat) (rest : partition) :
  weakly_decreasing (k :: rest) = true ->
  hd 0 rest <= k /\ weakly_decreasing rest = true.
Proof.
  destruct rest as [|b rest]; simpl; [split; [lia|done]|].
  intros [Hb Hrest]%andb_true_iff. apply Nat.leb_le in Hb. done.
Qed.

Section ExpansionRules.
Context `{ScalarField}.

Lemma supported_and (P Q : partition -> Prop) (x : coeffs_t) :
  supported P x -> supported Q x -> supported (fun m => P m /\ Q m) x.
Proof. intros HP HQ m c Hm. split; [by apply (HP m c)|by apply (HQ m c)]. Qed.

Lemma coefficient_supported (Q : partition -> Prop) (x : coeffs_t) (k : partition) :
  supported Q x -> coefficient x k <> 0%F -> Q k.
Proof.
  intros Hx Hk. unfold coefficient in Hk.
  destruct (x !! k) as [c|] eqn:Hxk; [by apply (Hx k c)|done].
Qed.

Lemma head_max_pieri (x : coeffs_t) (k : nat) :
  supported (fun m => Forall (fun a => a <= hd 0 m) m) x ->
  supported (fun m => Forall (fun a => a <= hd 0 m) m) (pieri x k).
Proof.
  intros Hx. unfold pieri.
  apply supported_apply_module_morphism. intros lam c Hlam.
  apply supported_elt_sum, Forall_forall. intros y Hy.
  apply list_elem_of_In, in_map_iff in Hy as (mu & <- & Hmu).
  apply supported_basis_elt.
  apply (hstrips_head_max lam k mu Hmu). by apply (Hx lam c).
Qed.

Lemma head_max_h_to_s (x : coeffs_t) :
  supported (fun m => Forall (fun a => a <= hd 0 m) m) (h_to_s x).
Proof.
  unfold h_to_s. apply supported_apply_module_morphism. intros mu c _.
  assert (Hacc : supported (fun m => Forall (fun a => a <= hd 0 m) m)
                   (basis_elt [])).
  { apply supported_basis_elt. constructor. }
  revert Hacc. generalize (basis_elt [] : coeffs_t) as acc.
  induction mu as [|k mu IH]; intros acc Hacc; simpl; [done|].
  apply IH. by apply head_max_pieri.
Qed.

Lemma creation_head_max (q t : F) (x y : coeffs_t) (k : nat) :
  creation q t x k = Ok y ->
  supported (fun m => Forall (fun a => a <= hd 0 m) m) y.
Proof.
  rewrite creation_cases. case_match; [done|]. intros [= <-].
  apply supported_apply_module_morphism. intros part c _.
  apply head_max_h_to_s.
Qed.

Lemma too_long_false (k : nat) (x : coeffs_t) :
  supported (fun m => length m <= k) x -> too_long k x = false.
Proof.
  intros Hx. unfold too_long. apply bool_decide_eq_false.
  intros (m & c & Hm & Hk). pose proof (Hx m c Hm). simpl in *. lia.
Qed.

(** The creation operators of [J._to_s], applied from the smallest
    part to the largest. *)
Lemma J_creations (q t : F) (part : partition) :
  weakly_decreasing part = true ->
  exists r,
    fold_left (fun res k => do r <- res; creation t q r k)
              (rev part) (Ok (basis_elt []))
    = Ok r
    /\ supported (fun m => (size m = size part /\ length m <= hd 0 part)
                           /\ Forall (fun a => a <= hd 0 m) m) r.
Proof.
  induction part as [|k rest IH]; intros Hpart.
  - exists (basis_elt []). split; [done|].
    apply supported_basis_elt. repeat split; constructor.
  - apply weakly_decreasing_cons in Hpart as [Hk Hrest].
    destruct (IH Hrest) as (r & Hr & Hsupp).
    simpl rev. rewrite fold_left_app, Hr. simpl.
    rewrite creation_cases.
    rewrite too_long_false.
    2:{ intros m c Hm. destruct (Hsupp m c Hm) as [[_ Hl] _]. lia. }
    eexists. split; [reflexivity|].
    assert (Hc : creation t q r k
                 = Ok (apply_module_morphism r
                         (fun part =>
                            h_to_s (det_h k (padded_rows t q k part))))).
    { rewrite creation_cases, too_long_false; [done|].
      intros m c Hm. destruct (Hsupp m c Hm) as [[_ Hl] _]. lia. }
    apply supported_and.
    + destruct (creation_supported t q r _ k (size rest)
                  (supported_weaken _ _ r (fun m Hm => proj1 (proj1 Hm)) Hsupp) Hc)
        as [Hy _].
      eapply supported_weaken; [|exact Hy].
      intros m [Hs Hl]. unfold size in *. simpl. split; lia.
    + apply (creation_head_max t q r _ k Hc).
Qed.

(** X16: for a partition [part], given with weakly decreasing
    parts, [J._to_s(part)] returns: none of its creation operators
    raises.  The function it returns vanishes on every partition
    that has not the number of cells of [part] or whose first part
    is larger than the first part of [part]. *)
Theorem J_to_s_partition (q t : F) (part : partition) :
  weakly_decreasing part = true ->
  exists f,
    J_to_s q t part = Ok f
    /\ forall k, f k <> 0%F -> size k = size part /\ hd 0 k <= hd 0 part.
Proof.
  intros Hpart. destruct (J_creations q t part Hpart) as (r & Hr & Hsupp).
  unfold J_to_s. rewrite Hr. simpl. eexists. split; [reflexivity|].
  intros k Hk.
  assert (Hom : supported
                  (fun k => exists m, ((size m = size part /\ length m <= hd 0 part)
                                       /\ Forall (fun a => a <= hd 0 m) m)
                                      /\ conjugate m = k)
                  (_omega_qt_in_schurs r)).
  { unfold _omega_qt_in_schurs. apply supported_apply_module_morphism.
    intros m c Hm. apply supported_basis_elt. exists m.
    split; [by apply (Hsupp m c)|done]. }
  destruct (coefficient_supported _ _ k Hom Hk) as (m & [[Hs Hl] Hmax] & <-).
  split.
  - by rewrite size_conjugate.
  - pose proof (hd_conjugate m). lia.
Qed.

Lemma supported_sum_of_terms (Q : partition -> Prop) (l : list (partition * F)) :
  Forall (fun mc => Q mc.1) l -> supported Q (sum_of_terms l).
Proof.
  unfold sum_of_terms. generalize (supported_empty Q).
  generalize (∅ : coeffs_t) as acc.
  induction l as [|mc l IH]; intros acc Hacc Hl; simpl; [done|].
  inversion Hl; subst. apply IH; [|done].
  apply supported_elt_add; [done|].
  by apply supported_elt_scal, supported_basis_elt.
Qed.

Lemma supported_from_dict (Q : partition -> Prop) (d : coeffs_t) :
  supported Q d -> supported Q (from_dict d).
Proof.
  intros Hd m c Hm. unfold from_dict in Hm. rewrite lookup_omap in Hm.
  destruct (d !! m) as [a|] eqn:Hdm; [by apply (Hd m a)|done].
Qed.

Lemma supported_map_item (Q : partition -> Prop) (f : partition -> F -> F)
    (x : coeffs_t) :
  supported Q x -> supported Q (map_item f x).
Proof.
  intros Hx. unfold map_item. apply supported_from_dict.
  intros m c Hm. rewrite map_lookup_imap in Hm.
  destruct (x !! m) as [a|] eqn:Hxm; [by apply (Hx m a)|done].
Qed.

Lemma supported_s_to_p_basis (lam : partition) :
  supported (fun m => In m (Partitions (size lam))) (s_to_p_basis lam).
Proof.
  unfold s_to_p_basis. apply supported_sum_of_terms, Forall_forall.
  intros mc Hmc. apply list_elem_of_In, in_map_iff in Hmc as (mu & <- & Hmu).
  done.
Qed.

Lemma supported_p_to_s_basis (mu : partition) :
  supported (fun m => In m (Partitions (size mu))) (p_to_s_basis mu).
Proof.
  unfold p_to_s_basis. apply supported_sum_of_terms, Forall_forall.
  intros mc Hmc. apply list_elem_of_In, in_map_iff in Hmc as (lam & <- & Hlam).
  done.
Qed.

(** X17: [S._to_s(part)] always returns, and the function it
    returns vanishes outside the partitions of the number of cells
    of [part], as [Partitions] lists them. *)
Theorem S_to_s_homogeneous (t : F) (part : partition) :
  exists f,
    S_to_s t part = Ok f
    /\ forall k, f k <> 0%F -> In k (Partitions (size part)).
Proof.
  unfold S_to_s. eexists. split; [reflexivity|]. intros k Hk.
  revert Hk. apply (coefficient_supported (fun m => In m (Partitions (size part)))).
  unfold p_to_s. apply supported_apply_module_morphism. intros mu c Hmu.
  assert (Hin : In mu (Partitions (size part))).
  { revert mu c Hmu.
    change (supported (fun m => In m (Partitions (size part)))
              (map_item
                 (fun m c => (c * fprod (map (fun k => 1 - t ^ k) m))%F)
                 (s_to_p (basis_elt part)))).
    apply supported_map_item.
    unfold s_to_p. apply supported_apply_module_morphism.
    intros lam c' Hlam. unfold basis_elt in Hlam.
    apply lookup_singleton_Some in Hlam as [<- _].
    apply supported_s_to_p_basis. }
  apply Partitions_size in Hin. rewrite <- Hin.
  apply supported_p_to_s_basis.
Qed.

End ExpansionRules.

(** [J_to_s_partition] with [q = 2] and [t = 3], for the partition
    [2,1]. *)
Lemma J_to_s_partition_witness :
  exists f,
    @J_to_s Qc_field (Qc_of_Z 2) (Qc_of_Z 3) [2; 1] = Ok f
    /\ forall k, f k <> 0%F -> size k = 3 /\ hd 0 k <= 2.
Proof.
  apply (@J_to_s_partition Qc_field (Qc_of_Z 2) (Qc_of_Z 3) [2; 1]).
  reflexivity.
Defined.

(** ** The qt-Kostka polynomials *)

Lemma bind_cases (S A B : Type) (m : ST S A) (k : A -> ST S B) (s s' : S)
    (r : result B) :
  bind m k s = (r, s') ->
  (exists a s1, m s = (Ok a, s1) /\ k a s1 = (r, s'))
  \/ (exists e, m s = (Raise e, s') /\ r = Raise e).
Proof.
  unfold bind. destruct (m s) as [[a|e] s1] eqn:Hm.
  - intros Hk. left. by exists a, s1.
  - intros [= <- <-]. right. by exists e.
Qed.

Lemma fold_insert_column (V : Type) (g : partition -> V) (p2 : partition)
    (parts : list partition) :
  forall (c : gmap (partition * partition) V) (key : partition * partition),
    fold_left (fun c p1 => <[(p1, p2) := g p1]> c) parts c !! key
    = if decide (key.2 = p2 /\ key.1 ∈ parts) then Some (g key.1) else c !! key.
Proof.
  induction parts as [|p parts IH]; intros c [k1 k2]; simpl.
  - rewrite decide_False; [done|]. intros [_ Hin]. by apply elem_of_nil in Hin.
  - rewrite IH. simpl. destruct (decide (k2 = p2 /\ k1 ∈ parts)) as [[-> Hin]|Hn].
    + rewrite decide_True; [done|]. split; [done|]. by apply list_elem_of_further.
    + destruct (decide (k2 = p2 /\ k1 ∈ p :: parts)) as [[-> Hin]|Hn'].
      * apply elem_of_cons in Hin as [->|Hin]; [apply lookup_insert_eq|].
        destruct Hn. done.
      * apply lookup_insert_ne. intros [= -> ->]. apply Hn'.
        split; [done|apply list_elem_of_here].
Qed.

Section KostkaFacts.
Context `{ScalarField} `{!Substitution} `{RingLibrary}.
Variable table_store : Type.
Variable Partition_of : list nat -> result partition.
Variable H_to_s : partition -> result (partition -> F).
Variable numerator : F -> F.

Add Field scalar_field_k : F_theory.

#[local] Abbreviation qt_kostka' :=
  (qt_kostka table_store Partition_of H_to_s numerator).
#[local] Abbreviation kstate := (kostka_state table_store).

Lemma kostka_lookup_run (lam mu : partition) (st st' : kstate) (r : result F) :
  kostka_lookup table_store lam mu st = (r, st') ->
  st' = st
  /\ match r with
     | Ok v => _qt_kostka_cache table_store st !! (lam, mu) = Some v
     | Raise e => _qt_kostka_cache table_store st !! (lam, mu) = None
     end.
Proof.
  unfold kostka_lookup. destruct (_ !! (lam, mu)) as [v|]; intros [= <- <-]; done.
Qed.

Lemma kostka_lookup_hit (lam mu : partition) (st : kstate) (v : F) :
  _qt_kostka_cache table_store st !! (lam, mu) = Some v ->
  kostka_lookup table_store lam mu st = (Ok v, st).
Proof. intros Hv. unfold kostka_lookup. by rewrite Hv. Qed.

(** What is done once the two arguments are partitions. *)
Lemma qt_kostka_unfold (lam mu : list nat) (lam' mu' : partition) (st : kstate) :
  Partition_of lam = Ok lam' ->
  Partition_of mu = Ok mu' ->
  qt_kostka' lam mu st
  = if negb (size lam' =? size mu') then (Ok 0%F, st)
    else if decide (is_Some (_qt_kostka_cache table_store st !! (lam', mu')))
         then kostka_lookup table_store lam' mu' st
         else (run _H <- on_globals table_store
                           (MacdonaldPolynomialsH table_store QQ None None);
               run u <- kostka_fill table_store H_to_s numerator
                          (Partitions (size mu')) (Partitions (size mu'));
               kostka_lookup table_store lam' mu') st.
Proof.
  intros Hlam Hmu. unfold qt_kostka.
  unfold bind at 1. unfold lift at 1. rewrite Hlam.
  unfold bind at 1. unfold lift at 1. rewrite Hmu.
  by destruct (negb (size lam' =? size mu')).
Qed.

Lemma qt_kostka_arguments (lam mu : list nat) (st st' : kstate) (v : F) :
  qt_kostka' lam mu st = (Ok v, st') ->
  exists lam' mu', Partition_of lam = Ok lam' /\ Partition_of mu = Ok mu'.
Proof.
  unfold qt_kostka. unfold bind at 1. unfold lift at 1.
  destruct (Partition_of lam) as [lam'|e]; [|done].
  unfold bind at 1. unfold lift at 1.
  destruct (Partition_of mu) as [mu'|e]; [|done].
  intros _. by exists lam', mu'.
Qed.

(** X18: [qt_kostka(lam, mu)] for two partitions with different
    numbers of cells returns zero, whatever the caches hold, and
    changes nothing: no basis is built and no table is computed. *)
Theorem qt_kostka_size_guard (lam mu : list nat) (lam' mu' : partition)
    (st : kostka_state table_store) :
  Partition_of lam = Ok lam' ->
  Partition_of mu = Ok mu' ->
  size lam' <> size mu' ->
  qt_kostka table_store Partition_of H_to_s numerator lam mu st = (Ok 0%F, st).
Proof.
  intros Hlam Hmu Hsize. rewrite (qt_kostka_unfold lam mu lam' mu') by done.
  apply Nat.eqb_neq in Hsize. by rewrite Hsize.
Qed.

(** X19: when [qt_kostka(lam, mu)] has returned a value, the same
    call in the state it left returns the same value and changes
    nothing: the value is read from [_qt_kostka_cache] or is the zero
    of the size test. *)
Theorem qt_kostka_memo (lam mu : list nat) (st st' : kostka_state table_store) (v : F) :
  qt_kostka table_store Partition_of H_to_s numerator lam mu st = (Ok v, st') ->
  qt_kostka table_store Partition_of H_to_s numerator lam mu st' = (Ok v, st').
Proof.
  intros Hrun.
  destruct (qt_kostka_arguments lam mu st st' v Hrun) as (lam' & mu' & Hlam & Hmu).
  rewrite (qt_kostka_unfold lam mu lam' mu') in * by done.
  destruct (negb (size lam' =? size mu')); [by injection Hrun as <- <-|].
  assert (Hv : _qt_kostka_cache table_store st' !! (lam', mu') = Some v).
  { case_decide as Hc.
    - by apply kostka_lookup_run in Hrun as [-> Hv].
    - apply bind_cases in Hrun as [(a & s1 & _ & Hrun)|(e & _ & [=])].
      apply bind_cases in Hrun as [(u & s2 & _ & Hrun)|(e & _ & [=])].
      by apply kostka_lookup_run in Hrun as [-> Hv]. }
  rewrite decide_True by (by eexists). by apply kostka_lookup_hit.
Qed.

Lemma from_cache_basis_elt_computes (m : partition)
    (cache_function : nat -> ST caches unit)
    (cache_dict : caches -> gmap nat table) (sub : F -> result F)
    (st0 st' : caches) (res : coeffs_t) :
  cache_dict st0 !! size m = None ->
  _from_cache (basis_elt m) cache_function cache_dict sub st0 = (Ok res, st') ->
  exists st1, cache_function (size m) st0 = (Ok tt, st1).
Proof.
  intros Hnone. unfold _from_cache, basis_elt.
  rewrite map_fold_singleton. unfold bind at 1. unfold bind at 1.
  unfold ret at 1. unfold bind at 1.
  rewrite decide_False by (rewrite Hnone; by intros [? ?]).
  destruct (cache_function (size m) st0) as [[[]|e] st1]; [|done].
  intros _. by exists st1.
Qed.

(** The Schur expansion of [H(p2)], read through the cache. *)
Lemma self_to_s_basis_elt (n : nat) (p2 : partition) (c c' : caches)
    (res : coeffs_t) :
  p2 ∈ Partitions n ->
  (self_to_s_cache c !! n = None
   \/ exists T, self_to_s_cache c !! n = Some T /\ table_of_rule H_to_s n T) ->
  _self_to_s H_to_s QQqt_q QQqt_t (basis_elt p2) c = (Ok res, c') ->
  (exists T, self_to_s_cache c' !! n = Some T /\ table_of_rule H_to_s n T)
  /\ exists f, H_to_s p2 = Ok f
               /\ forall p1, p1 ∈ Partitions n -> coefficient res p1 = f p1.
Proof.
  intros Hp2 Hinv Hrun.
  assert (Hsize : size p2 = n) by (by apply Partitions_size, list_elem_of_In).
  assert (Hend : forall T z,
             self_to_s_cache c' !! n = Some T ->
             table_of_rule H_to_s n T ->
             res = from_dict z ->
             (forall k, coefficient z k
                        = msum (fun m c => (c * entry T m k)%F) (basis_elt p2)) ->
             (exists T, self_to_s_cache c' !! n = Some T /\ table_of_rule H_to_s n T)
             /\ exists f, H_to_s p2 = Ok f
                          /\ forall p1, p1 ∈ Partitions n -> coefficient res p1 = f p1).
  { intros T z HT Hrule -> Hcoef. split; [by exists T|].
    destruct Hrule as [Hrows Hrow].
    destruct (Hrows p2 Hp2) as [row Hr].
    destruct (Hrow p2 row Hr) as (f & Hf & Hval).
    exists f. split; [done|]. intros p1 Hp1.
    rewrite coefficient_from_dict, Hcoef. unfold basis_elt.
    rewrite msum_singleton, (entry_row T p2 p1 row Hr), Hval by done. ring. }
  assert (Hx : forall T, table_of_rule H_to_s n T ->
                         forall m c0, basis_elt p2 !! m = Some c0 ->
                                      size m = n /\ is_Some (T !! m)).
  { intros T [Hrows _] m c0 Hm. unfold basis_elt in Hm.
    apply lookup_singleton_Some in Hm as [<- _]. split; [done|by apply Hrows]. }
  destruct Hinv as [Hnone|(T & HT & Hrule)].
  - unfold _self_to_s in Hrun.
    destruct (from_cache_basis_elt_computes p2 _ _ _ c c' res
                (eq_ind_r (fun k => self_to_s_cache c !! k = None) Hnone Hsize) Hrun)
      as [c1 Hc1].
    rewrite Hsize in Hc1.
    destruct (direct_table_of_to_s H_to_s n c c1 (or_introl Hnone) Hc1)
      as (T & HT & Hrows & Hrow).
    assert (Hrule : table_of_rule H_to_s n T).
    { split; [intros lam Hlam; by apply Hrows|].
      intros lam row Hr. destruct (Hrow lam row Hr) as (_ & _ & f & Hf & Hval).
      by exists f. }
    destruct (from_cache_on_demand (basis_elt p2) (_s_cache H_to_s)
                self_to_s_cache (subs QQqt_q QQqt_t) (fun e => e) c c1 n T
                Hnone Hc1 HT (Hx T Hrule))
      as (z & Hz & Hcoef); [|done|].
    { intros. apply subs_gens. }
    rewrite decide_False in Hz by apply basis_elt_non_empty.
    rewrite Hz in Hrun. injection Hrun as <- <-.
    by apply (Hend T z).
  - destruct (from_cache_hit (basis_elt p2) (_s_cache H_to_s)
                self_to_s_cache (subs QQqt_q QQqt_t) (fun e => e) c n T HT
                (Hx T Hrule))
      as (z & Hz & Hcoef); [|done|].
    { intros. apply subs_gens. }
    unfold _self_to_s in Hrun. rewrite Hz in Hrun. injection Hrun as <- <-.
    by apply (Hend T z).
Qed.

Lemma on_caches_run (A : Type) (m : ST caches A) (st st' : kstate) (r : result A) :
  on_caches table_store m st = (r, st') ->
  m (k_caches table_store st) = (r, k_caches table_store st')
  /\ _qt_kostka_cache table_store st' = _qt_kostka_cache table_store st.
Proof.
  unfold on_caches. destruct (m (k_caches table_store st)) as [r' c'].
  by intros [= <- <-].
Qed.

Lemma on_globals_run (A : Type) (m : ST (globals table_store) A)
    (st st' : kstate) (r : result A) :
  on_globals table_store m st = (r, st') ->
  k_caches table_store st' = k_caches table_store st
  /\ _qt_kostka_cache table_store st' = _qt_kostka_cache table_store st.
Proof.
  unfold on_globals. destruct (m (k_globals table_store st)) as [r' g'].
  by intros [= <- <-].
Qed.

(** The outer loop of [qt_kostka] on the partitions that are left. *)
Lemma kostka_fill_spec (n : nat) (todo : list partition) :
  forall st st' : kstate,
    (forall p, p ∈ todo -> p ∈ Partitions n) ->
    (self_to_s_cache (k_caches table_store st) !! n = None
     \/ exists T, self_to_s_cache (k_caches table_store st) !! n = Some T
                  /\ table_of_rule H_to_s n T) ->
    kostka_fill table_store H_to_s numerator (Partitions n) todo st = (Ok tt, st') ->
    (forall p1 p2, p1 ∈ Partitions n -> p2 ∈ todo ->
                   exists f, H_to_s p2 = Ok f
                             /\ _qt_kostka_cache table_store st' !! (p1, p2)
                                = Some (numerator (f p1)))
    /\ (forall key, ~ (key.1 ∈ Partitions n /\ key.2 ∈ todo) ->
                    _qt_kostka_cache table_store st' !! key
                    = _qt_kostka_cache table_store st !! key).
Proof using All.
  induction todo as [|p2 todo IH]; intros st st' Htodo Hinv Hrun.
  - injection Hrun as <-. split; [|done].
    intros p1 p2 _ Hp2. by apply elem_of_nil in Hp2.
  - simpl in Hrun.
    apply bind_cases in Hrun as [(res & s1 & Hres & Hrun)|(e & _ & [=])].
    apply bind_cases in Hrun as [(u & s2 & Hstore & Hrun)|(e & _ & [=])].
    apply on_caches_run in Hres as [Hres Hk1].
    destruct (self_to_s_basis_elt n p2 _ _ res
                (Htodo p2 (list_elem_of_here _ _)) Hinv Hres)
      as [Hinv1 (f & Hf & Hval)].
    unfold kostka_store in Hstore. injection Hstore as Hu Hs2. subst s2.
    assert (Htodo' : forall p, p ∈ todo -> p ∈ Partitions n).
    { intros p Hp. apply Htodo. by apply list_elem_of_further. }
    match type of Hrun with
    | kostka_fill _ _ _ _ _ ?s = _ =>
        destruct (IH s st' Htodo' (or_intror Hinv1) Hrun) as [Hfilled Hkept]
    end.
    assert (Hcol : forall p1, p1 ∈ Partitions n ->
                              _qt_kostka_cache table_store st' !! (p1, p2)
                              = Some (numerator (f p1)) \/ p2 ∈ todo).
    { intros p1 Hp1. destruct (decide (p2 ∈ todo)) as [Hin|Hout]; [by right|left].
      rewrite Hkept by (simpl; tauto). simpl.
      rewrite fold_insert_column. simpl.
      rewrite decide_True by done. by rewrite Hval. }
    split.
    + intros p1 p Hp1 Hp. apply elem_of_cons in Hp as [->|Hp].
      * destruct (Hcol p1 Hp1) as [Hc|Hin]; [by exists f|by apply Hfilled].
      * by apply Hfilled.
    + intros key Hkey. rewrite Hkept.
      2:{ intros [Ha Hb]. apply Hkey. split; [done|by apply list_elem_of_further]. }
      simpl. rewrite fold_insert_column. rewrite decide_False; [by rewrite Hk1|].
      intros [Hb Ha]. apply Hkey. split; [done|]. rewrite Hb. apply list_elem_of_here.
Qed.

(** X20: when [qt_kostka(lam, mu)] returns from a state that holds
    neither the value for the two partitions nor the table of their
    degree of the H basis, both are partitions that [Partitions]
    lists, the value is the numerator of the value at [lam] of the
    expansion rule of the H basis for [mu], and the dictionary then
    holds such a value for every pair of partitions of that degree. *)
Theorem qt_kostka_values (lam mu : list nat) (lam' mu' : partition)
    (st st' : kostka_state table_store) (v : F) :
  Partition_of lam = Ok lam' ->
  Partition_of mu = Ok mu' ->
  size lam' = size mu' ->
  _qt_kostka_cache table_store st !! (lam', mu') = None ->
  self_to_s_cache (k_caches table_store st) !! size mu' = None ->
  qt_kostka table_store Partition_of H_to_s numerator lam mu st = (Ok v, st') ->
  (exists f, H_to_s mu' = Ok f /\ v = numerator (f lam'))
  /\ lam' ∈ Partitions (size mu') /\ mu' ∈ Partitions (size mu')
  /\ (forall p1 p2,
         p1 ∈ Partitions (size mu') -> p2 ∈ Partitions (size mu') ->
         exists f, H_to_s p2 = Ok f
                   /\ _qt_kostka_cache table_store st' !! (p1, p2)
                      = Some (numerator (f p1))).
Proof.
  intros Hlam Hmu Hsize Hmiss Hnone Hrun.
  rewrite (qt_kostka_unfold lam mu lam' mu') in Hrun by done.
  rewrite (proj2 (Nat.eqb_eq _ _) Hsize) in Hrun. simpl in Hrun.
  rewrite decide_False in Hrun by (rewrite Hmiss; by intros [? ?]).
  apply bind_cases in Hrun as [(a & s1 & Hbuild & Hrun)|(e & _ & [=])].
  apply bind_cases in Hrun as [(u & s2 & Hfill & Hrun)|(e & _ & [=])].
  apply kostka_lookup_run in Hrun as [-> Hv].
  apply on_globals_run in Hbuild as [Hc1 Hk1].
  destruct u.
  destruct (kostka_fill_spec (size mu') (Partitions (size mu')) s1 s2)
    as [Hfilled Hkept]; [done|left; by rewrite Hc1|done|].
  assert (Hin : lam' ∈ Partitions (size mu') /\ mu' ∈ Partitions (size mu')).
  { destruct (decide (lam' ∈ Partitions (size mu') /\ mu' ∈ Partitions (size mu')))
      as [Hin|Hout]; [done|].
    rewrite (Hkept (lam', mu')) in Hv by done. congruence. }
  destruct Hin as [Hl Hm]. split; [|by repeat split].
  destruct (Hfilled lam' mu' Hl Hm) as (f & Hf & Hc).
  exists f. split; [done|]. congruence.
Qed.

End KostkaFacts.

(** [qt_kostka_size_guard] on [[2]] and [[1]], with every list taken
    as a partition. *)
Lemma qt_kostka_size_guard_witness :
  let st := KostkaState (H1 := small_rings) unit
              (Globals unit tt (fun _ => [])) (Caches ∅ ∅) ∅ in
  @qt_kostka Qc_field Qc_substitution small_rings unit Ok (@S_to_s Qc_field (Qc_of_Z 3)) (fun c => c)
    [2] [1] st
  = (Ok 0%F, st).
Proof.
  intros st.
  apply (@qt_kostka_size_guard Qc_field Qc_substitution small_rings unit Ok
           (@S_to_s Qc_field (Qc_of_Z 3)) (fun c => c) [2] [1] [2] [1] st).
  - reflexivity.
  - reflexivity.
  - discriminate.
Defined.

Lemma result_ok_get (A : Type) (d : A) (r : result A) :
  match r with Ok _ => true | Raise _ => false end = true ->
  r = Ok (match r with Ok a => a | Raise _ => d end).
Proof. destruct r; [done|discriminate]. Qed.

Lemma qt_kostka_example_runs :
  let st := KostkaState (H1 := small_rings) unit
              (Globals unit tt (fun _ => [])) (Caches ∅ ∅) ∅ in
  exists v st',
    @qt_kostka Qc_field Qc_substitution small_rings unit Ok (@S_to_s Qc_field (Qc_of_Z 3)) (fun c => c)
      [1] [1] st
    = (Ok v, st').
Proof.
  intros st.
  set (r := @qt_kostka Qc_field Qc_substitution small_rings unit Ok (@S_to_s Qc_field (Qc_of_Z 3))
              (fun c => c) [1] [1] st).
  exists (match r.1 with Ok a => a | Raise _ => 0%F end), r.2.
  rewrite <- (result_ok_get _ (0%F : @F Qc_field) r.1)
    by (vm_compute; reflexivity).
  apply surjective_pairing.
Defined.

(** [qt_kostka_memo] on [[1]] and [[1]], from empty caches, with the
    expansion rule of the S basis at [t = 3] in the place of the rule
    of the H basis. *)
Lemma qt_kostka_memo_witness :
  let st := KostkaState (H1 := small_rings) unit
              (Globals unit tt (fun _ => [])) (Caches ∅ ∅) ∅ in
  exists v st',
    @qt_kostka Qc_field Qc_substitution small_rings unit Ok (@S_to_s Qc_field (Qc_of_Z 3)) (fun c => c)
      [1] [1] st
    = (Ok v, st')
    /\ @qt_kostka Qc_field Qc_substitution small_rings unit Ok (@S_to_s Qc_field (Qc_of_Z 3)) (fun c => c)
         [1] [1] st'
       = (Ok v, st').
Proof.
  intros st. destruct qt_kostka_example_runs as (v & st' & Hrun).
  exists v, st'. split; [exact Hrun|].
  exact (@qt_kostka_memo Qc_field Qc_substitution small_rings unit Ok (@S_to_s Qc_field (Qc_of_Z 3))
           (fun c => c) [1] [1] _ st' v Hrun).
Defined.

(** [qt_kostka_values] on the same call. *)
Lemma qt_kostka_values_witness :
  let st := KostkaState (H1 := small_rings) unit
              (Globals unit tt (fun _ => [])) (Caches ∅ ∅) ∅ in
  exists v st',
    @qt_kostka Qc_field Qc_substitution small_rings unit Ok (@S_to_s Qc_field (Qc_of_Z 3)) (fun c => c)
      [1] [1] st
    = (Ok v, st')
    /\ exists f, @S_to_s Qc_field (Qc_of_Z 3) [1] = Ok f /\ v = f [1].
Proof.
  intros st. destruct qt_kostka_example_runs as (v & st' & Hrun).
  exists v, st'. split; [exact Hrun|].
  refine (proj1 (@qt_kostka_values Qc_field Qc_substitution small_rings unit Ok
                   (@S_to_s Qc_field (Qc_of_Z 3)) (fun c => c) [1] [1] [1] [1] _ st' v
                   _ _ _ _ _ Hrun)); reflexivity.
Defined.

(** ** The generic scalar product *)

Section GenericPairing.
Context `{ScalarField}.
Variable to_power : element -> result coeffs_t.

Add Field scalar_field_gp : F_theory.

Lemma centralizer_fold_raise (t q : F) (p : partition) (e : exn) :
  fold_left
    (fun res k => do r <- res;
                  do v <- div_r (1 - q ^ k)%F (1 - t ^ k)%F;
                  Ok (r * v)%F)
    p (Raise e)
  = Raise e.
Proof. induction p as [|k p IH]; simpl; [done|exact IH]. Qed.

Lemma centralizer_fold (t q : F) (p : partition) :
  forall a : F,
    fold_left
      (fun res k => do r <- res;
                    do v <- div_r (1 - q ^ k)%F (1 - t ^ k)%F;
                    Ok (r * v)%F)
      p (Ok a)
    = if bool_decide (Exists (fun k => (1 - t ^ k)%F = 0%F) p)
      then Raise ZeroDivisionError
      else Ok (a * fprod (map (fun k => ((1 - q ^ k) / (1 - t ^ k))%F) p))%F.
Proof.
  induction p as [|k p IH]; intros a; cbn [fold_left map].
  - rewrite bool_decide_eq_false_2 by (by intros ?%Exists_nil).
    f_equal. unfold fprod. simpl. ring.
  - cbn [rbind].
    destruct (decide ((1 - t ^ k)%F = 0%F)) as [Hz|Hnz].
    + rewrite Hz, div_r_zero. cbn [rbind]. rewrite centralizer_fold_raise.
      rewrite bool_decide_eq_true_2; [done|]. by apply Exists_cons_hd.
    + rewrite div_r_ok by done. cbn [rbind]. rewrite IH.
      case_bool_decide as Hex.
      * rewrite bool_decide_eq_true_2; [done|]. by apply Exists_cons_tl.
      * rewrite bool_decide_eq_false_2.
        2:{ intros [?|?]%Exists_cons; done. }
        f_equal. unfold fprod. simpl.
        rewrite (fold_left_fmul_acc _ (1 * _)%F). ring.
Qed.

Lemma centralizer_size_cases (p : partition) (t q : F) :
  centralizer_size p t q
  = if bool_decide (Exists (fun k => (1 - t ^ k)%F = 0%F) p)
    then Raise ZeroDivisionError
    else Ok (of_nat (zee p)
             * fprod (map (fun k => ((1 - q ^ k) / (1 - t ^ k))%F) p))%F.
Proof. unfold centralizer_size. apply centralizer_fold. Qed.

Lemma scalar_qt_generic_cases (self x : element) (ps px : coeffs_t) :
  to_power self = Ok ps ->
  to_power x = Ok px ->
  scalar_qt_generic to_power self x
  = if bool_decide
         (map_Exists
            (fun m _ =>
               is_Some (px !! m)
               /\ Exists (fun k => (1 - param_t (parent self) ^ k)%F = 0%F) m)
            ps)
    then Raise ZeroDivisionError
    else Ok (gram
               (fun m =>
                  (of_nat (zee m)
                   * fprod (map (fun k =>
                                   ((1 - param_q (parent self) ^ k)
                                    / (1 - param_t (parent self) ^ k))%F) m))%F)
               ps px).
Proof.
  intros Hs Hx. unfold scalar_qt_generic. rewrite Hs, Hx. simpl.
  case_bool_decide as Hex.
  - apply pairing_raises.
    + intros m e. rewrite centralizer_size_cases. by case_bool_decide; intros [=].
    + destruct Hex as (m & cx & Hm & [cy Hy] & Hz).
      exists m, cx, cy. repeat split; [done..|].
      rewrite centralizer_size_cases. by rewrite bool_decide_eq_true_2.
  - apply pairing_ok. intros m cx cy Hm Hy.
    rewrite centralizer_size_cases. rewrite bool_decide_eq_false_2; [done|].
    intros Hz. apply Hex. exists m, cx. eauto.
Qed.

(** X21: for an element of the H, Ht or S basis, once the two
    arguments are expanded in the power sums, the scalar product is
    the sum over the partitions [m] of the product of the two
    coefficients of [p(m)] with the centraliser size of [m] times the
    product of [(1 - q^k)/(1 - t^k)] over the parts [k] of [m], with
    the [q] and [t] of the first argument; it raises
    [ZeroDivisionError] when [t^k = 1] for a part [k] of a partition
    that both expansions have a term for. *)
Theorem scalar_qt_generic_formula (self x : element) (ps px : coeffs_t) :
  tag (parent self) = McdH \/ tag (parent self) = McdHt
  \/ tag (parent self) = McdS ->
  to_power self = Ok ps ->
  to_power x = Ok px ->
  scalar_qt to_power self x
  = if bool_decide
         (map_Exists
            (fun m _ =>
               is_Some (px !! m)
               /\ Exists (fun k => (1 - param_t (parent self) ^ k)%F = 0%F) m)
            ps)
    then Raise ZeroDivisionError
    else Ok (gram
               (fun m =>
                  (of_nat (zee m)
                   * fprod (map (fun k =>
                                   ((1 - param_q (parent self) ^ k)
                                    / (1 - param_t (parent self) ^ k))%F) m))%F)
               ps px).
Proof.
  intros Htag Hs Hx.
  rewrite <- (scalar_qt_generic_cases self x ps px Hs Hx).
  unfold scalar_qt. by destruct Htag as [->|[->| ->]].
Qed.

End GenericPairing.

(** [scalar_qt_generic_formula] with [q = 2] and [t = 3], for
    [H([1])] with itself, the power-sum expansion of [H([1])] being
    [p([1])]. *)
Lemma scalar_qt_generic_formula_witness :
  let q : @F Qc_field := Qc_of_Z 2 in
  let t : @F Qc_field := Qc_of_Z 3 in
  let to_power := fun e : @element Qc_field => Ok (coeffs e) in
  let a := Element (Parent McdH q t) (basis_elt [1]) in
  exists v, scalar_qt to_power a a = Ok v /\ v = ((1 - q) / (1 - t))%F.
Proof.
  intros q t to_power a.
  pose proof (@scalar_qt_generic_formula Qc_field to_power a a
                (basis_elt [1]) (basis_elt [1])
                (or_introl eq_refl) eq_refl eq_refl) as Hf.
  rewrite bool_decide_eq_false_2 in Hf.
  - eexists. split; [exact Hf|].
    apply Qc_is_canon. vm_compute. reflexivity.
  - intros (m & c & Hm & _ & Hz). unfold basis_elt in Hm.
    apply lookup_singleton_Some in Hm as [<- _].
    apply Exists_cons in Hz as [Hz|Hz]; [|by apply Exists_nil in Hz].
    apply (f_equal this) in Hz. vm_compute in Hz. discriminate Hz.
Defined.

(** ** The eigenvectors of nabla in a basis with an expansion rule *)

Section NablaEigenvectors.
Context `{ScalarField} `{!Substitution}.

Add Field scalar_field_ne : F_theory.

(** The conversion of an element of degree [n] by a table of degree
    [n] that the cache holds, read through a substitution that is
    defined on its entries. *)
Lemma from_cache_table (x : coeffs_t) (cache_function : nat -> ST caches unit)
    (cache_dict : caches -> gmap nat table) (q t : F)
    (st : caches) (n : nat) (A : matrix) :
  cache_dict st !! n = Some (table_of_matrix (Partitions n) A) ->
  length A = length (Partitions n) ->
  (forall a b, exists v,
      subs q t (entry (table_of_matrix (Partitions n) A) a b) = Ok v) ->
  homogeneous n x ->
  exists (sv : F -> F) (y : coeffs_t),
    _from_cache x cache_function cache_dict (subs q t) st = (Ok y, st)
    /\ canonical y /\ homogeneous n y
    /\ forall k, coefficient y k
                 = lsum (map (fun m =>
                                (coefficient x m
                                 * sv (entry (table_of_matrix (Partitions n) A) m k))%F)
                             (Partitions n)).
Proof.
  intros HT HA Hdef Hhom.
  pose proof (Partitions_NoDup n) as Hpn.
  destruct (subs_value q t) as (sv & Hsv0 & Hsv).
  destruct (from_cache_hit x cache_function cache_dict (subs q t) sv st n _ HT)
    as (z & Hz & Hc); [| |done|].
  { intros m c Hm. split.
    - apply Partitions_size. by apply (Hhom m c).
    - apply lookup_table_of_matrix_is_Some; [done..|].
      apply list_elem_of_In. by apply (Hhom m c). }
  { intros m c row k e _ Hrow He.
    rewrite <- (entry_lookup _ m k row e Hrow He).
    destruct (Hdef m k) as [v Hv]. by apply (Hsv _ v). }
  assert (Hc' : forall k, coefficient (from_dict z) k
            = lsum (map (fun m =>
                           (coefficient x m
                            * sv (entry (table_of_matrix (Partitions n) A) m k))%F)
                        (Partitions n))).
  { intros k. rewrite coefficient_from_dict, Hc.
    apply (msum_list (fun m => sv (entry (table_of_matrix (Partitions n) A) m k)));
      done. }
  exists sv, (from_dict z). split; [done|]. split; [apply canonical_from_dict|].
  split; [|done].
  intros m c Hm. destruct (decide (m ∈ Partitions n)) as [Hin|Hn].
  { by apply list_elem_of_In. }
  rewrite (coefficient_lookup_None (from_dict z) m) in Hm; [done| |].
  - apply canonical_from_dict.
  - rewrite Hc'. apply lsum_map_zero. intros lam _.
    rewrite entry_table_of_matrix_notin by done. rewrite Hsv0. ring.
Qed.

Lemma homogeneous_elt_scal (n : nat) (c : F) (x : coeffs_t) :
  homogeneous n x -> homogeneous n (elt_scal c x).
Proof.
  intros Hx m d Hm. unfold elt_scal in Hm. rewrite lookup_omap in Hm.
  destruct (x !! m) as [a|] eqn:Hxm; [by apply (Hx m a)|done].
Qed.

(** It commutes with the multiplication by a scalar. *)
Lemma from_cache_table_scal (x y : coeffs_t) (c : F)
    (cache_function : nat -> ST caches unit)
    (cache_dict : caches -> gmap nat table) (q t : F)
    (st : caches) (n : nat) (A : matrix) :
  cache_dict st !! n = Some (table_of_matrix (Partitions n) A) ->
  length A = length (Partitions n) ->
  (forall a b, exists v,
      subs q t (entry (table_of_matrix (Partitions n) A) a b) = Ok v) ->
  homogeneous n x ->
  _from_cache x cache_function cache_dict (subs q t) st = (Ok y, st) ->
  _from_cache (elt_scal c x) cache_function cache_dict (subs q t) st
  = (Ok (elt_scal c y), st).
Proof.
  intros HT HA Hdef Hhom Hy.
  pose proof (Partitions_NoDup n) as Hpn.
  destruct (subs_value q t) as (sv & Hsv0 & Hsv).
  assert (Hread : forall x', homogeneous n x' ->
             exists z,
               _from_cache x' cache_function cache_dict (subs q t) st
               = (Ok (from_dict z), st)
               /\ forall k, coefficient (from_dict z) k
                    = lsum (map (fun m =>
                         (coefficient x' m
                          * sv (entry (table_of_matrix (Partitions n) A) m k))%F)
                         (Partitions n))).
  { intros x' Hhom'.
    destruct (from_cache_hit x' cache_function cache_dict (subs q t) sv st n _ HT)
      as (z & Hz & Hc); [| |done|].
    { intros m c' Hm. split.
      - apply Partitions_size. by apply (Hhom' m c').
      - apply lookup_table_of_matrix_is_Some; [done..|].
        apply list_elem_of_In. by apply (Hhom' m c'). }
    { intros m c' row k e _ Hrow He.
      rewrite <- (entry_lookup _ m k row e Hrow He).
      destruct (Hdef m k) as [v Hv]. by apply (Hsv _ v). }
    exists z. split; [done|]. intros k. rewrite coefficient_from_dict, Hc.
    apply (msum_list (fun m => sv (entry (table_of_matrix (Partitions n) A) m k)));
      done. }
  destruct (Hread x Hhom) as (z1 & Hy1 & Hc1).
  rewrite Hy in Hy1. injection Hy1 as ->.
  destruct (Hread (elt_scal c x) (homogeneous_elt_scal n c x Hhom))
    as (z2 & Hy2 & Hc2).
  rewrite Hy2. do 2 f_equal.
  apply elt_ext; [apply canonical_from_dict|apply canonical_elt_scal|].
  intros k. rewrite coefficient_elt_scal, Hc1, Hc2, <- lsum_map_scal.
  apply lsum_map_ext. intros m _. rewrite coefficient_elt_scal. ring.
Qed.

Lemma nabla_ht_basis_elt (q t : F) (lam : partition) :
  nabla_ht q t (basis_elt lam)
  = elt_scal (t ^ weighted_size lam * q ^ weighted_size (conjugate lam))%F
             (basis_elt lam).
Proof.
  apply elt_ext.
  - apply canonical_nabla_ht.
  - apply canonical_elt_scal.
  - intros k. rewrite coefficient_nabla_ht, !coefficient_elt_scal,
      coefficient_basis_elt.
    unfold nabla_eigenvalue. case_decide; [subst|]; ring.
Qed.

Lemma on_own_run (A : Type) (m : ST caches A) (st : nabla_state) (r : result A) :
  m (own_caches st) = (r, own_caches st) -> on_own m st = (r, st).
Proof. intros Hm. unfold on_own. rewrite Hm. by destruct st. Qed.

Lemma on_ht_run (A : Type) (m : ST caches A) (st : nabla_state) (r : result A) :
  m (ht_caches st) = (r, ht_caches st) -> on_ht m st = (r, st).
Proof. intros Hm. unfold on_ht. rewrite Hm. by destruct st. Qed.

Lemma run_second (A B : Type) (m : ST caches A) (k : A -> ST caches B)
    (st : caches) (a : A) (r : result B) :
  m st = (Ok a, st) -> (run y <- m; k y) st = (r, st) -> k a st = (r, st).
Proof. intros Hm. unfold bind. by rewrite Hm. Qed.

(** X22: in a basis with an expansion rule and the parameters [q]
    and [t], when the tables of degree [n] of the basis and of the
    Ht basis have been computed and the substitution
    [q = self.q, t = self.t] is defined on every entry of these four
    tables, the image [y] of [Ht(lam)] in the basis, for a partition
    [lam] of [n], is an eigenvector of the generic nabla:
    [y.nabla() = t^n(lam) * q^n(lam') * y], and the caches are left
    as they are. *)
Theorem nabla_eigenvectors
    (_to_s Ht_to_s : partition -> result (partition -> F))
    (q t : F) (n : nat) (lam : partition) (c0 c0' : caches) (st : nabla_state) :
  self_to_s_cache c0 !! n = None \/ s_to_self_cache c0 !! n = None ->
  _s_cache _to_s n c0 = (Ok tt, own_caches st) ->
  self_to_s_cache c0' !! n = None \/ s_to_self_cache c0' !! n = None ->
  _s_cache Ht_to_s n c0' = (Ok tt, ht_caches st) ->
  (forall (T : table) (a b : partition),
      self_to_s_cache (own_caches st) !! n = Some T
      \/ s_to_self_cache (own_caches st) !! n = Some T
      \/ self_to_s_cache (ht_caches st) !! n = Some T
      \/ s_to_self_cache (ht_caches st) !! n = Some T ->
      exists v, subs q t (entry T a b) = Ok v) ->
  In lam (Partitions n) ->
  exists y,
    from_Ht _to_s Ht_to_s q t (basis_elt lam) st = (Ok y, st)
    /\ nabla_generic _to_s Ht_to_s q t y st
       = (Ok (elt_scal (t ^ weighted_size lam * q ^ weighted_size (conjugate lam))%F
                       y), st).
Proof.
  intros Hf Hown Hf' Hht Hdef Hlam.
  destruct (s_cache_computed _to_s n c0 _ Hf Hown)
    as (A & B & HA & HB & HAB & HBA & HTA & HTB).
  destruct (s_cache_computed Ht_to_s n c0' _ Hf' Hht)
    as (A' & B' & HA' & HB' & HAB' & HBA' & HTA' & HTB').
  assert (HdA : forall a b, exists v,
             subs q t (entry (table_of_matrix (Partitions n) A) a b) = Ok v).
  { intros a b. apply Hdef. by left. }
  assert (HdB : forall a b, exists v,
             subs q t (entry (table_of_matrix (Partitions n) B) a b) = Ok v).
  { intros a b. apply Hdef. right. by left. }
  assert (HdA' : forall a b, exists v,
             subs q t (entry (table_of_matrix (Partitions n) A') a b) = Ok v).
  { intros a b. apply Hdef. right. right. by left. }
  assert (HdB' : forall a b, exists v,
             subs q t (entry (table_of_matrix (Partitions n) B') a b) = Ok v).
  { intros a b. apply Hdef. right. right. by right. }
  pose proof (homogeneous_basis_elt n lam Hlam) as Hhom.
  set (e := (t ^ weighted_size lam * q ^ weighted_size (conjugate lam))%F).
  (* Ht(lam) in the Schur functions, then in the basis *)
  destruct (from_cache_table (basis_elt lam) (_s_cache Ht_to_s) self_to_s_cache
              q t (ht_caches st) n A' HTA' HA' HdA' Hhom)
    as (sv1 & s0 & Hs0 & Hcan0 & Hhom0 & _).
  destruct (from_cache_table s0 (_s_cache _to_s) s_to_self_cache
              q t (own_caches st) n B HTB HB HdB Hhom0)
    as (sv2 & y & Hy & Hcany & Hhomy & _).
  assert (E1 : _self_to_s Ht_to_s q t (basis_elt lam) (ht_caches st)
               = (Ok s0, ht_caches st)) by exact Hs0.
  assert (E2 : _s_to_self _to_s q t s0 (own_caches st) = (Ok y, own_caches st))
    by exact Hy.
  (* back to the Schur functions and to Ht *)
  assert (E3 : _self_to_s _to_s q t y (own_caches st) = (Ok s0, own_caches st)).
  { apply (run_second _ _ _ _ _ _ _ Hy
             (round_trip_tables (_s_cache _to_s) s_to_self_cache self_to_s_cache
                q t (own_caches st) n B A s0 HTB HTA HB HA HBA HdB HdA
                Hcan0 Hhom0)). }
  assert (E4 : _s_to_self Ht_to_s q t s0 (ht_caches st)
               = (Ok (basis_elt lam), ht_caches st)).
  { apply (run_second _ _ _ _ _ _ _ Hs0
             (round_trip_tables (_s_cache Ht_to_s) self_to_s_cache s_to_self_cache
                q t (ht_caches st) n A' B' (basis_elt lam) HTA' HTB' HA' HB' HAB'
                HdA' HdB' (canonical_basis_elt lam) Hhom)). }
  (* the images of the multiples *)
  assert (E5 : _self_to_s Ht_to_s q t (elt_scal e (basis_elt lam)) (ht_caches st)
               = (Ok (elt_scal e s0), ht_caches st)).
  { by apply (from_cache_table_scal (basis_elt lam) s0 e (_s_cache Ht_to_s)
                self_to_s_cache q t (ht_caches st) n A' HTA' HA' HdA' Hhom Hs0). }
  assert (E6 : _s_to_self _to_s q t (elt_scal e s0) (own_caches st)
               = (Ok (elt_scal e y), own_caches st)).
  { by apply (from_cache_table_scal s0 y e (_s_cache _to_s) s_to_self_cache
                q t (own_caches st) n B HTB HB HdB Hhom0 Hy). }
  exists y. split.
  { unfold from_Ht, bind. rewrite (on_ht_run _ _ st _ E1).
    by apply on_own_run. }
  unfold nabla_generic, to_Ht. unfold bind at 1. unfold bind at 1.
  rewrite (on_own_run _ _ st _ E3), (on_ht_run _ _ st _ E4).
  rewrite nabla_ht_basis_elt. fold e.
  unfold from_Ht, bind. rewrite (on_ht_run _ _ st _ E5).
  by apply on_own_run.
Qed.

End NablaEigenvectors.

Lemma J_s_cache_two_runs :
  @_s_cache Qc_field (J_to_s (Qc_of_Z 2) (Qc_of_Z 3)) 2 (Caches ∅ ∅)
  = (Ok tt,
     (@_s_cache Qc_field (J_to_s (Qc_of_Z 2) (Qc_of_Z 3)) 2 (Caches ∅ ∅)).2).
Proof.
  assert (Hfst : (@_s_cache Qc_field (J_to_s (Qc_of_Z 2) (Qc_of_Z 3)) 2
                    (Caches ∅ ∅)).1 = Ok tt)
    by (vm_compute; reflexivity).
  rewrite <- Hfst. apply surjective_pairing.
Qed.

(** [nabla_eigenvectors] with [q = 2] and [t = 3] in degree 2, for
    the S basis, with the expansion rule of the J basis in the place
    of the rule of the Ht basis. *)
Lemma nabla_eigenvectors_witness :
  let q : @F Qc_field := Qc_of_Z 2 in
  let t : @F Qc_field := Qc_of_Z 3 in
  let st := NablaState (_s_cache (S_to_s t) 2 (Caches ∅ ∅)).2
                       (_s_cache (J_to_s q t) 2 (Caches ∅ ∅)).2 in
  exists y,
    from_Ht (S_to_s t) (J_to_s q t) q t (basis_elt [2]) st = (Ok y, st)
    /\ nabla_generic (S_to_s t) (J_to_s q t) q t y st
       = (Ok (elt_scal (t ^ weighted_size [2] * q ^ weighted_size (conjugate [2]))%F
                       y), st).
Proof.
  intros q t st.
  apply (@nabla_eigenvectors Qc_field Qc_substitution (S_to_s t) (J_to_s q t) q t 2
           [2] (Caches ∅ ∅) (Caches ∅ ∅) st).
  - left. reflexivity.
  - exact S_s_cache_two_runs.
  - left. reflexivity.
  - exact J_s_cache_two_runs.
  - intros T a b _. eexists. reflexivity.
  - simpl. tauto.
Defined.

(** ** Conjugation of partitions *)

Lemma weakly_decreasing_bounded (a : nat) (rest : partition) :
  weakly_decreasing (a :: rest) = true -> Forall (fun x => x <= a) rest.
Proof.
  revert a. induction rest as [|b rest IH]; intros a Hwd; [constructor|].
  apply weakly_decreasing_cons in Hwd as [Hb Hrest]. simpl in Hb.
  constructor; [done|].
  eapply Forall_impl; [apply (IH b Hrest)|]. intros x Hx. simpl in Hx. lia.
Qed.

Lemma weakly_decreasing_head_max (m : partition) :
  weakly_decreasing m = true -> Forall (fun x => x <= hd 0 m) m.
Proof.
  destruct m as [|a rest]; intros Hwd; [constructor|].
  constructor; [simpl; lia|]. by apply weakly_decreasing_bounded.
Qed.

Lemma nth_bounded (a : nat) (m : partition) (i : nat) :
  Forall (fun x => x <= a) m -> nth i m 0 <= a.
Proof.
  intros Hm. destruct (Nat.lt_ge_cases i (length m)) as [Hi|Hi].
  - rewrite Forall_forall in Hm. apply Hm. apply list_elem_of_In. by apply nth_In.
  - rewrite nth_overflow by done. lia.
Qed.

Lemma filter_above_nil (j : nat) (m : partition) :
  Forall (fun x => x <= j) m -> List.filter (fun x => j <? x) m = [].
Proof.
  induction 1 as [|x m Hx _ IH]; [done|]. simpl.
  destruct (j <? x) eqn:Hjx; [apply Nat.ltb_lt in Hjx; lia|done].
Qed.

(** Row [i] of a partition reaches column [j] exactly when column
    [j] reaches row [i]. *)
Lemma conjugate_column (m : partition) (i j : nat) :
  weakly_decreasing m = true ->
  (i <? length (List.filter (fun x => j <? x) m)) = (j <? nth i m 0).
Proof.
  revert i. induction m as [|a rest IH]; intros i Hwd.
  - simpl. destruct i; symmetry; by apply Nat.ltb_ge; lia.
  - pose proof (weakly_decreasing_bounded a rest Hwd) as Hb.
    apply weakly_decreasing_cons in Hwd as [_ Hrest].
    simpl List.filter. destruct (j <? a) eqn:Hja.
    + destruct i as [|i]; simpl nth; [by rewrite Hja|].
      rewrite <- (IH i Hrest). reflexivity.
    + apply Nat.ltb_ge in Hja.
      rewrite filter_above_nil.
      2:{ eapply Forall_impl; [exact Hb|]. intros x Hx. simpl in Hx. lia. }
      assert (Hn : nth i (a :: rest) 0 <= a).
      { apply nth_bounded. constructor; [lia|done]. }
      simpl length. transitivity false; [|symmetry]; apply Nat.ltb_ge; lia.
Qed.

Lemma nth_conjugate (m : partition) (j : nat) :
  weakly_decreasing m = true ->
  nth j (conjugate m) 0 = length (List.filter (fun x => j <? x) m).
Proof.
  intros Hwd. unfold conjugate.
  destruct (Nat.lt_ge_cases j (hd 0 m)) as [Hj|Hj].
  - rewrite (nth_indep _ 0 (length (List.filter (fun x => 0 <? x) m))).
    2:{ by rewrite length_map, length_seq. }
    rewrite (map_nth (fun j => length (List.filter (fun x => j <? x) m))).
    by rewrite seq_nth.
  - rewrite nth_overflow by (by rewrite length_map, length_seq).
    rewrite filter_above_nil; [done|].
    eapply Forall_impl; [by apply weakly_decreasing_head_max|].
    intros x Hx. simpl in Hx. lia.
Qed.

Lemma length_conjugate (m : partition) : length (conjugate m) = hd 0 m.
Proof. unfold conjugate. by rewrite length_map, length_seq. Qed.

Lemma filter_above_positive (m : partition) :
  Forall (fun x => 0 < x) m -> List.filter (fun x => 0 <? x) m = m.
Proof.
  induction 1 as [|x m Hx _ IH]; [done|]. simpl.
  rewrite (proj2 (Nat.ltb_lt 0 x) Hx). by rewrite IH.
Qed.

Lemma hd_conjugate_positive (m : partition) :
  Forall (fun x => 0 < x) m -> hd 0 (conjugate m) = length m.
Proof.
  intros Hm. unfold conjugate. destruct m as [|a rest]; [done|].
  inversion Hm; subst. simpl hd. destruct a as [|a]; [lia|].
  simpl seq. simpl map. simpl hd. by rewrite filter_above_positive.
Qed.

Lemma count_in_range (x : nat) :
  forall s h : nat,
    length (List.filter (fun j => j <? x) (seq s h))
    = Nat.min (s + h) x - Nat.min s x.
Proof.
  intros s h. revert s. induction h as [|h IH]; intros s; simpl.
  - rewrite Nat.add_0_r. lia.
  - destruct (s <? x) eqn:Hs; simpl; rewrite IH.
    + apply Nat.ltb_lt in Hs. lia.
    + apply Nat.ltb_ge in Hs. lia.
Qed.

Lemma filter_map_length (A B : Type) (g : B -> bool) (f : A -> B) (l : list A) :
  length (List.filter g (map f l)) = length (List.filter (fun a => g (f a)) l).
Proof.
  induction l as [|a l IH]; [done|]. simpl. destruct (g (f a)); simpl; by rewrite IH.
Qed.

(** The rows of the conjugate that reach column [i], among the rows
    from [s] on. *)
Lemma conjugate_rows_above (m : partition) (i s h : nat) :
  weakly_decreasing m = true ->
  length (List.filter (fun c => i <? c)
            (map (fun j => length (List.filter (fun x => j <? x) m)) (seq s h)))
  = Nat.min (s + h) (nth i m 0) - Nat.min s (nth i m 0).
Proof.
  intros Hwd. rewrite filter_map_length.
  rewrite (List.filter_ext _ (fun j => j <? nth i m 0)).
  2:{ intros j. by apply conjugate_column. }
  apply count_in_range.
Qed.

Lemma conjugate_involutive (m : partition) :
  weakly_decreasing m = true -> Forall (fun x => 0 < x) m ->
  conjugate (conjugate m) = m.
Proof.
  intros Hwd Hpos.
  apply (nth_ext _ _ 0 0).
  { by rewrite length_conjugate, hd_conjugate_positive. }
  intros i Hi. rewrite length_conjugate, hd_conjugate_positive in Hi by done.
  unfold conjugate at 1. rewrite hd_conjugate_positive by done.
  rewrite (nth_indep _ 0 (length (List.filter (fun x => 0 <? x) (conjugate m)))).
  2:{ by rewrite length_map, length_seq. }
  rewrite (map_nth (fun j => length (List.filter (fun x => j <? x) (conjugate m)))).
  rewrite seq_nth by done. simpl.
  unfold conjugate. rewrite conjugate_rows_above by done.
  pose proof (nth_bounded (hd 0 m) m i (weakly_decreasing_head_max m Hwd)).
  lia.
Qed.

Lemma filter_above_antitone (m : partition) (j : nat) :
  length (List.filter (fun x => S j <? x) m)
  <= length (List.filter (fun x => j <? x) m).
Proof.
  induction m as [|x m IH]; [done|]. simpl.
  destruct (S j <? x) eqn:H1, (j <? x) eqn:H2; simpl; try lia.
  apply Nat.ltb_lt in H1. apply Nat.ltb_ge in H2. lia.
Qed.

Lemma weakly_decreasing_map_seq (f : nat -> nat) (s h : nat) :
  (forall j, f (S j) <= f j) ->
  weakly_decreasing (map f (seq s h)) = true.
Proof.
  intros Hf. revert s. induction h as [|h IH]; intros s; [done|].
  simpl. specialize (IH (S s)). destruct h as [|h]; [done|].
  simpl in *. rewrite IH. by rewrite (proj2 (Nat.leb_le _ _) (Hf s)).
Qed.

Lemma weakly_decreasing_conjugate (m : partition) :
  weakly_decreasing (conjugate m) = true.
Proof.
  unfold conjugate. apply weakly_decreasing_map_seq.
  intros j. apply filter_above_antitone.
Qed.

Lemma positive_conjugate (m : partition) :
  Forall (fun x => 0 < x) (conjugate m).
Proof.
  unfold conjugate. apply Forall_forall. intros c Hc.
  apply list_elem_of_In, in_map_iff in Hc as (j & <- & Hj).
  apply in_seq in Hj. destruct m as [|a rest]; simpl in Hj; [lia|].
  simpl. rewrite (proj2 (Nat.ltb_lt j a)) by lia. simpl. lia.
Qed.

(** The partitions that [Partitions] lists are the weakly decreasing
    lists of positive parts. *)
Lemma parts_le_valid (k n m : nat) (lam : partition) :
  In lam (parts_le k n m) ->
  weakly_decreasing lam = true /\ Forall (fun x => 0 < x) lam /\ hd 0 lam <= m.
Proof.
  revert n m lam. induction k as [|k IH]; intros n m lam Hin.
  - destruct n; simpl in Hin; [|done]. destruct Hin as [<-|[]].
    repeat split; [constructor|simpl; lia].
  - destruct n as [|n].
    { simpl in Hin. destruct Hin as [<-|[]]. repeat split; [constructor|simpl; lia]. }
    rewrite parts_le_step in Hin.
    apply in_flat_map in Hin as (j & Hj & Hin).
    apply in_map_iff in Hin as (r & <- & Hr).
    apply IH in Hr as (Hwd & Hpos & Hhd). apply in_rev, in_seq in Hj.
    repeat split.
    + destruct r as [|b r]; [done|]. simpl in Hhd.
      change (((b <=? j) && weakly_decreasing (b :: r)) = true).
      by rewrite Hwd, (proj2 (Nat.leb_le b j) Hhd).
    + constructor; [lia|done].
    + simpl. lia.
Qed.

Lemma size_zero_positive (lam : partition) :
  Forall (fun x => 0 < x) lam -> size lam = 0 -> lam = [].
Proof.
  destruct 1 as [|x l Hx _]; [done|]. unfold size. simpl. lia.
Qed.

Lemma parts_le_complete (k n m : nat) (lam : partition) :
  n <= k -> weakly_decreasing lam = true -> Forall (fun x => 0 < x) lam ->
  size lam = n -> hd 0 lam <= m -> In lam (parts_le k n m).
Proof.
  revert n m lam. induction k as [|k IH]; intros n m lam Hk Hwd Hpos Hsize Hhd.
  - assert (n = 0) as -> by lia.
    rewrite (size_zero_positive lam Hpos Hsize). by left.
  - destruct n as [|n].
    { rewrite (size_zero_positive lam Hpos Hsize). by left. }
    destruct lam as [|a rest]; [done|].
    inversion Hpos; subst. simpl in Hhd. unfold size in Hsize. simpl in Hsize.
    apply weakly_decreasing_cons in Hwd as [Ha Hrest].
    rewrite parts_le_step. apply in_flat_map. exists a. split.
    + apply in_rev. rewrite rev_involutive. apply in_seq. lia.
    + apply in_map. apply IH; [lia|done|done|unfold size; lia|done].
Qed.

Lemma Partitions_valid (n : nat) (lam : partition) :
  In lam (Partitions n) ->
  weakly_decreasing lam = true /\ Forall (fun x => 0 < x) lam.
Proof. intros Hin. apply parts_le_valid in Hin as (? & ? & _). done. Qed.

Lemma Partitions_complete (lam : partition) :
  weakly_decreasing lam = true -> Forall (fun x => 0 < x) lam ->
  In lam (Partitions (size lam)).
Proof.
  intros Hwd Hpos. apply parts_le_complete; [done|done|done|done|].
  destruct lam as [|a rest]; unfold size; simpl; lia.
Qed.

Lemma Partitions_conjugate (n : nat) (lam : partition) :
  In lam (Partitions n) ->
  In (conjugate lam) (Partitions n) /\ conjugate (conjugate lam) = lam.
Proof.
  intros Hin. pose proof (Partitions_size n lam Hin) as Hsize.
  apply Partitions_valid in Hin as [Hwd Hpos]. split.
  - rewrite <- Hsize, <- (size_conjugate lam).
    + apply Partitions_complete;
        [apply weakly_decreasing_conjugate|apply positive_conjugate].
    + by apply weakly_decreasing_head_max.
  - by apply conjugate_involutive.
Qed.

(** ** The cells of a diagram and of its conjugate *)

Lemma elem_of_rows (g : nat -> nat) (p : partition) (c : nat * nat) :
  c ∈ concat (imap (fun i pi => map (fun j => (g i, j)) (seq 0 pi)) p)
  <-> exists i pi, p !! i = Some pi /\ c.1 = g i /\ c.2 < pi.
Proof.
  rewrite list_elem_of_In, in_concat. split.
  - intros (row & Hrow & Hc).
    apply list_elem_of_In, elem_of_lookup_imap in Hrow as (i & pi & -> & Hpi).
    apply in_map_iff in Hc as (j & <- & Hj).
    apply in_seq in Hj. exists i, pi. simpl. repeat split; [done|lia].
  - intros (i & pi & Hpi & Hi & Hj).
    exists (map (fun j => (g i, j)) (seq 0 pi)). split.
    + apply list_elem_of_In, elem_of_lookup_imap. by exists i, pi.
    + apply in_map_iff. exists c.2. split.
      * destruct c as [a b]. simpl in *. by rewrite Hi.
      * apply in_seq. lia.
Qed.

Lemma elem_of_cells (p : partition) (i j : nat) :
  (i, j) ∈ cells p <-> j < nth i p 0.
Proof.
  unfold cells. rewrite (elem_of_rows (fun i => i)). rewrite nth_lookup. split.
  - intros (i' & pi & Hpi & Hi & Hj). simpl in *. subst i'. by rewrite Hpi.
  - intros Hj. destruct (p !! i) as [pi|] eqn:Hpi; simpl in Hj; [|lia].
    by exists i, pi.
Qed.

Lemma NoDup_rows (g : nat -> nat) (p : partition) :
  (forall a b, g a = g b -> a = b) ->
  NoDup (concat (imap (fun i pi => map (fun j => (g i, j)) (seq 0 pi)) p)).
Proof.
  revert g. induction p as [|x p IH]; intros g Hg; [constructor|].
  rewrite imap_cons. simpl concat. apply NoDup_app. repeat split.
  - apply (NoDup_fmap_2 (fun j => (g 0, j))), NoDup_seq.
  - intros c Hc Hc'.
    apply list_elem_of_In, in_map_iff in Hc as (j & <- & _).
    apply (elem_of_rows (fun i => g (S i))) in Hc' as (i & pi & _ & Hi & _).
    simpl in Hi. apply Hg in Hi. lia.
  - apply (IH (fun i => g (S i))). intros a b Hab. apply Hg in Hab. lia.
Qed.

Lemma NoDup_cells (p : partition) : NoDup (cells p).
Proof. apply (NoDup_rows (fun i => i)). done. Qed.

(** The cells of the conjugate are the cells of the diagram with
    row and column exchanged. *)
Lemma cells_conjugate (p : partition) :
  weakly_decreasing p = true ->
  cells (conjugate p) ≡ₚ map (fun c => (c.2, c.1)) (cells p).
Proof.
  intros Hwd. apply NoDup_Permutation.
  - apply NoDup_cells.
  - assert (Hswap : Inj eq eq (fun c : nat * nat => (c.2, c.1))).
    { intros [a b] [a' b'] [=]. by subst. }
    apply (NoDup_fmap_2 (fun c : nat * nat => (c.2, c.1))), NoDup_cells.
  - intros [j i]. rewrite elem_of_cells, nth_conjugate by done.
    rewrite <- Nat.ltb_lt, conjugate_column, Nat.ltb_lt by done.
    rewrite <- elem_of_cells. split.
    + intros Hc. apply list_elem_of_In, in_map_iff. exists (i, j).
      split; [done|by apply list_elem_of_In].
    + intros Hc. apply list_elem_of_In, in_map_iff in Hc as ([a b] & [= <- <-] & Hc).
      by apply list_elem_of_In.
Qed.

Lemma rows_above_cell (p : partition) (i j : nat) :
  weakly_decreasing p = true -> j < nth i p 0 ->
  List.filter (fun x => j <? x) (take (S i) p) = take (S i) p
  /\ length (take (S i) p) = S i.
Proof.
  revert i. induction p as [|a rest IH]; intros i Hwd Hj.
  - destruct i; simpl in Hj; lia.
  - pose proof (weakly_decreasing_bounded a rest Hwd) as Hb.
    apply weakly_decreasing_cons in Hwd as [_ Hrest].
    assert (Ha : j < a).
    { destruct i as [|i]; simpl in Hj; [done|].
      pose proof (nth_bounded a rest i Hb). lia. }
    change (take (S i) (a :: rest)) with (a :: take i rest).
    simpl. rewrite (proj2 (Nat.ltb_lt j a) Ha).
    destruct i as [|i].
    + by rewrite take_0.
    + simpl in Hj. destruct (IH i Hrest Hj) as [-> ->]. done.
Qed.

(** The arm of a cell of the conjugate is the leg of the cell of the
    diagram, and its leg is the arm. *)
Lemma arm_leg_conjugate (p : partition) (i j : nat) :
  weakly_decreasing p = true -> j < nth i p 0 ->
  arm (conjugate p) j i = leg p i j /\ leg (conjugate p) j i = arm p i j.
Proof.
  intros Hwd Hj. split.
  - unfold arm, leg. rewrite nth_conjugate by done.
    rewrite <- (take_drop (S i) p) at 1.
    rewrite List.filter_app, length_app.
    destruct (rows_above_cell p i j Hwd Hj) as [-> ->]. lia.
  - unfold arm, leg.
    pose proof (nth_bounded (hd 0 p) p i (weakly_decreasing_head_max p Hwd)) as Hi.
    unfold conjugate.
    change (@map nat nat) with (@fmap list _ nat nat).
    rewrite <- fmap_drop.
    change (@fmap list _ nat nat) with (@map nat nat).
    rewrite drop_seq. simpl Nat.add.
    rewrite conjugate_rows_above by done. lia.
Qed.

(** ** The structural scalars of the conjugate *)

Section ScalarsConjugate.
Context `{ScalarField}.

Add Field scalar_field_k : F_theory.

Lemma fprod_cons (a : F) (l : list F) : fprod (a :: l) = (a * fprod l)%F.
Proof.
  unfold fprod. simpl. rewrite fold_left_fmul_acc. ring.
Qed.

Lemma fprod_Permutation (l k : list F) : l ≡ₚ k -> fprod l = fprod k.
Proof.
  induction 1 as [|a l k _ IH|a b l|l k m _ IH1 _ IH2].
  - done.
  - by rewrite !fprod_cons, IH.
  - rewrite !fprod_cons. ring.
  - by rewrite IH1.
Qed.

Lemma fprod_cells_conjugate (g : nat -> nat -> F) (p : partition) :
  weakly_decreasing p = true ->
  fprod (map (fun c => g (arm (conjugate p) c.1 c.2) (leg (conjugate p) c.1 c.2))
             (cells (conjugate p)))
  = fprod (map (fun c => g (leg p c.1 c.2) (arm p c.1 c.2)) (cells p)).
Proof.
  intros Hwd.
  rewrite (fprod_Permutation _
             (map (fun c => g (arm (conjugate p) c.1 c.2)
                              (leg (conjugate p) c.1 c.2))
                  (map (fun c => (c.2, c.1)) (cells p)))).
  2:{ apply Permutation_map. by apply cells_conjugate. }
  rewrite map_map. f_equal. apply map_ext_in. intros [i j] Hc. simpl.
  apply list_elem_of_In, elem_of_cells in Hc.
  by destruct (arm_leg_conjugate p i j Hwd Hc) as [-> ->].
Qed.

(** X23: conjugating the partition exchanges the two structural
    scalars and the two parameters: [c1(part.conjugate(), q, t)] is
    [c2(part, t, q)] and [c2(part.conjugate(), q, t)] is
    [c1(part, t, q)], for a partition given with weakly decreasing
    parts. *)
Theorem c1_c2_conjugate (part : partition) (q t : F) :
  weakly_decreasing part = true ->
  c1 (conjugate part) q t = c2 part t q
  /\ c2 (conjugate part) q t = c1 part t q.
Proof.
  intros Hwd. rewrite !c1_cells, !c2_cells. split.
  - rewrite (fprod_cells_conjugate
               (fun a l => (1 - q ^ (a + 1)%nat * t ^ l)%F) part Hwd).
    f_equal. apply map_ext. intros c. ring.
  - rewrite (fprod_cells_conjugate
               (fun a l => (1 - q ^ a * t ^ (l + 1)%nat)%F) part Hwd).
    f_equal. apply map_ext. intros c. ring.
Qed.

End ScalarsConjugate.

(** [c1_c2_conjugate] for the partition [2,1,1], whose conjugate is
    [3,1]. *)
Lemma c1_c2_conjugate_witness :
  weakly_decreasing [2; 1; 1] = true
  /\ @c1 Qc_field (conjugate [2; 1; 1]) (Qc_of_Z 2) (Qc_of_Z 3)
     = @c2 Qc_field [2; 1; 1] (Qc_of_Z 3) (Qc_of_Z 2)
  /\ @c2 Qc_field (conjugate [2; 1; 1]) (Qc_of_Z 2) (Qc_of_Z 3)
     = @c1 Qc_field [2; 1; 1] (Qc_of_Z 3) (Qc_of_Z 2).
Proof.
  split; [reflexivity|].
  apply (@c1_c2_conjugate Qc_field [2; 1; 1] (Qc_of_Z 2) (Qc_of_Z 3)). reflexivity.
Defined.

(** ** Conjugation of the terms of an element *)

Lemma partition_conjugate (m : partition) :
  In m (Partitions (size m)) ->
  In (conjugate m) (Partitions (size (conjugate m)))
  /\ conjugate (conjugate m) = m.
Proof.
  intros Hm. destruct (Partitions_conjugate _ m Hm) as [Hm' Hmm].
  split; [|done]. by rewrite (Partitions_size _ _ Hm').
Qed.

Section OmegaInSchurs.
Context `{ScalarField}.

Add Field scalar_field_o : F_theory.

Lemma supported_omega_qt_in_schurs (Q : partition -> Prop) (x : coeffs_t) :
  supported (fun m => Q (conjugate m)) x -> supported Q (_omega_qt_in_schurs x).
Proof.
  intros Hx. unfold _omega_qt_in_schurs. apply supported_apply_module_morphism.
  intros m c Hm. apply supported_basis_elt. by apply (Hx m c).
Qed.

Lemma coefficient_omega_qt_in_schurs (x : coeffs_t) (k : partition) :
  supported (fun m => In m (Partitions (size m))) x ->
  In k (Partitions (size k)) ->
  coefficient (_omega_qt_in_schurs x) k = coefficient x (conjugate k).
Proof.
  intros Hx Hk. unfold _omega_qt_in_schurs.
  rewrite coefficient_apply_module_morphism.
  rewrite (msum_ext _ (fun m c => if decide (m = conjugate k) then c else 0%F)).
  - rewrite (msum_delta (fun c => c)). unfold coefficient.
    by destruct (x !! conjugate k).
  - intros m c Hm. rewrite coefficient_basis_elt.
    apply Hx, partition_conjugate in Hm as [_ Hm].
    apply partition_conjugate in Hk as [_ Hk].
    repeat case_decide; try ring; congruence.
Qed.

(** X24: on an element whose terms are partitions,
    [_omega_qt_in_schurs] is an involution, and the image of an
    element that is homogeneous of degree [n] is homogeneous of
    degree [n]. *)
Theorem omega_qt_in_schurs_involution (x : coeffs_t) :
  canonical x ->
  supported (fun m => In m (Partitions (size m))) x ->
  _omega_qt_in_schurs (_omega_qt_in_schurs x) = x
  /\ forall n, homogeneous n x -> homogeneous n (_omega_qt_in_schurs x).
Proof.
  intros Hcan Hx.
  assert (Hy : supported (fun m => In m (Partitions (size m)))
                 (_omega_qt_in_schurs x)).
  { apply supported_omega_qt_in_schurs. intros m c Hm.
    apply Hx in Hm. by apply partition_conjugate in Hm as [Hm _]. }
  split.
  - apply elt_ext.
    { apply canonical_apply_module_morphism. intros m. apply canonical_basis_elt. }
    { exact Hcan. }
    intros k. destruct (decide (k ∈ Partitions (size k))) as [Hk|Hk].
    + apply list_elem_of_In in Hk.
      rewrite coefficient_omega_qt_in_schurs by done.
      destruct (partition_conjugate k Hk) as [Hk' Hkk].
      rewrite coefficient_omega_qt_in_schurs by done.
      by rewrite Hkk.
    + transitivity 0%F; [|symmetry].
      * destruct (decide (coefficient (_omega_qt_in_schurs (_omega_qt_in_schurs x)) k
                          = 0%F)) as [H0|H0]; [done|].
        exfalso. apply Hk, list_elem_of_In. revert H0.
        apply (coefficient_supported (fun m => In m (Partitions (size m)))).
        apply supported_omega_qt_in_schurs. intros m c Hm.
        apply Hy in Hm. by apply partition_conjugate in Hm as [Hm _].
      * destruct (decide (coefficient x k = 0%F)) as [H0|H0]; [done|].
        exfalso. apply Hk, list_elem_of_In. revert H0.
        by apply (coefficient_supported (fun m => In m (Partitions (size m)))).
  - intros n Hn. apply (supported_omega_qt_in_schurs (fun m => In m (Partitions n))).
    intros m c Hm. apply Hn in Hm. by apply Partitions_conjugate in Hm as [Hm _].
Qed.

End OmegaInSchurs.

(** [omega_qt_in_schurs_involution] on [s[2,1,1] + s[3,1]] over the
    rationals. *)
Lemma omega_qt_in_schurs_involution_witness :
  let x : gmap partition (@F Qc_field) :=
    elt_add (basis_elt [2; 1; 1]) (basis_elt [3; 1]) in
  canonical x
  /\ supported (fun m => In m (Partitions (size m))) x
  /\ @_omega_qt_in_schurs Qc_field (@_omega_qt_in_schurs Qc_field x) = x
  /\ forall n, homogeneous n x -> homogeneous n (@_omega_qt_in_schurs Qc_field x).
Proof.
  intros x.
  assert (Hcan : canonical x).
  { apply canonical_elt_add; apply canonical_basis_elt. }
  assert (Hx : supported (fun m => In m (Partitions (size m))) x).
  { apply supported_elt_add; apply supported_basis_elt; vm_compute; tauto. }
  split; [done|]. split; [done|].
  apply (@omega_qt_in_schurs_involution Qc_field x Hcan Hx).
Defined.

(** ** The generic omega automorphism *)

Section GenericOmega.
Context `{ScalarField} `{!Substitution}.
Variable _to_s : partition -> result (partition -> F).

Add Field scalar_field_go : F_theory.

Lemma omega_factor_cases (q t : F) (part : partition) :
  omega_factor q t part
  = if bool_decide (Exists (fun i => (1 - t ^ i)%F = 0%F) part)
    then Raise ZeroDivisionError
    else Ok (fprod (map (fun i => ((1 - q ^ i) / (1 - t ^ i))%F) part)).
Proof.
  unfold omega_factor. rewrite (centralizer_fold t q part 1%F).
  case_bool_decide; [done|]. f_equal. ring.
Qed.

(** X25: the generic [omega_qt] first converts the element to the
    Schur functions; when that raises, so does [omega_qt].
    Otherwise, with [p_self] the expansion in the power sums, it
    raises [ZeroDivisionError] when [t^i = 1] for a part [i] of a
    partition that [p_self] has a term for, the caches being left as
    the conversion left them; and when there is no such part it
    returns the conversion to the basis of [p_self] with the
    coefficient of every partition [m] multiplied by
    [(-1)^(|m| - len(m))] times the product of
    [(1 - q^i)/(1 - t^i)] over the parts [i] of [m]. *)
Theorem omega_qt_generic_cases (q t : F) (self : coeffs_t) (st : caches) :
  match _self_to_s _to_s q t self st with
  | (Raise e, st') => omega_qt_generic _to_s q t self st = (Raise e, st')
  | (Ok s_self, st') =>
      omega_qt_generic _to_s q t self st
      = if bool_decide
             (map_Exists
                (fun m _ => Exists (fun i => (1 - t ^ i)%F = 0%F) m)
                (s_to_p s_self))
        then (Raise ZeroDivisionError, st')
        else _s_to_self _to_s q t
               (p_to_s
                  (scale_by
                     (fun m =>
                        ((- (1)) ^ (size m - length m)
                         * fprod (map (fun i => ((1 - q ^ i) / (1 - t ^ i))%F) m))%F)
                     (s_to_p s_self)))
               st'
  end.
Proof.
  unfold omega_qt_generic, bind.
  destruct (_self_to_s _to_s q t self st) as [[s_self|e] st']; [|done].
  unfold lift. case_bool_decide as Hex.
  - rewrite (apply_module_morphism_r_raises ZeroDivisionError); [done| |].
    + intros m e. rewrite omega_factor_cases. by case_bool_decide; intros [=].
    + destruct Hex as (m & c & Hm & Hz). exists m, c. split; [done|].
      rewrite omega_factor_cases. by rewrite bool_decide_eq_true_2.
  - erewrite apply_module_morphism_r_ok; [reflexivity|].
    intros m c Hm. cbv beta. rewrite omega_factor_cases.
    rewrite bool_decide_eq_false_2; [done|].
    intros Hz. apply Hex. by exists m, c.
Qed.

End GenericOmega.

(** ** The direct table of the J basis *)

Section TriangularTables.
Context `{ScalarField}.

Add Field scalar_field_tt : F_theory.







End TriangularTables.

Section DirectTableShape.
Context `{ScalarField}.

Add Field scalar_field_dts : F_theory.


End DirectTableShape.


(** ** The overridden omega of the S basis *)

Section OmegaOfS.
Context `{ScalarField} `{!Substitution}.

Add Field scalar_field_os : F_theory.

Lemma homogeneous_omega_qt_in_schurs (n : nat) (x : coeffs_t) :
  homogeneous n x -> homogeneous n (_omega_qt_in_schurs x).
Proof.
  intros Hx. apply (supported_omega_qt_in_schurs (fun m => In m (Partitions n))).
  intros m c Hm. apply Hx in Hm. by apply Partitions_conjugate in Hm as [Hm _].
Qed.

(** C10, as the code has it.  In an S basis with the parameters [q]
    and [t], when the tables of degree [n] in the caches are those
    that [_s_cache(n)] of the basis computed and the substitution
    [q = self.q, t = self.t] is defined on their entries, the
    overridden [omega_qt] of a homogeneous element [x] of degree [n]
    returns the element of the S basis whose expansion in the Schur
    functions is [x] with every index replaced by its conjugate: the
    coefficients of [x] are read as coefficients of Schur functions.
    It is not the generic [omega_qt]: from caches without tables of
    degree 1, for [t] other than 1 that the substitution leaves as
    it is, on [S([1])] the overridden method gives
    [1/(1-t) * S([1])] and the generic one [(1-q)/(1-t) * S([1])],
    both leaving the caches as [_s_cache(1)] leaves them, and the two
    elements differ unless [q] is zero. *)
Theorem omega_qt_s_not_generic (q t : F) :
  (forall (n : nat) (st0 st : caches) (x : coeffs_t),
      self_to_s_cache st0 !! n = None \/ s_to_self_cache st0 !! n = None ->
      _s_cache (S_to_s t) n st0 = (Ok tt, st) ->
      (forall (T : table) (a b : partition),
          self_to_s_cache st !! n = Some T \/ s_to_self_cache st !! n = Some T ->
          exists v, subs q t (entry T a b) = Ok v) ->
      canonical x -> homogeneous n x ->
      exists y,
        omega_qt_s q t x st = (Ok y, st)
        /\ _self_to_s (S_to_s t) q t y st = (Ok (_omega_qt_in_schurs x), st))
  /\ (t <> 1%F -> subs q t t = Ok t ->
      forall st : caches,
        self_to_s_cache st !! 1 = None -> s_to_self_cache st !! 1 = None ->
        omega_qt_s q t (basis_elt [1]) st
        = (Ok (elt_scal (1 / (1 - t))%F (basis_elt [1])),
           (_s_cache (S_to_s t) 1 st).2)
        /\ omega_qt_generic (S_to_s t) q t (basis_elt [1]) st
           = (Ok (elt_scal ((1 - q) / (1 - t))%F (basis_elt [1])),
              (_s_cache (S_to_s t) 1 st).2)
        /\ (q <> 0%F ->
            elt_scal (1 / (1 - t))%F (basis_elt [1])
            <> elt_scal ((1 - q) / (1 - t))%F (basis_elt [1]))).
Proof.
  split.
  - intros n st0 st x Hfresh Hrun Hdef Hcan Hhom.
    destruct (s_cache_computed (S_to_s t) n st0 st Hfresh Hrun)
      as (A & B & HA & HB & HAB & HBA & HTA & HTB).
    assert (HdA : forall a b, exists v,
               subs q t (entry (table_of_matrix (Partitions n) A) a b) = Ok v).
    { intros a b. apply Hdef. by left. }
    assert (HdB : forall a b, exists v,
               subs q t (entry (table_of_matrix (Partitions n) B) a b) = Ok v).
    { intros a b. apply Hdef. by right. }
    pose proof (homogeneous_omega_qt_in_schurs n x Hhom) as Hhom'.
    assert (Hcan' : canonical (_omega_qt_in_schurs x)).
    { apply canonical_apply_module_morphism. intros m. apply canonical_basis_elt. }
    destruct (from_cache_table (_omega_qt_in_schurs x) (_s_cache (S_to_s t))
                s_to_self_cache q t st n B HTB HB HdB Hhom')
      as (sv & y & Hy & _).
    exists y. split; [exact Hy|].
    apply (run_second _ _ _ _ _ _ _ Hy
             (round_trip_tables (_s_cache (S_to_s t)) s_to_self_cache
                self_to_s_cache q t st n B A _ HTB HTA HB HA HBA HdB HdA
                Hcan' Hhom')).
  - intros Ht Hst st Hn1 Hn2.
    pose proof (one_minus_t_neq_zero t Ht) as Ht'.
    assert (Ht1 : (1 - t ^ 1)%F <> 0%F).
    { simpl. intros Hz. apply Ht'. rewrite <- Hz. ring. }
    destruct (subs_S_entries_one q t Ht Hst) as [Hs1 Hs2].
    pose proof (S_s_cache_one_computes t st Ht (or_introl Hn1)) as Hc.
    rewrite Hc. cbn [snd].
    set (st1 := Caches _ _) in *.
    assert (HT1 : self_to_s_cache st1 !! size [1]
                  = Some (table_of_matrix (Partitions 1) [[(1 - t)%F]])).
    { unfold st1. cbn [self_to_s_cache]. apply lookup_insert_eq. }
    assert (HT2 : s_to_self_cache st1 !! size [1]
                  = Some (table_of_matrix (Partitions 1) [[(1 / (1 - t) * 1)%F]])).
    { unfold st1. cbn [s_to_self_cache]. apply lookup_insert_eq. }
    split; [|split].
    + unfold omega_qt_s, _s_to_self. rewrite omega_in_schurs_one.
      rewrite (from_cache_term_miss [1] [1] 1%F (1 / (1 - t) * 1)%F _ _ _ _ st1
                 (table_of_matrix (Partitions 1) [[(1 / (1 - t) * 1)%F]]));
        [|apply fone_neq_fzero|done|done|done|apply table_of_matrix_one|done].
      rewrite basis_elt_term, elt_scal_term. do 2 f_equal. apply term_eq. ring.
    + unfold omega_qt_generic, bind, _self_to_s, _s_to_self.
      rewrite basis_elt_term.
      rewrite (from_cache_term_miss [1] [1] 1%F (1 - t)%F _ _ _ _ st1
                 (table_of_matrix (Partitions 1) [[(1 - t)%F]]));
        [|apply fone_neq_fzero|done|done|done|apply table_of_matrix_one|done].
      rewrite s_to_p_term_one.
      rewrite (apply_module_morphism_r_ok _ _
                 (fun part => elt_scal ((- (1)) ^ (size part - length part)
                                        * (1 * ((1 - q ^ 1) / (1 - t ^ 1))))%F
                                       (basis_elt part))).
      2:{ intros m c Hm. unfold term in Hm. case_decide; [done|].
          apply lookup_singleton_Some in Hm as [<- _].
          unfold omega_factor. simpl fold_left. rewrite div_r_ok by done. done. }
      unfold lift. rewrite apply_module_morphism_term.
      rewrite basis_elt_term, !elt_scal_term, p_to_s_term_one.
      rewrite (from_cache_term_hit [1] [1] _ (1 / (1 - t) * 1)%F _ _ _ _
                 (table_of_matrix (Partitions 1) [[(1 / (1 - t) * 1)%F]]));
        [|done|apply table_of_matrix_one|done].
      do 2 f_equal. apply term_eq. simpl.
      replace (1 - t * 1)%F with (1 - t)%F by ring.
      field. exact Ht'.
    + intros Hq Heq.
      apply (f_equal (fun x => coefficient x [1])) in Heq.
      rewrite !coefficient_elt_scal, coefficient_basis_elt in Heq.
      rewrite decide_True in Heq by done.
      apply Hq.
      transitivity ((1 - t) * (1 / (1 - t) * 1) - (1 - t) * ((1 - q) / (1 - t) * 1))%F;
        [field; exact Ht'|].
      rewrite Heq. ring.
Qed.

End OmegaOfS.

(** [omega_qt_s_not_generic] with [q = 2] and [t = 3], on [S([2])]
    for the first part and on [S([1])] for the second. *)
Lemma omega_qt_s_not_generic_witness :
  let q : @F Qc_field := Qc_of_Z 2 in
  let t : @F Qc_field := Qc_of_Z 3 in
  let st := (_s_cache (S_to_s t) 2 (Caches ∅ ∅)).2 in
  (exists y,
      omega_qt_s q t (basis_elt [2]) st = (Ok y, st)
      /\ _self_to_s (S_to_s t) q t y st
         = (Ok (_omega_qt_in_schurs (basis_elt [2])), st))
  /\ t <> 1%F
  /\ omega_qt_s q t (basis_elt [1]) (Caches ∅ ∅)
     = (Ok (elt_scal (1 / (1 - t))%F (basis_elt [1])),
        (_s_cache (S_to_s t) 1 (Caches ∅ ∅)).2)
  /\ omega_qt_generic (S_to_s t) q t (basis_elt [1]) (Caches ∅ ∅)
     = (Ok (elt_scal ((1 - q) / (1 - t))%F (basis_elt [1])),
        (_s_cache (S_to_s t) 1 (Caches ∅ ∅)).2).
Proof.
  intros q t st.
  pose proof (@omega_qt_s_not_generic Qc_field Qc_substitution q t) as [H1 H2].
  split; [|split; [exact Qc_three_neq_one|]].
  - apply (H1 2 (Caches ∅ ∅) st (basis_elt [2])).
    + left. reflexivity.
    + exact S_s_cache_two_runs.
    + intros T a b _. eexists. reflexivity.
    + apply canonical_basis_elt.
    + apply homogeneous_basis_elt. simpl. tauto.
  - destruct (H2 Qc_three_neq_one eq_refl (Caches ∅ ∅)) as (Ha & Hb & _);
      [reflexivity|reflexivity|].
    split; [exact Ha|exact Hb].
Defined.
